(** * Chatette: template parsing utilities and the generation engine

    A shallow embedding of [chatette/parsing/parser_utils.py] and
    [chatette/units/__init__.py], followed by the properties proved about
    them.

    Conventions of the embedding:
    - a Python [str] is a [string]; iterating over a string yields its
      characters ([ascii]); a token stream is a [list string];
    - a function that may raise returns a [result]: [Ok v] for a normal
      return, [Raise e] for the exception ([ReError] is [re.error]);
    - the pseudo-random generator is an explicit stream of draws that
      every random function consumes and passes on;
    - the [re] module of the runtime is a parameter ([Regex]): what
      [re.sub] does is given where the identifier and the value are read
      literally, and left to the parameter elsewhere;
    - [print] calls are not modelled. *)

From Stdlib Require Import Ascii String.
From stdpp Require Import base option list gmap strings.

#[local] Arguments String.append : simpl nomatch.

(** ** Python values *)

Inductive Exception : Type :=
  | SyntaxError (msg : string)
  | IndexError
  | ValueError
  | ReError.

Inductive result (A : Type) : Type :=
  | Ok (value : A)
  | Raise (e : Exception).
Arguments Ok {A} value.
Arguments Raise {A} e.

Definition is_syntax_error {A : Type} (r : result A) : Prop :=
  match r with
  | Raise (SyntaxError _) => True
  | _ => False
  end.

#[global] Instance result_ret : MRet result := fun A v => Ok v.
#[global] Instance result_bind : MBind result := fun A B k r =>
  match r with
  | Ok v => k v
  | Raise e => Raise e
  end.

(** [if cond: raise e]. *)
Definition raise_if (cond : bool) (e : Exception) : result unit :=
  if cond then Raise e else Ok tt.

(** The character tables of the Python runtime: [str.isspace],
    [str.isalpha], [str.upper] and [str.lower] on one character.  The case
    mappings return strings, as Python's do. *)
Class CharTable : Type := {
  isspace : ascii -> bool;
  isalpha : ascii -> bool;
  upper : ascii -> string;
  lower : ascii -> string
}.

(** [text[:i]] and [text[i:]]. *)
Fixpoint str_take (i : nat) (text : string) : string :=
  match i, text with
  | S i', String c rest => String c (str_take i' rest)
  | _, _ => ""
  end.

Fixpoint str_drop (i : nat) (text : string) : string :=
  match i, text with
  | S i', String c rest => str_drop i' rest
  | _, _ => text
  end.

(** [c == sym] for a character [c] of a string and a one-character symbol. *)
Definition char_is (c : ascii) (sym : string) : bool :=
  String.eqb (String c "") sym.

(** [sym in text] for a one-character symbol. *)
Fixpoint str_contains_char (sym : string) (text : string) : bool :=
  match text with
  | "" => false
  | String c rest => char_is c sym || str_contains_char sym rest
  end.

(** [text.startswith(prefix)]. *)
Fixpoint startswith (prefix text : string) : bool :=
  match prefix, text with
  | "", _ => true
  | String p prefix', String c rest => Ascii.eqb p c && startswith prefix' rest
  | String _ _, "" => false
  end.

(** The pseudo-random generator: the stream of its raw draws. *)
Definition Rng : Type := nat -> nat.

(** [random.randint(a, b)]: an integer between [a] and [b], both included. *)
Definition randint (a b : nat) (g : Rng) : nat * Rng :=
  (a + g 0 mod (b - a + 1), fun n => g (S n)).

(** Modelled from the spec: [chatette.utils.choose], which is not in this
    module; it selects one element of the list uniformly at random, and
    answers [None] when there is none (the chosen rule is absent). *)
Definition choose {A : Type} (array : list A) (g : Rng) : option A * Rng :=
  match array with
  | [] => (None, g)
  | _ :: _ =>
      let '(i, g) := randint 0 (length array - 1) g in
      (array !! i, g)
  end.

(** ** [chatette.parsing.parser_utils] *)

Definition ESCAPE_SYM : string := String "092"%char "".

Definition ALIAS_SYM : string := "~".
Definition SLOT_SYM : string := "@".
Definition INTENT_SYM : string := "%".
Definition UNIT_OPEN_SYM : string := "[".
Definition UNIT_CLOSE_SYM : string := "]".

Definition ANNOTATION_OPEN_SYM : string := "(".
Definition ANNOTATION_CLOSE_SYM : string := ")".

Definition VARIATION_SYM : string := "#".
Definition RAND_GEN_SYM : string := "?".
Definition PERCENT_GEN_SYM : string := "/".
Definition CASE_GEN_SYM : string := "&".
Definition ARG_SYM : string := "$".

Definition RESERVED_VARIATION_NAMES : list string :=
  ["all-variations-aggregation"; "rules"; "nb-gen-asked"; "arg"].

(** *** remove_escapement *)

(** The [for c in text] loop, with its two variables [result] and
    [escaped]. *)
Fixpoint remove_escapement_loop (text result : string) (escaped : bool) : string :=
  match text with
  | "" => result
  | String c rest =>
      if escaped && char_is c ARG_SYM then
        remove_escapement_loop rest (result +:+ ESCAPE_SYM +:+ ARG_SYM) false
      else if escaped then
        remove_escapement_loop rest (result +:+ String c "") false
      else if char_is c ESCAPE_SYM then
        remove_escapement_loop rest result true
      else
        remove_escapement_loop rest (result +:+ String c "") escaped
  end.

Definition remove_escapement (text : string) : string :=
  if negb (str_contains_char ESCAPE_SYM text) then text
  else remove_escapement_loop text "" false.

(** The reading of [remove_escapement] in the documentation, clause by
    clause: an escape character followed by the argument marker stays
    escaped, an escape character followed by any other character leaves
    that character alone, a trailing escape character disappears, every
    other character is copied. *)
Fixpoint escapement_removed (text : string) : string :=
  match text with
  | "" => ""
  | String c rest =>
      if char_is c ESCAPE_SYM then
        match rest with
        | "" => ""
        | String d rest' =>
            if char_is d ARG_SYM then ESCAPE_SYM +:+ ARG_SYM +:+ escapement_removed rest'
            else String d (escapement_removed rest')
        end
      else String c (escapement_removed rest)
  end.

(** *** Python list operations on token streams *)

(** [tokens.count(sym)]. *)
Fixpoint list_count (sym : string) (tokens : list string) : nat :=
  match tokens with
  | [] => 0
  | token :: tokens' =>
      (if String.eqb token sym then 1 else 0) + list_count sym tokens'
  end.

(** [tokens.index(sym)], a [ValueError] when [sym] is not in the list. *)
Fixpoint list_index (sym : string) (tokens : list string) : result nat :=
  match tokens with
  | [] => Raise ValueError
  | token :: tokens' =>
      if String.eqb token sym then Ok 0
      else i ← list_index sym tokens'; Ok (S i)
  end.

(** [tokens[i]] for [i >= 0], an [IndexError] out of range. *)
Definition list_get (tokens : list string) (i : nat) : result string :=
  match tokens !! i with
  | Some token => Ok token
  | None => Raise IndexError
  end.

(** [tokens[start:stop]] for [0 <= start] and [0 <= stop]. *)
Definition list_slice (tokens : list string) (start stop : nat) : list string :=
  take (stop - start) (drop start tokens).

(** [token in names]. *)
Definition list_mem (token : string) (names : list string) : bool :=
  existsb (String.eqb token) names.

(** *** is_special_sym *)

Definition is_special_sym (text : string) : bool :=
  if negb (String.length text =? 1) then false
  else
    String.eqb text ALIAS_SYM || String.eqb text SLOT_SYM ||
    String.eqb text INTENT_SYM ||
    String.eqb text UNIT_OPEN_SYM || String.eqb text UNIT_CLOSE_SYM ||
    String.eqb text VARIATION_SYM || String.eqb text RAND_GEN_SYM ||
    String.eqb text PERCENT_GEN_SYM || String.eqb text CASE_GEN_SYM ||
    String.eqb text CASE_GEN_SYM || String.eqb text ARG_SYM.

(** *** get_declaration_interior and get_annotation_interior *)

(** [while starting_index < length and tokens[starting_index] != open_sym:
    starting_index += 1], run on [remaining = tokens[starting_index:]];
    returns [starting_index] at the exit of the loop. *)
Fixpoint skip_to_opening (open_sym : string) (remaining : list string)
    (starting_index : nat) : nat :=
  match remaining with
  | [] => starting_index
  | token :: remaining' =>
      if negb (String.eqb token open_sym)
      then skip_to_opening open_sym remaining' (starting_index + 1)
      else starting_index
  end.

(** [while end_index < length and nb_closing_brackets_expected > 0: ...],
    run on [remaining = tokens[end_index:]]; returns [end_index] at the exit
    of the loop. *)
Fixpoint skip_to_closing (open_sym close_sym : string) (remaining : list string)
    (end_index nb_closing_brackets_expected : nat) : nat :=
  match remaining with
  | [] => end_index
  | token :: remaining' =>
      if 0 <? nb_closing_brackets_expected then
        let nb_closing_brackets_expected :=
          if String.eqb token open_sym then nb_closing_brackets_expected + 1
          else if String.eqb token close_sym then nb_closing_brackets_expected - 1
          else nb_closing_brackets_expected in
        skip_to_closing open_sym close_sym remaining'
          (end_index + 1) nb_closing_brackets_expected
      else end_index
  end.

Definition get_declaration_interior (tokens : list string) : option (list string) :=
  let length := length tokens in
  let starting_index := skip_to_opening UNIT_OPEN_SYM tokens 0 in
  let starting_index := starting_index + 1 in
  if length <=? starting_index then None
  else
    let end_index :=
      skip_to_closing UNIT_OPEN_SYM UNIT_CLOSE_SYM
        (drop starting_index tokens) starting_index 1 in
    let end_index := end_index - 1 in
    if length <=? end_index then None
    else Some (list_slice tokens starting_index end_index).

Definition get_annotation_interior (tokens : list string) : option (list string) :=
  let length := length tokens in
  let starting_index := skip_to_opening ANNOTATION_OPEN_SYM tokens 0 in
  let starting_index := starting_index + 1 in
  if length <=? starting_index then None
  else
    let end_index :=
      skip_to_closing ANNOTATION_OPEN_SYM ANNOTATION_CLOSE_SYM
        (drop starting_index tokens) starting_index 1 in
    if length <=? end_index then None
    else Some (list_slice tokens starting_index end_index).

(** Balanced nesting: reading [tokens] from the relative bracket depth
    [depth], no closing bracket comes at depth zero and the depth is zero at
    the end.  [balanced_from open_sym close_sym 0 tokens] says that [tokens]
    can stand between an opening bracket and the bracket that closes it. *)
Fixpoint balanced_from (open_sym close_sym : string) (depth : nat)
    (tokens : list string) : bool :=
  match tokens with
  | [] => depth =? 0
  | token :: tokens' =>
      if String.eqb token open_sym
      then balanced_from open_sym close_sym (S depth) tokens'
      else if String.eqb token close_sym then
        match depth with
        | 0 => false
        | S depth' => balanced_from open_sym close_sym depth' tokens'
        end
      else balanced_from open_sym close_sym depth tokens'
  end.

(** An unterminated span: reading [tokens] from the relative bracket depth
    [depth], no closing bracket comes at depth zero, whatever the depth at
    the end. *)
Fixpoint still_open (open_sym close_sym : string) (depth : nat)
    (tokens : list string) : bool :=
  match tokens with
  | [] => true
  | token :: tokens' =>
      if String.eqb token open_sym
      then still_open open_sym close_sym (S depth) tokens'
      else if String.eqb token close_sym then
        match depth with
        | 0 => false
        | S depth' => still_open open_sym close_sym depth' tokens'
        end
      else still_open open_sym close_sym depth tokens'
  end.

(** *** check_declaration_validity *)

Definition check_declaration_validity (tokens_unit_inside : list string)
    : result unit :=
  let casegen_count := list_count CASE_GEN_SYM tokens_unit_inside in
  raise_if (1 <? casegen_count)
    (SyntaxError "There can be only one case generation modifier in a unit declaration.");;
  (if casegen_count =? 1 then
     i ← list_index CASE_GEN_SYM tokens_unit_inside;
     raise_if (negb (i =? 0))
       (SyntaxError "Case generation modifiers have to be at the start of a unit declaration.")
   else Ok tt);;
  (if casegen_count =? 0 then
     first ← list_get tokens_unit_inside 0;
     raise_if (is_special_sym first) (SyntaxError "Unit declarations must be named.")
   else if (casegen_count =? 1) && (length tokens_unit_inside <=? 1) then
     Raise (SyntaxError "Unit declarations must be named.")
   else if casegen_count =? 1 then
     second ← list_get tokens_unit_inside 1;
     raise_if (is_special_sym second) (SyntaxError "Unit declarations must be named.")
   else Ok tt);;
  let variation_count := list_count VARIATION_SYM tokens_unit_inside in
  raise_if (1 <? variation_count)
    (SyntaxError "There can be only one variation modifier in a unit declaration.");;
  (if variation_count =? 1 then
     i ← list_index VARIATION_SYM tokens_unit_inside;
     let variation_name_index := i + 1 in
     (if length tokens_unit_inside <=? variation_name_index
      then Raise (SyntaxError "Variations must be named.")
      else
        token ← list_get tokens_unit_inside variation_name_index;
        raise_if (is_special_sym token) (SyntaxError "Variations must be named."));;
     variation_name ← list_get tokens_unit_inside variation_name_index;
     raise_if (list_mem variation_name RESERVED_VARIATION_NAMES)
       (SyntaxError "The following variation names are reserved: ['all-variations-aggregation', 'rules', 'nb-gen-asked', 'arg']. Please don't use them.")
   else Ok tt);;
  let argument_count := list_count ARG_SYM tokens_unit_inside in
  raise_if (1 <? argument_count)
    (SyntaxError "There can be only one argument modifier per unit declaration.");;
  (if argument_count =? 1 then
     i ← list_index ARG_SYM tokens_unit_inside;
     let argument_name_index := i + 1 in
     if length tokens_unit_inside <=? argument_name_index
     then Raise (SyntaxError "Arguments must be named.")
     else
       token ← list_get tokens_unit_inside argument_name_index;
       raise_if (is_special_sym token) (SyntaxError "Arguments must be named.")
   else Ok tt);;
  let randgen_count := list_count RAND_GEN_SYM tokens_unit_inside in
  raise_if (0 <? randgen_count)
    (SyntaxError "Unit declarations cannot take a random generation modifier.");;
  let percentgen_count := list_count PERCENT_GEN_SYM tokens_unit_inside in
  raise_if (0 <? percentgen_count)
    (SyntaxError "Unit declarations cannot take a percentage for the random generation modifier.").

(** The clauses of the documentation of [check_declaration_validity], as
    properties of the token span.  The marker at position [i] has no name
    when no token follows it or a special symbol does. *)
Definition no_name_after (tokens : list string) (i : nat) : Prop :=
  match tokens !! S i with
  | None => True
  | Some token => is_special_sym token = true
  end.

Definition reserved_name_after (tokens : list string) (i : nat) : Prop :=
  exists name, tokens !! S i = Some name /\ name ∈ RESERVED_VARIATION_NAMES.

(** After an optional leading casegen marker the span is over or goes on
    with a special symbol. *)
Definition unnamed_unit (tokens : list string) : Prop :=
  match tokens with
  | [] => True
  | first :: rest =>
      if String.eqb first CASE_GEN_SYM then
        match rest with
        | [] => True
        | second :: _ => is_special_sym second = true
        end
      else is_special_sym first = true
  end.

Definition declaration_violation (tokens : list string) : Prop :=
  1 < list_count CASE_GEN_SYM tokens \/
  (exists i, i <> 0 /\ tokens !! i = Some CASE_GEN_SYM) \/
  unnamed_unit tokens \/
  1 < list_count VARIATION_SYM tokens \/
  (exists i, tokens !! i = Some VARIATION_SYM /\
             (no_name_after tokens i \/ reserved_name_after tokens i)) \/
  1 < list_count ARG_SYM tokens \/
  (exists i, tokens !! i = Some ARG_SYM /\ no_name_after tokens i) \/
  RAND_GEN_SYM ∈ tokens \/
  PERCENT_GEN_SYM ∈ tokens.

(** A check decides a property when it raises a syntax error exactly
    where the property holds and returns normally elsewhere. *)
Definition decides (r : result unit) (V : Prop) : Prop :=
  (is_syntax_error r /\ V) \/ (r = Ok tt /\ ~ V).

(** ** [chatette.units] *)

(** The scan shared by [str.replace] and [re.sub] with a literal pattern:
    the occurrences of [old] are replaced by [new] from left to right
    without overlap.  [skip] counts the characters of the current occurrence
    still to pass, [escaped] tells whether the character before the current
    one is a backslash, and with [lookbehind] an occurrence that follows a
    backslash is not one (the negative lookbehind of the pattern).  [old] is
    not empty. *)
Fixpoint replace_scan (lookbehind : bool) (old new text : string)
    (skip : nat) (escaped : bool) : string :=
  match text with
  | "" => ""
  | String c rest =>
      match skip with
      | S skip' => replace_scan lookbehind old new rest skip' (char_is c ESCAPE_SYM)
      | 0 =>
          if negb (lookbehind && escaped) && startswith old text
          then new +:+ replace_scan lookbehind old new rest
                         (String.length old - 1) (char_is c ESCAPE_SYM)
          else String c (replace_scan lookbehind old new rest 0 (char_is c ESCAPE_SYM))
      end
  end.

(** [text.replace(old, new)]. *)
Definition str_replace (old new text : string) : string :=
  replace_scan false old new text 0 false.

(** The characters that a regular expression does not read as
    themselves. *)
Definition regex_special (c : ascii) : bool :=
  str_contains_char (String c "") (ESCAPE_SYM +:+ ".^$*+?{}[]|()").

(** An identifier that the regular expression reads literally: it holds no
    operator, so that the pattern built on it matches the marker followed
    by the identifier, character by character. *)
Fixpoint regex_literal (arg : string) : bool :=
  match arg with
  | "" => true
  | String c rest => negb (regex_special c) && regex_literal rest
  end.

(** A value that the replacement template reads literally: it holds no
    backslash. *)
Definition template_literal (arg_value : string) : bool :=
  negb (str_contains_char ESCAPE_SYM arg_value).

(** The [re] module of the runtime, on the one pattern that the units
    compile: [re_sub arg arg_value text] is
    [re.compile(r"(?<!\\)\$" + arg).sub(arg_value, text)].  The runtime reads
    [arg] as a part of the regular expression and [arg_value] as a
    replacement template, which it compiles before it searches the text,
    and raises [re.error] on what it cannot read. *)
Class Regex : Type := {
  re_sub : string -> string -> string -> result string
}.

(** [self.arg_regex.sub(arg_value, text)].  With an identifier and a value
    that are both read literally the call is the scan of the text for the
    marker followed by the identifier, with no backslash before the marker;
    what the runtime does with the other identifiers and values is left to
    [re_sub]. *)
Definition arg_regex_sub `{Regex} (arg arg_value text : string) : result string :=
  if regex_literal arg && template_literal arg_value
  then Ok (replace_scan true ("$" +:+ arg) arg_value text 0 false)
  else re_sub arg arg_value text.


Section LeadingCase.
Context `{CharTable}.

Fixpoint may_change_leading_case (text : string) : bool :=
  match text with
  | "" => false
  | String c rest =>
      if isalpha c then true
      else if isspace c then may_change_leading_case rest
      else false
  end.

(** The first pair [(i, c)] of [enumerate(text)], counted from [i], whose
    character is not a space. *)
Fixpoint first_non_space (i : nat) (text : string) : option (nat * ascii) :=
  match text with
  | "" => None
  | String c rest =>
      if negb (isspace c) then Some (i, c) else first_non_space (S i) rest
  end.

Definition with_leading_upper (text : string) : string :=
  match first_non_space 0 text with
  | Some (i, c) => str_take i text +:+ upper c +:+ str_drop (i + 1) text
  | None => text
  end.

Definition with_leading_lower (text : string) : string :=
  match first_non_space 0 text with
  | Some (i, c) => str_take i text +:+ lower c +:+ str_drop (i + 1) text
  | None => text
  end.

Definition may_get_leading_space (text : string) : bool :=
  negb (String.eqb text "") && negb (startswith " " text).

(** All the characters of [text] are spaces. *)
Fixpoint all_spaces (text : string) : bool :=
  match text with
  | "" => true
  | String c rest => isspace c && all_spaces rest
  end.
End LeadingCase.

(** Modelled from the spec: the record of an entity, which the output
    adapters define; it tags a part of the text with the name of the slot
    that produced it. *)
Record Entity : Type := { slot_name : string; entity_text : string }.

#[global] Instance Entity_eq_dec : EqDecision Entity.
Proof. solve_decision. Defined.

Record Example : Type := { text : string; entities : list Entity }.

(** [Example.__eq__] compares the attributes of the two objects. *)
#[global] Instance Example_eq_dec : EqDecision Example.
Proof. solve_decision. Defined.

(** [Example()]. *)
Definition Example_init : Example := {| text := ""; entities := [] |}.

(** The dict [generated_randgens]: from the name of a randgen to the
    decision taken for it. *)
Abbreviation Randgens := (gmap string bool).

Section RandomCase.
Context `{CharTable}.

Definition randomly_change_case (text : string) (g : Rng) : string * Rng :=
  let '(draw, g) := randint 0 99 g in
  if 50 <=? draw then (with_leading_lower text, g)
  else (with_leading_upper text, g).
End RandomCase.

(** *** class RuleContent *)

Module RuleContent.
Record t : Type := {
  name : string;
  variation_name : option string;
  arg_value : option string;
  leading_space : bool;
  casegen : bool;
  randgen : option string;
  percentgen : nat
}.

(** [__init__]; [percentage_gen] is already an integer or [None]. *)
Definition init (name : option string) (leading_space : bool)
    (variation_name arg_value : option string) (casegen : bool)
    (randgen : option string) (percentage_gen : option nat) : result t :=
  match name with
  | None | Some "" =>
      Raise (SyntaxError "Tried to create content without a contents (or a name)")
  | Some name =>
      Ok {| name := name; variation_name := variation_name;
            arg_value := arg_value; leading_space := leading_space;
            casegen := casegen; randgen := randgen;
            percentgen := default 50 percentage_gen |}
  end.

(** The methods that the kinds of content override.  [generate_random]
    receives the dict of the randgens decided so far and the random
    generator, and returns both as it leaves them. *)
Class Methods (N : Type) : Type := {
  can_have_casegen : N -> bool;
  generate_random : N -> Randgens -> Rng -> Example * Randgens * Rng;
  generate_all : N -> list Example;
  get_max_nb_generated_examples : N -> option nat
}.

(** The methods of the superclass itself. *)
#[global] Instance superclass : Methods t := {|
  can_have_casegen := fun self => false;
  generate_random := fun self generated_randgens g =>
    (Example_init, generated_randgens, g);
  generate_all := fun self => [Example_init];
  get_max_nb_generated_examples := fun self => None
|}.
End RuleContent.

(** *** class UnitDefinition *)

Module UnitDefinition.
Section Methods.
Context `{CharTable} `{Regex} {N : Type} `{RuleContent.Methods N}.

Record t : Type := {
  type : string;
  name : string;
  rules : list (list N);
  argument_identifier : option string;
  variations : gmap string (list (list N));
  casegen : bool
}.

(** [__init__]. *)
Definition init (name : string) (rules : option (list (list N)))
    (arg : option string) (casegen : bool) : t :=
  {| type := "unit"; name := name; rules := default [] rules;
     argument_identifier := arg; variations := ∅; casegen := casegen |}.

Definition can_have_casegen (self : t) : bool :=
  existsb (fun rule =>
             match rule with
             | [] => false
             | first :: _ => RuleContent.can_have_casegen first
             end) (rules self).

(** [add_rule] and [add_rules] change the unit before they raise: the
    unit they leave is returned beside the outcome. *)
Definition add_rule (rule : list N) (variation_name : option string)
    (self : t) : t * result unit :=
  let self :=
    {| type := type self; name := name self; rules := rules self ++ [rule];
       argument_identifier := argument_identifier self;
       variations := variations self; casegen := casegen self |} in
  match variation_name with
  | None => (self, Ok tt)
  | Some variation_name =>
      if String.eqb variation_name "" then
        (self, Raise (SyntaxError ("Defining a " +:+ type self +:+
                                    " with an empty nameis not allowed")))
      else
        let registered :=
          match variations self !! variation_name with
          | None => [rule]
          | Some registered => registered ++ [rule]
          end in
        ({| type := type self; name := name self; rules := rules self;
            argument_identifier := argument_identifier self;
            variations := <[variation_name := registered]> (variations self);
            casegen := casegen self |}, Ok tt)
  end.

Definition add_rules (new_rules : list (list N)) (variation_name : option string)
    (self : t) : t * result unit :=
  let self :=
    {| type := type self; name := name self; rules := rules self ++ new_rules;
       argument_identifier := argument_identifier self;
       variations := variations self; casegen := casegen self |} in
  match variation_name with
  | None => (self, Ok tt)
  | Some variation_name =>
      if String.eqb variation_name "" then
        (self, Raise (SyntaxError ("Defining a " +:+ type self +:+
                                    " with an empty nameis not allowed")))
      else
        let registered :=
          match variations self !! variation_name with
          | None => new_rules
          | Some registered => registered ++ new_rules
          end in
        ({| type := type self; name := name self; rules := rules self;
            argument_identifier := argument_identifier self;
            variations := <[variation_name := registered]> (variations self);
            casegen := casegen self |}, Ok tt)
  end.

(** The block [# Replace `arg` inside the generated sentence], on one
    text: it raises when the substitution of the runtime does. *)
Definition replace_arg (self : t) (arg_value : option string)
    (example_text : string) : result string :=
  match arg_value, argument_identifier self with
  | Some arg_value, Some arg =>
      example_text ← arg_regex_sub arg arg_value example_text;
      Ok (str_replace (ESCAPE_SYM +:+ "$") "$" example_text)
  | _, _ => Ok example_text
  end.

(** The block [# Replace `arg` inside generated sentences] of
    [generate_all]: [for (i, ex) in enumerate(generated_examples): ...].
    The block assigns to the [text] of the examples in place; the examples
    that the contents return are taken to be objects of their own, as
    those of the superclass are. *)
Fixpoint replace_arg_examples (self : t) (arg_value : option string)
    (generated_examples : list Example) : result (list Example) :=
  match generated_examples with
  | [] => Ok []
  | ex :: generated_examples' =>
      example_text ← replace_arg self arg_value (text ex);
      generated_examples' ← replace_arg_examples self arg_value generated_examples';
      Ok ({| text := example_text; entities := entities ex |} :: generated_examples')
  end.

(** [for token in chosen_rule: ...], from the text, the entities, the
    dict of randgens and the generator reached so far. *)
Fixpoint generate_random_tokens (chosen_rule : list N) (example_text : string)
    (example_entities : list Entity) (generated_examples : Randgens) (g : Rng)
    : string * list Entity * Randgens * Rng :=
  match chosen_rule with
  | [] => (example_text, example_entities, generated_examples, g)
  | token :: chosen_rule' =>
      let '(generated_token, generated_examples, g) :=
        RuleContent.generate_random token generated_examples g in
      generate_random_tokens chosen_rule'
        (example_text +:+ text generated_token)
        (example_entities ++ entities generated_token)
        generated_examples g
  end.

Definition generate_random (self : t) (variation_name arg_value : option string)
    (g : Rng) : result (Example * Rng) :=
  chosen ←
    match variation_name with
    | None => Ok (choose (rules self) g)
    | Some variation_name =>
        match variations self !! variation_name with
        | None =>
            Raise (SyntaxError ("Couldn't find a variation named '" +:+
                                variation_name +:+ "' for " +:+ type self +:+
                                " '" +:+ name self +:+ "'"))
        | Some registered => Ok (choose registered g)
        end
    end;
  let '(chosen_rule, g) := chosen in
  match chosen_rule with
  | None => Ok (Example_init, g)
  | Some chosen_rule =>
      let '(example_text, example_entities, _, g) :=
        generate_random_tokens chosen_rule "" [] ∅ g in
      let '(example_text, g) :=
        (* [self.can_have_casegen] is not called: the bound method is true *)
        if casegen self && true then randomly_change_case example_text g
        else (example_text, g) in
      example_text ← replace_arg self arg_value example_text;
      Ok ({| text := example_text; entities := example_entities |}, g)
  end.

(** [for sub_unit_rule in rule: ...], from the examples of the current
    rule reached so far. *)
Fixpoint generate_all_sub_units (rule : list N)
    (examples_from_current_rule : list Example) : list Example :=
  match rule with
  | [] => examples_from_current_rule
  | sub_unit_rule :: rule' =>
      let sub_unit_possibilities := RuleContent.generate_all sub_unit_rule in
      if length examples_from_current_rule <=? 0 then
        generate_all_sub_units rule' sub_unit_possibilities
      else
        let tmp_buffer :=
          ex ← examples_from_current_rule;
          possibility ← sub_unit_possibilities;
          [ {| text := text ex +:+ text possibility;
               entities := entities ex ++ entities possibility |} ] in
        generate_all_sub_units rule' tmp_buffer
  end.

(** [for rule in relevant_rules: ...], from the examples generated so
    far. *)
Fixpoint generate_all_rules (relevant_rules : list (list N))
    (generated_examples : list Example) : list Example :=
  match relevant_rules with
  | [] => generated_examples
  | rule :: relevant_rules' =>
      let examples_from_current_rule := generate_all_sub_units rule [] in
      generate_all_rules relevant_rules'
        (generated_examples ++ examples_from_current_rule)
  end.

(** The block [# Apply casegen]. *)
Definition apply_casegen (self : t) (generated_examples : list Example)
    : list Example :=
  if casegen self && can_have_casegen self then
    ex ← generated_examples;
    let lower_ex :=
      {| text := with_leading_lower (text ex); entities := entities ex |} in
    let upper_ex :=
      {| text := with_leading_upper (text ex); entities := entities ex |} in
    if bool_decide (lower_ex <> upper_ex) then [lower_ex; upper_ex] else [ex]
  else generated_examples.

(** The rules that the call is about: all the rules, or those of the
    variation. *)
Definition relevant_rules_of (self : t) (variation_name : option string)
    (msg : string -> string) : result (list (list N)) :=
  match variation_name with
  | None => Ok (rules self)
  | Some variation_name =>
      match variations self !! variation_name with
      | Some registered => Ok registered
      | None => Raise (SyntaxError (msg variation_name))
      end
  end.

Definition generate_all (self : t) (variation_name arg_value : option string)
    : result (list Example) :=
  relevant_rules ←
    relevant_rules_of self variation_name
      (fun variation_name =>
         "Couldn't find variation '" +:+ variation_name +:+ "' for " +:+
         type self +:+ " '" +:+ name self +:+ "'");
  (match relevant_rules, variation_name with
   | [], None =>
       Raise (SyntaxError ("No rules could be found for " +:+ type self +:+
                           " '" +:+ name self +:+ "'"))
   | [], Some variation_name =>
       Raise (SyntaxError ("No rules could be found for " +:+ type self +:+
                           " '" +:+ name self +:+ "' (variation: '" +:+
                           variation_name +:+ "'"))
   | _ :: _, _ => Ok tt
   end);;
  let generated_examples := generate_all_rules relevant_rules [] in
  generated_examples ← replace_arg_examples self arg_value generated_examples;
  Ok (apply_casegen self generated_examples).

(** [for sub_unit_rule in rule: ...] of the count. *)
Fixpoint count_sub_units (rule : list N) (rule_nb_ex : nat) : nat :=
  match rule with
  | [] => rule_nb_ex
  | sub_unit_rule :: rule' =>
      match RuleContent.get_max_nb_generated_examples sub_unit_rule with
      | None => count_sub_units rule' rule_nb_ex
      | Some current_nb_ex =>
          if rule_nb_ex =? 0 then count_sub_units rule' current_nb_ex
          else count_sub_units rule' (rule_nb_ex * current_nb_ex)
      end
  end.

Fixpoint count_rules (relevant_rules : list (list N)) (nb_possible_ex : nat)
    : nat :=
  match relevant_rules with
  | [] => nb_possible_ex
  | rule :: relevant_rules' =>
      count_rules relevant_rules' (nb_possible_ex + count_sub_units rule 0)
  end.

Definition get_max_nb_generated_examples (self : t)
    (variation_name : option string) : result nat :=
  relevant_rules ←
    relevant_rules_of self variation_name
      (fun variation_name =>
         "Couldn't find variation '" +:+ variation_name +:+ "' for " +:+
         type self +:+ " '" +:+ name self +:+ "'");
  let nb_possible_ex := count_rules relevant_rules 0 in
  let nb_possible_ex :=
    if casegen self then nb_possible_ex * 2 else nb_possible_ex in
  Ok nb_possible_ex.
End Methods.
Arguments t N : clear implicits.
End UnitDefinition.

(** *** Literal words *)

(** Modelled from the spec: the word group, a kind of content whose class is
    not in this module: literal words with shared modifiers.  Its words are
    its name; of its modifiers the leading space and the randgen with its
    percentgen are modelled.  With a randgen name the content is first
    checked against the dict: a name that is decided is honoured; otherwise
    the content rolls against its percentgen and records the decision under
    its name before it proceeds. *)
Module WordGroup.
Record t : Type := { content : RuleContent.t }.

(** The example of the words themselves. *)
Definition generated (self : t) : Example :=
  let words := RuleContent.name (content self) in
  {| text := if RuleContent.leading_space (content self)
             then " " +:+ words else words;
     entities := [] |}.

(** The decision to generate, with the dict and the generator after it. *)
Definition decide_randgen (self : t) (generated_randgens : Randgens) (g : Rng)
    : bool * Randgens * Rng :=
  match RuleContent.randgen (content self) with
  | None => (true, generated_randgens, g)
  | Some randgen =>
      match generated_randgens !! randgen with
      | Some decision => (decision, generated_randgens, g)
      | None =>
          let '(draw, g) := randint 0 99 g in
          let decision := draw <? RuleContent.percentgen (content self) in
          (decision, <[randgen := decision]> generated_randgens, g)
      end
  end.

Definition generate_random (self : t) (generated_randgens : Randgens) (g : Rng)
    : Example * Randgens * Rng :=
  let '(decision, generated_randgens, g) :=
    decide_randgen self generated_randgens g in
  (if decision then generated self else Example_init, generated_randgens, g).

Definition generate_all (self : t) : list Example :=
  match RuleContent.randgen (content self) with
  | None => [generated self]
  | Some _ => [Example_init; generated self]
  end.

#[global] Instance methods `{CharTable} : RuleContent.Methods t := {|
  RuleContent.can_have_casegen := fun self =>
    may_change_leading_case (RuleContent.name (content self));
  RuleContent.generate_random := generate_random;
  RuleContent.generate_all := generate_all;
  RuleContent.get_max_nb_generated_examples := fun self =>
    Some (length (generate_all self))
|}.

(** The word [word] without any modifier. *)
Definition word (word : string) : t :=
  {| content :=
       {| RuleContent.name := word; RuleContent.variation_name := None;
          RuleContent.arg_value := None; RuleContent.leading_space := false;
          RuleContent.casegen := false; RuleContent.randgen := None;
          RuleContent.percentgen := 50 |} |}.



End WordGroup.

(** *** The character tables on ASCII *)

Definition ascii_isspace (c : ascii) : bool :=
  let n := nat_of_ascii c in
  ((9 <=? n) && (n <=? 13)) || ((28 <=? n) && (n <=? 32)).

Definition ascii_isupper (c : ascii) : bool :=
  let n := nat_of_ascii c in (65 <=? n) && (n <=? 90).

Definition ascii_islower (c : ascii) : bool :=
  let n := nat_of_ascii c in (97 <=? n) && (n <=? 122).

(** The tables of Python restricted to ASCII: the other characters are
    neither spaces nor letters and have no other case. *)
Definition ascii_table : CharTable := {|
  isspace := ascii_isspace;
  isalpha := fun c => ascii_isupper c || ascii_islower c;
  upper := fun c =>
    String (if ascii_islower c then ascii_of_nat (nat_of_ascii c - 32) else c) "";
  lower := fun c =>
    String (if ascii_isupper c then ascii_of_nat (nat_of_ascii c + 32) else c) ""
|}.

(** *** The runtime on more values *)

(** What a backslash and the character [c] stand for in a replacement
    template, as CPython (3.7 and later) reads it for a pattern without
    group: a character for [\n], [\t] and the like and for two
    backslashes; the two characters themselves when [c] is neither a
    letter nor a digit; [re.error] for any other letter but [g] and for
    the reference to a group that a digit from 1 to 9 makes.  [\g], [\0]
    and a digit followed by a digit (an octal number or a longer
    reference) are not modelled: [None]. *)
Definition template_escape (c : ascii) (next_is_digit : bool)
    : option (result string) :=
  let n := nat_of_ascii c in
  if (n =? 97) then Some (Ok (String "007" ""))
  else if (n =? 98) then Some (Ok (String "008" ""))
  else if (n =? 102) then Some (Ok (String "012" ""))
  else if (n =? 110) then Some (Ok (String "010" ""))
  else if (n =? 114) then Some (Ok (String "013" ""))
  else if (n =? 116) then Some (Ok (String "009" ""))
  else if (n =? 118) then Some (Ok (String "011" ""))
  else if (n =? 92) then Some (Ok ESCAPE_SYM)
  else if (n =? 103) || (n =? 48) then None
  else if (49 <=? n) && (n <=? 57) then
    if next_is_digit then None else Some (Raise ReError)
  else if ascii_isupper c || ascii_islower c then Some (Raise ReError)
  else Some (Ok (ESCAPE_SYM +:+ String c "")).

Definition ascii_isdigit (c : ascii) : bool :=
  let n := nat_of_ascii c in (48 <=? n) && (n <=? 57).

(** The literal that a replacement template stands for; [escaped] tells
    whether the character before is a backslash that is still to be
    read.  The template is read from left to right, and a backslash at its
    end is refused. *)
Fixpoint expand_template (template : string) (escaped : bool)
    : option (result string) :=
  match template with
  | "" => if escaped then Some (Raise ReError) else Some (Ok "")
  | String c rest =>
      if escaped then
        let next_is_digit :=
          match rest with
          | "" => false
          | String d _ => ascii_isdigit d
          end in
        match template_escape c next_is_digit with
        | Some (Ok expansion) =>
            match expand_template rest false with
            | Some (Ok literal) => Some (Ok (expansion +:+ literal))
            | other => other
            end
        | other => other
        end
      else if char_is c ESCAPE_SYM then expand_template rest true
      else
        match expand_template rest false with
        | Some (Ok literal) => Some (Ok (String c literal))
        | other => other
        end
  end.

(** The runtime of the examples: CPython (3.7 and later) on the
    identifiers that are read literally and on the values whose escapes
    are modelled.  The call compiles the template, then replaces every
    match by the literal that the template stands for.  The examples stay
    within this fragment; outside of it the instance refuses the call. *)
Definition cpython_re : Regex := {|
  re_sub := fun arg arg_value text =>
    if regex_literal arg then
      match expand_template arg_value false with
      | Some (Ok literal) =>
          Ok (replace_scan true ("$" +:+ arg) literal text 0 false)
      | Some (Raise e) => Raise e
      | None => Raise ReError
      end
    else Raise ReError
|}.

(** *** The documentation of the generation, as definitions *)

Section Documentation.
Context `{CharTable} {N : Type} `{RuleContent.Methods N}.

(** The rule set that a call selects: the rules of the unit, or those
    registered under the variation name. *)
Definition selected_rules (self : UnitDefinition.t N)
    (variation_name : option string) : option (list (list N)) :=
  match variation_name with
  | None => Some (UnitDefinition.rules self)
  | Some variation_name => UnitDefinition.variations self !! variation_name
  end.

(** Two examples one after the other: the texts and the entity lists are
    concatenated. *)
Definition Example_concat (ex possibility : Example) : Example :=
  {| text := text ex +:+ text possibility;
     entities := entities ex ++ entities possibility |}.

(** The cartesian product of the outputs of the contents of a rule, in the
    order of the contents. *)
Fixpoint cartesian_product (possibilities : list (list Example)) : list Example :=
  match possibilities with
  | [] => [Example_init]
  | first :: others =>
      ex ← first; rest ← cartesian_product others; [Example_concat ex rest]
  end.

(** The examples of one rule; a rule without content has none. *)
Definition rule_product (rule : list N) : list Example :=
  match rule with
  | [] => []
  | _ :: _ => cartesian_product (RuleContent.generate_all <$> rule)
  end.

(** Every content of the rules has at least one exhaustive output. *)
Definition productive (relevant_rules : list (list N)) : Prop :=
  forall rule sub_unit_rule,
    rule ∈ relevant_rules -> sub_unit_rule ∈ rule ->
    RuleContent.generate_all sub_unit_rule <> [].




(** The substitution is one that the runtime reads literally: when the
    unit declares an identifier and a value is given, the identifier holds
    no operator of regular expressions and the value no backslash. *)
Definition literal_substitution (self : UnitDefinition.t N)
    (arg_value : option string) : Prop :=
  forall arg value,
    UnitDefinition.argument_identifier self = Some arg ->
    arg_value = Some value ->
    regex_literal arg = true /\ template_literal value = true.

(** What the block [# Replace `arg`] makes of a text under a literal
    substitution: the scan for the references, then the scan for the
    escaped markers. *)
Definition replace_literal (self : UnitDefinition.t N)
    (arg_value : option string) (example_text : string) : string :=
  match arg_value, UnitDefinition.argument_identifier self with
  | Some arg_value, Some arg =>
      str_replace (ESCAPE_SYM +:+ "$") "$"
        (replace_scan true ("$" +:+ arg) arg_value example_text 0 false)
  | _, _ => example_text
  end.

(** The invariant of the names of a unit, without and with the reserved
    variation names. *)
Definition named (self : UnitDefinition.t N) : Prop :=
  UnitDefinition.name self <> "" /\
  forall variation_name,
    is_Some (UnitDefinition.variations self !! variation_name) ->
    variation_name <> "".

Definition named_unreserved (self : UnitDefinition.t N) : Prop :=
  UnitDefinition.name self <> "" /\
  forall variation_name,
    is_Some (UnitDefinition.variations self !! variation_name) ->
    variation_name <> "" /\ variation_name ∉ RESERVED_VARIATION_NAMES.
End Documentation.

(** The substitution as the documentation gives it, read along the text
    from left to right for the identifier [arg] and the value [arg_value]:
    an escaped marker becomes a marker, whatever follows it; a marker
    followed by the identifier, with no backslash before it, becomes the
    value; any other character stays. *)
Inductive substituted (arg arg_value : string) : string -> string -> Prop :=
  | substituted_end : substituted arg arg_value "" ""
  | substituted_escaped (rest result : string) :
      substituted arg arg_value rest result ->
      substituted arg arg_value (ESCAPE_SYM +:+ "$" +:+ rest) ("$" +:+ result)
  | substituted_reference (rest result : string) :
      substituted arg arg_value rest result ->
      substituted arg arg_value ("$" +:+ arg +:+ rest) (arg_value +:+ result)
  | substituted_other (c : ascii) (rest result : string) :
      startswith (ESCAPE_SYM +:+ "$") (String c rest) = false ->
      startswith ("$" +:+ arg) (String c rest) = false ->
      substituted arg arg_value rest result ->
      substituted arg arg_value (String c rest) (String c result).

(** ** More of [chatette.parsing.parser_utils] *)

Definition COMMENT_SYM_DEPRECATED : string := ";".
Definition COMMENT_MARKER : string := "//".

Definition CHOICE_OPEN_SYM : string := "{".
Definition CHOICE_CLOSE_SYM : string := "}".
Definition CHOICE_SEP : string := "/".

Definition ALT_SLOT_VALUE_NAME_SYM : string := "=".
Definition INCLUDE_FILE_SYM : string := "|".

Inductive UnitType : Type := alias | slot | intent.

Module SubRuleType.
Inductive t : Type := word | word_group | alias | slot | intent | choice.
End SubRuleType.

Module LineType.
Inductive t : Type :=
  | empty | comment | alias_declaration | slot_declaration
  | intent_declaration | include_file.
End LineType.

(** *** strip_comments *)

(** [pattern.search(text)] for the pattern [(?<!\\)] followed by the literal
    [marker]: the start of the first occurrence of [marker] that no
    backslash precedes.  The scan is at index [i], and [escaped] tells
    whether the character before is a backslash. *)
Fixpoint search_unescaped (marker text : string) (i : nat) (escaped : bool)
    : option nat :=
  match text with
  | "" => None
  | String c rest =>
      if negb escaped && startswith marker text then Some i
      else search_unescaped marker rest (i + 1) (char_is c ESCAPE_SYM)
  end.

Section Comments.
Context `{CharTable}.

(** [text.rstrip()]. *)
Fixpoint rstrip (text : string) : string :=
  match text with
  | "" => ""
  | String c rest =>
      match rstrip rest with
      | "" => if isspace c then "" else String c ""
      | String d kept => String c (String d kept)
      end
  end.

(** The call of [deprecations.warn_semicolon_comments] is not modelled. *)
Definition strip_comments (text : option string) : option string :=
  match text with
  | None => None
  | Some "" => Some ""
  | Some text =>
      let match_ := search_unescaped COMMENT_MARKER text 0 false in
      let match_deprecated := search_unescaped COMMENT_SYM_DEPRECATED text 0 false in
      match match_, match_deprecated with
      | None, None => Some (rstrip text)
      | Some start, None => Some (rstrip (str_take start text))
      | None, Some start_deprecated => Some (rstrip (str_take start_deprecated text))
      | Some start, Some start_deprecated =>
          if start <=? start_deprecated then Some (rstrip (str_take start text))
          else Some (rstrip (str_take start_deprecated text))
      end
  end.

(** [text.isspace()]: there is a character and all are spaces. *)
Definition str_isspace (text : string) : bool :=
  negb (String.eqb text "") && all_spaces text.
End Comments.

(** *** Symbols *)

Definition is_unit_type_sym (text : string) : bool :=
  String.eqb text ALIAS_SYM || String.eqb text SLOT_SYM || String.eqb text INTENT_SYM.

Definition get_unit_type_from_sym (sym : string) : option UnitType :=
  if String.eqb sym ALIAS_SYM then Some alias
  else if String.eqb sym SLOT_SYM then Some slot
  else if String.eqb sym INTENT_SYM then Some intent
  else None.

Definition is_start_unit_sym (char : string) : bool :=
  String.eqb char UNIT_OPEN_SYM || String.eqb char ALIAS_SYM ||
  String.eqb char SLOT_SYM || String.eqb char INTENT_SYM.

(** [text[0]] as a one-character string, for a text that is not empty. *)
Definition first_char (text : string) : string :=
  match text with
  | "" => ""
  | String c _ => String c ""
  end.

Definition is_unit_start (text : string) : bool :=
  (0 <? String.length text) && is_start_unit_sym (first_char text).

Definition is_choice (text : string) : bool :=
  (0 <? String.length text) && startswith CHOICE_OPEN_SYM text.

Section Words.
Context `{CharTable}.

Definition is_word (text : string) : bool :=
  negb ((String.length text <=? 0) || str_isspace text ||
        startswith CHOICE_OPEN_SYM text || is_unit_start text).
End Words.

(** The [RuntimeError] of [get_unit_type], with its message. *)
Inductive RuntimeError : Type := RuntimeError_of (msg : string).

(** [get_unit_type] returns [inr] of the type, or raises: [inl] of the
    error. *)
Definition get_unit_type (unit_text : string) : RuntimeError + SubRuleType.t :=
  if startswith UNIT_OPEN_SYM unit_text then inr SubRuleType.word_group
  else if startswith ALIAS_SYM unit_text then inr SubRuleType.alias
  else if startswith SLOT_SYM unit_text then inr SubRuleType.slot
  else if startswith INTENT_SYM unit_text then inr SubRuleType.intent
  else if startswith CHOICE_OPEN_SYM unit_text then inr SubRuleType.choice
  else inl (RuntimeError_of
              ("Internal error: tried to get the unit type of " +:+
               "something that was not a unit: '" +:+ unit_text +:+ "'")).

(** The call of [deprecations.warn_semicolon_comments] is not modelled. *)
Definition get_top_level_line_type (line stripped_line : string)
    : option LineType.t :=
  if String.eqb stripped_line "" then Some LineType.empty
  else if startswith COMMENT_MARKER stripped_line then Some LineType.comment
  else if startswith COMMENT_SYM_DEPRECATED stripped_line then Some LineType.comment
  else if startswith ALIAS_SYM line then Some LineType.alias_declaration
  else if startswith SLOT_SYM line then Some LineType.slot_declaration
  else if startswith INTENT_SYM line then Some LineType.intent_declaration
  else if startswith INCLUDE_FILE_SYM line then Some LineType.include_file
  else None.

(** *** find_name and find_words *)

Definition find_name (tokens_inside_unit : list string) : result string :=
  first ← list_get tokens_inside_unit 0;
  if String.eqb first CASE_GEN_SYM then list_get tokens_inside_unit 1
  else list_get tokens_inside_unit 0.

(** [for token in tokens_inside_word_group: ...], from the words found so
    far. *)
Fixpoint find_words_loop (tokens_inside_word_group words : list string)
    : list string :=
  match tokens_inside_word_group with
  | [] => words
  | token :: rest =>
      if String.eqb token CASE_GEN_SYM then find_words_loop rest words
      else if String.eqb token RAND_GEN_SYM || String.eqb token VARIATION_SYM
              || String.eqb token ARG_SYM then words
      else find_words_loop rest (words ++ [token])
  end.

Definition find_words (tokens_inside_word_group : list string) : list string :=
  find_words_loop tokens_inside_word_group [].

(** *** find_modifiers_decl and find_modifiers_choice *)

(** Modelled from the spec: the modifier records of
    [chatette.modifiers.representation], which is not in this module: value
    objects with optional fields, [casegen] unset and the names absent at
    construction. *)
Record UnitDeclarationModifiersRepr : Type := {
  decl_casegen : bool;
  decl_variation_name : option string;
  decl_argument_name : option string
}.

Record ChoiceModifiersRepr : Type := {
  choice_casegen : bool;
  choice_randgen : bool
}.

(** [while i < len(tokens_inside_decl): ...], run on
    [remaining = tokens_inside_decl[i:]]. *)
Fixpoint find_modifiers_decl_loop (remaining : list string)
    (modifiers : UnitDeclarationModifiersRepr)
    (expecting_variation expecting_argument : bool) : UnitDeclarationModifiersRepr :=
  match remaining with
  | [] => modifiers
  | token :: remaining' =>
      if String.eqb token VARIATION_SYM then
        find_modifiers_decl_loop remaining' modifiers true expecting_argument
      else if String.eqb token ARG_SYM then
        find_modifiers_decl_loop remaining'
          {| decl_casegen := decl_casegen modifiers;
             decl_variation_name := decl_variation_name modifiers;
             decl_argument_name := Some "" |}
          expecting_variation true
      else if expecting_variation then
        find_modifiers_decl_loop remaining'
          {| decl_casegen := decl_casegen modifiers;
             decl_variation_name := Some token;
             decl_argument_name := decl_argument_name modifiers |}
          false expecting_argument
      else if expecting_argument then
        find_modifiers_decl_loop remaining'
          {| decl_casegen := decl_casegen modifiers;
             decl_variation_name := decl_variation_name modifiers;
             decl_argument_name := Some token |}
          expecting_variation false
      else find_modifiers_decl_loop remaining' modifiers
             expecting_variation expecting_argument
  end.

Definition find_modifiers_decl (tokens_inside_decl : list string)
    : result UnitDeclarationModifiersRepr :=
  let modifiers :=
    {| decl_casegen := false; decl_variation_name := None;
       decl_argument_name := None |} in
  let i := 0 in
  first ← list_get tokens_inside_decl 0;
  let '(modifiers, i) :=
    if String.eqb first CASE_GEN_SYM then
      ({| decl_casegen := true;
          decl_variation_name := decl_variation_name modifiers;
          decl_argument_name := decl_argument_name modifiers |}, i + 1)
    else (modifiers, i) in
  Ok (find_modifiers_decl_loop (drop i tokens_inside_decl) modifiers false false).

(** [while i < len(tokens_inside_choice): ...], run on
    [remaining = tokens_inside_choice[i:]]. *)
Fixpoint find_modifiers_choice_loop (remaining : list string)
    (modifiers : ChoiceModifiersRepr) : ChoiceModifiersRepr :=
  match remaining with
  | [] => modifiers
  | token :: remaining' =>
      if String.eqb token RAND_GEN_SYM then
        find_modifiers_choice_loop remaining'
          {| choice_casegen := choice_casegen modifiers; choice_randgen := true |}
      else find_modifiers_choice_loop remaining' modifiers
  end.

Definition find_modifiers_choice (tokens_inside_choice : list string)
    : result ChoiceModifiersRepr :=
  let modifiers := {| choice_casegen := false; choice_randgen := false |} in
  let i := 0 in
  first ← list_get tokens_inside_choice 0;
  let '(modifiers, i) :=
    if String.eqb first CASE_GEN_SYM then
      ({| choice_casegen := true; choice_randgen := choice_randgen modifiers |}, i + 1)
    else (modifiers, i) in
  Ok (find_modifiers_choice_loop (drop i tokens_inside_choice) modifiers).

(** *** find_alt_slot_and_index *)

Definition find_alt_slot_and_index (slot_rule_tokens : list string)
    : result (option (nat * string)) :=
  match list_index ALT_SLOT_VALUE_NAME_SYM slot_rule_tokens with
  | Raise _ => Ok None
  | Ok index =>
      alt_slot_val ← list_get slot_rule_tokens (index + 1);
      if String.eqb alt_slot_val " " then
        match list_get slot_rule_tokens (index + 2) with
        | Ok alt_slot_val => Ok (Some (index, alt_slot_val))
        | Raise _ => Ok (Some (index, ""))
        end
      else Ok (Some (index, alt_slot_val))
  end.

(** *** next_choice_tokens and next_sub_rule_tokens *)

(** The generators are given by the list of what they yield.
    [for token in choice_interior_tokens: ...], from the current choice. *)
Fixpoint next_choice_tokens_loop (choice_interior_tokens current_choice : list string)
    : list (list string) :=
  match choice_interior_tokens with
  | [] => [current_choice]
  | token :: rest =>
      if String.eqb token CASE_GEN_SYM then next_choice_tokens_loop rest current_choice
      else if String.eqb token RAND_GEN_SYM then [current_choice]
      else if String.eqb token CHOICE_SEP then
        current_choice :: next_choice_tokens_loop rest []
      else next_choice_tokens_loop rest (current_choice ++ [token])
  end.

Definition next_choice_tokens (choice_interior_tokens : list string)
    : list (list string) :=
  next_choice_tokens_loop choice_interior_tokens [].

(** [for token in tokens: ...], from the sub-rule being read, the token
    that ends it and the flag [reading_sub_rule]. *)
Fixpoint next_sub_rule_tokens_loop (tokens current_sub_rule : list string)
    (stop_with_char : option string) (reading_sub_rule : bool)
    : list (list string) :=
  match tokens with
  | [] => []
  | token :: rest =>
      if reading_sub_rule then
        if bool_decide (Some token = stop_with_char) then
          (current_sub_rule ++ [token]) :: next_sub_rule_tokens_loop rest [] None false
        else
          next_sub_rule_tokens_loop rest (current_sub_rule ++ [token])
            stop_with_char reading_sub_rule
      else if is_start_unit_sym token then
        next_sub_rule_tokens_loop rest (current_sub_rule ++ [token])
          (Some UNIT_CLOSE_SYM) true
      else if String.eqb token UNIT_OPEN_SYM then
        next_sub_rule_tokens_loop rest (current_sub_rule ++ [token])
          (Some UNIT_CLOSE_SYM) true
      else if String.eqb token CHOICE_OPEN_SYM then
        next_sub_rule_tokens_loop rest (current_sub_rule ++ [token])
          (Some CHOICE_CLOSE_SYM) true
      else [token] :: next_sub_rule_tokens_loop rest current_sub_rule
                        stop_with_char reading_sub_rule
  end.

Definition next_sub_rule_tokens (tokens : list string) : list (list string) :=
  next_sub_rule_tokens_loop tokens [] None false.

(** The sub-rule that is being read when the tokens end, and that the
    generator never yields. *)
Fixpoint unfinished_sub_rule (tokens current_sub_rule : list string)
    (stop_with_char : option string) (reading_sub_rule : bool) : list string :=
  match tokens with
  | [] => current_sub_rule
  | token :: rest =>
      if reading_sub_rule then
        if bool_decide (Some token = stop_with_char) then
          unfinished_sub_rule rest [] None false
        else
          unfinished_sub_rule rest (current_sub_rule ++ [token])
            stop_with_char reading_sub_rule
      else if is_start_unit_sym token then
        unfinished_sub_rule rest (current_sub_rule ++ [token])
          (Some UNIT_CLOSE_SYM) true
      else if String.eqb token UNIT_OPEN_SYM then
        unfinished_sub_rule rest (current_sub_rule ++ [token])
          (Some UNIT_CLOSE_SYM) true
      else if String.eqb token CHOICE_OPEN_SYM then
        unfinished_sub_rule rest (current_sub_rule ++ [token])
          (Some CHOICE_CLOSE_SYM) true
      else unfinished_sub_rule rest current_sub_rule stop_with_char reading_sub_rule
  end.

(** *** The classifiers of sub-rules *)

Definition is_sub_rule_word (sub_rule_tokens : list string) : bool :=
  length sub_rule_tokens =? 1.

Definition is_sub_rule_word_group (sub_rule_tokens : list string) : result bool :=
  first ← list_get sub_rule_tokens 0; Ok (String.eqb first UNIT_OPEN_SYM).

Definition is_sub_rule_choice (sub_rule_tokens : list string) : result bool :=
  first ← list_get sub_rule_tokens 0; Ok (String.eqb first CHOICE_OPEN_SYM).

Definition is_sub_rule_alias_ref (sub_rule_tokens : list string) : result bool :=
  first ← list_get sub_rule_tokens 0; Ok (String.eqb first ALIAS_SYM).

Definition is_sub_rule_slot_ref (sub_rule_tokens : list string) : result bool :=
  first ← list_get sub_rule_tokens 0; Ok (String.eqb first SLOT_SYM).

Definition is_sub_rule_intent_ref (sub_rule_tokens : list string) : result bool :=
  first ← list_get sub_rule_tokens 0; Ok (String.eqb first INTENT_SYM).

(** The tokens of choices put back one after the other with the separator
    between them. *)
Fixpoint join_choices (choices : list (list string)) : list string :=
  match choices with
  | [] => []
  | [choice] => choice
  | choice :: choices' => choice ++ CHOICE_SEP :: join_choices choices'
  end.

(** The tokens before the first random-generation marker. *)
Fixpoint before_randgen (tokens : list string) : list string :=
  match tokens with
  | [] => []
  | token :: rest =>
      if String.eqb token RAND_GEN_SYM then [] else token :: before_randgen rest
  end.

(** The token that closes the sub-rule that [token] opens, if it opens
    one. *)
Definition closing_of (token : string) : option string :=
  if is_start_unit_sym token then Some UNIT_CLOSE_SYM
  else if String.eqb token CHOICE_OPEN_SYM then Some CHOICE_CLOSE_SYM
  else None.

(** A sub-rule as the segmenter means it: one plain token, or the tokens
    from an opening token to the first token that closes it. *)
Definition sub_rule_shaped (sub_rule_tokens : list string) : Prop :=
  match sub_rule_tokens with
  | [] => False
  | first :: others =>
      match closing_of first with
      | None => others = []
      | Some close_sym =>
          exists body, others = body ++ [close_sym] /\ close_sym ∉ body
      end
  end.

(** The classifiers that accept a sub-rule. *)
Definition accepts (answer : result bool) : bool :=
  match answer with
  | Ok true => true
  | _ => false
  end.

Definition sub_rule_kinds (sub_rule_tokens : list string) : list SubRuleType.t :=
  (if is_sub_rule_word sub_rule_tokens then [SubRuleType.word] else []) ++
  (if accepts (is_sub_rule_word_group sub_rule_tokens)
   then [SubRuleType.word_group] else []) ++
  (if accepts (is_sub_rule_choice sub_rule_tokens) then [SubRuleType.choice] else []) ++
  (if accepts (is_sub_rule_alias_ref sub_rule_tokens) then [SubRuleType.alias] else []) ++
  (if accepts (is_sub_rule_slot_ref sub_rule_tokens) then [SubRuleType.slot] else []) ++
  (if accepts (is_sub_rule_intent_ref sub_rule_tokens) then [SubRuleType.intent] else []).

(** The states that the loop of [next_sub_rule_tokens] goes through: no
    sub-rule is being read and the current sub-rule is empty, or the
    current sub-rule goes from an opening token on and waits for the token
    that closes it. *)
Definition segmenter_state (current_sub_rule : list string)
    (stop_with_char : option string) (reading_sub_rule : bool) : Prop :=
  if reading_sub_rule then
    exists first close_sym body,
      current_sub_rule = first :: body /\ stop_with_char = Some close_sym /\
      closing_of first = Some close_sym /\ close_sym ∉ body
  else current_sub_rule = [].

(** The tokens before the first modifier marker of a word group. *)
Fixpoint before_modifier (tokens : list string) : list string :=
  match tokens with
  | [] => []
  | token :: rest =>
      if String.eqb token RAND_GEN_SYM || String.eqb token VARIATION_SYM
         || String.eqb token ARG_SYM then []
      else token :: before_modifier rest
  end.

(** A token that is not the casegen marker. *)
Definition not_casegen (token : string) : bool :=
  negb (String.eqb token CASE_GEN_SYM).

(** A token that is neither the variation nor the argument marker. *)
Definition is_value (token : string) : bool :=
  negb (String.eqb token VARIATION_SYM) && negb (String.eqb token ARG_SYM).

(** Every variation or argument marker of the tokens is followed by a token
    that is neither: the markers are named. *)
Fixpoint markers_named (tokens : list string) : bool :=
  match tokens with
  | [] => true
  | token :: rest =>
      (is_value token ||
       match rest with
       | [] => false
       | next :: _ => is_value next
       end) && markers_named rest
  end.

(** [text] starts with [start]. *)
Definition str_prefix (start text : string) : Prop :=
  exists rest, text = start +:+ rest.

(** What the loop of [find_modifiers_decl] leaves in the record, when it
    starts expecting nothing on tokens whose markers are named and occur
    once at most. *)
Definition decl_modifiers_read (remaining : list string)
    (before after : UnitDeclarationModifiersRepr) : Prop :=
  decl_casegen after = decl_casegen before /\
  (forall i, remaining !! i = Some VARIATION_SYM ->
     decl_variation_name after = remaining !! S i) /\
  (VARIATION_SYM ∉ remaining ->
     decl_variation_name after = decl_variation_name before) /\
  (forall i, remaining !! i = Some ARG_SYM ->
     decl_argument_name after = remaining !! S i) /\
  (ARG_SYM ∉ remaining ->
     decl_argument_name after = decl_argument_name before).

(** *** More documentation of the generation *)

Section MoreDocumentation.
Context `{CharTable} {N : Type} `{RuleContent.Methods N}.

(** Whatever a content generates at random is one of its exhaustive
    outputs. *)
Definition random_in_all : Prop :=
  forall (sub_unit_rule : N) (generated_randgens : Randgens) (g : Rng),
    (RuleContent.generate_random sub_unit_rule generated_randgens g).1.1
    ∈ RuleContent.generate_all sub_unit_rule.

(** The rules registered under a variation are rules of the unit, in the
    order of the unit. *)
Definition registered_in_rules (self : UnitDefinition.t N) : Prop :=
  forall variation_name registered,
    UnitDefinition.variations self !! variation_name = Some registered ->
    registered `sublist_of` UnitDefinition.rules self.

(** The case mappings leave the characters that are not letters alone. *)
Definition case_stable : Prop :=
  forall c : ascii,
    isalpha c = false -> upper c = String c "" /\ lower c = String c "".
End MoreDocumentation.

(** *** Units used as examples *)

Definition word_example (word : string) : Example :=
  {| text := word; entities := [] |}.

(** The unit [greet] with the two rules [x] and [y]. *)
Definition greet : UnitDefinition.t WordGroup.t :=
  UnitDefinition.init "greet"
    (Some [[WordGroup.word "x"]; [WordGroup.word "y"]]) None false.

(** The unit [&digit] with the rule [3], and the unit [&letter] with the
    rule [x]: both with casegen. *)
Definition digit : UnitDefinition.t WordGroup.t :=
  UnitDefinition.init "digit" (Some [[WordGroup.word "3"]]) None true.


(** The unit [hello$x] with the rule [hello $x]. *)
Definition hello : UnitDefinition.t WordGroup.t :=
  UnitDefinition.init "hello" (Some [[WordGroup.word "hello $x"]]) (Some "x") false.



(** The unit [greet] after the rule [z] has joined it under the variation
    [polite]. *)
Definition polite_greet `{CharTable} : UnitDefinition.t WordGroup.t :=
  (UnitDefinition.add_rule [WordGroup.word "z"] (Some "polite") greet).1.

(** A unit that was given no rule. *)
Definition silent : UnitDefinition.t WordGroup.t :=
  UnitDefinition.init "silent" None None false.

(** The interior of the declaration [~[&greet#polite$name]]. *)
Definition greet_declaration : list string :=
  ["&"; "greet"; "#"; "polite"; "$"; "name"].

(** * Properties *)

(** ** Strings *)

Lemma append_nil_r (s : string) : s +:+ "" = s.
Proof. induction s as [|c s IH]; simpl; [done | by rewrite IH]. Qed.

Lemma append_assoc (s1 s2 s3 : string) : (s1 +:+ s2) +:+ s3 = s1 +:+ s2 +:+ s3.
Proof. induction s1 as [|c s1 IH]; simpl; [done | by rewrite IH]. Qed.

Lemma char_is_true (c : ascii) (sym : string) :
  char_is c sym = true <-> sym = String c "".
Proof. unfold char_is. rewrite String.eqb_eq. split; congruence. Qed.

(** ** remove_escapement *)

Lemma remove_escapement_loop_result (text result : string) (escaped : bool) :
  remove_escapement_loop text result escaped =
    result +:+ remove_escapement_loop text "" escaped.
Proof.
  revert result escaped.
  induction text as [|c rest IH]; intros result escaped; simpl.
  - by rewrite append_nil_r.
  - destruct escaped, (char_is c ARG_SYM), (char_is c ESCAPE_SYM); simpl;
      rewrite ?(IH (result +:+ _)), ?(IH (String _ _)), ?(IH result);
      by rewrite ?append_assoc.
Qed.

Lemma remove_escapement_loop_removed (text : string) :
  remove_escapement_loop text "" false = escapement_removed text /\
  remove_escapement_loop text "" true =
    match text with
    | "" => ""
    | String d rest =>
        if char_is d ARG_SYM then ESCAPE_SYM +:+ ARG_SYM +:+ escapement_removed rest
        else String d (escapement_removed rest)
    end.
Proof.
  induction text as [|c rest [IHplain IHescaped]]; [done|].
  split; simpl.
  - destruct (char_is c ESCAPE_SYM).
    + apply IHescaped.
    + by rewrite remove_escapement_loop_result, IHplain.
  - destruct (char_is c ARG_SYM);
      by rewrite remove_escapement_loop_result, IHplain.
Qed.

Lemma escapement_removed_no_escape (text : string) :
  str_contains_char ESCAPE_SYM text = false -> escapement_removed text = text.
Proof.
  induction text as [|c rest IH]; simpl; [done|].
  intros [Hc Hrest]%orb_false_iff. rewrite Hc. by rewrite IH.
Qed.

(** C8. For every string, [remove_escapement] returns the string in which an
    escape character followed by the argument marker stays escaped, an escape
    character followed by any other character is resolved to that character
    alone, and a trailing escape character is dropped: it computes
    [escapement_removed], which reads these clauses off one by one.  The
    function is total, so it returns on every input and raises nothing. *)
Theorem remove_escapement_spec (text : string) :
  remove_escapement text = escapement_removed text.
Proof.
  unfold remove_escapement.
  destruct (str_contains_char ESCAPE_SYM text) eqn:Hesc; simpl.
  - apply remove_escapement_loop_removed.
  - symmetry. by apply escapement_removed_no_escape.
Qed.

Example remove_escapement_question : remove_escapement "a\?b" = "a?b".
Proof. reflexivity. Qed.

Example remove_escapement_argument : remove_escapement "a\$b" = "a\$b".
Proof. reflexivity. Qed.

Example remove_escapement_trailing :
  remove_escapement ("ab" +:+ ESCAPE_SYM) = "ab".
Proof. reflexivity. Qed.

(** ** Leading case *)

Section LeadingCaseFacts.
Context `{CharTable}.

Lemma first_non_space_all_spaces (text : string) (i : nat) :
  all_spaces text = true -> first_non_space i text = None.
Proof.
  revert i. induction text as [|c rest IH]; intros i; simpl; [done|].
  intros [Hc Hrest]%andb_true_iff. rewrite Hc. simpl. by apply IH.
Qed.

Lemma first_non_space_split (pre : string) (c : ascii) (post : string) (i : nat) :
  all_spaces pre = true -> isspace c = false ->
  first_non_space i (pre +:+ String c post) = Some (i + String.length pre, c).
Proof.
  revert i. induction pre as [|d pre IH]; intros i; simpl.
  - intros _ ->. simpl. do 2 f_equal. lia.
  - intros [Hd Hpre]%andb_true_iff Hc. rewrite Hd. simpl.
    rewrite IH by done. do 2 f_equal. lia.
Qed.

Lemma str_take_append (pre rest : string) :
  str_take (String.length pre) (pre +:+ rest) = pre.
Proof. induction pre as [|d pre IH]; simpl; [by destruct rest | by rewrite IH]. Qed.

Lemma str_drop_append (pre rest : string) :
  str_drop (String.length pre) (pre +:+ rest) = rest.
Proof. induction pre as [|d pre IH]; simpl; [by destruct rest | done]. Qed.

Lemma str_drop_append_succ (pre : string) (c : ascii) (post : string) :
  str_drop (String.length pre + 1) (pre +:+ String c post) = post.
Proof.
  induction pre as [|d pre IH]; simpl; [by destruct post | done].
Qed.

(** Every string is a run of spaces followed by nothing or by a first
    character that is not a space. *)
Lemma leading_spaces_split (text : string) :
  exists pre rest, text = pre +:+ rest /\ all_spaces pre = true /\
    match rest with
    | "" => True
    | String c _ => isspace c = false
    end.
Proof.
  induction text as [|c text (pre & rest & -> & Hpre & Hrest)].
  - by exists "", "".
  - destruct (isspace c) eqn:Hc.
    + exists (String c pre), rest. simpl. by rewrite Hc, Hpre.
    + by exists "", (String c (pre +:+ rest)).
Qed.

Lemma with_leading_upper_split (pre : string) (c : ascii) (post : string) :
  all_spaces pre = true -> isspace c = false ->
  with_leading_upper (pre +:+ String c post) = pre +:+ upper c +:+ post.
Proof.
  intros Hpre Hc. unfold with_leading_upper.
  rewrite first_non_space_split by done. simpl.
  by rewrite str_take_append, str_drop_append_succ.
Qed.

Lemma with_leading_lower_split (pre : string) (c : ascii) (post : string) :
  all_spaces pre = true -> isspace c = false ->
  with_leading_lower (pre +:+ String c post) = pre +:+ lower c +:+ post.
Proof.
  intros Hpre Hc. unfold with_leading_lower.
  rewrite first_non_space_split by done. simpl.
  by rewrite str_take_append, str_drop_append_succ.
Qed.

Lemma with_leading_upper_spaces (text : string) :
  all_spaces text = true -> with_leading_upper text = text.
Proof.
  intros Hsp. unfold with_leading_upper.
  by rewrite first_non_space_all_spaces.
Qed.

Lemma with_leading_lower_spaces (text : string) :
  all_spaces text = true -> with_leading_lower text = text.
Proof.
  intros Hsp. unfold with_leading_lower.
  by rewrite first_non_space_all_spaces.
Qed.

(** C10. For every string, [with_leading_upper] and [with_leading_lower]
    return the input with only its first character that is not a space
    replaced by its uppercase (lowercase) mapping: the string splits
    into a run of spaces [pre] and a remainder; when the remainder starts
    with a character [c], the result is [pre], the mapping of [c] and the
    characters after [c], all unchanged; when there is no remainder the
    string is returned as it is. *)
Theorem with_leading_case_frame (text : string) :
  exists pre rest, text = pre +:+ rest /\ all_spaces pre = true /\
    match rest with
    | "" =>
        with_leading_upper text = text /\ with_leading_lower text = text
    | String c post =>
        isspace c = false /\
        with_leading_upper text = pre +:+ upper c +:+ post /\
        with_leading_lower text = pre +:+ lower c +:+ post
    end.
Proof.
  destruct (leading_spaces_split text) as (pre & rest & -> & Hpre & Hrest).
  exists pre, rest. do 2 (split; [done|]).
  destruct rest as [|c post].
  - rewrite append_nil_r.
    by rewrite with_leading_upper_spaces, with_leading_lower_spaces.
  - by rewrite with_leading_upper_split, with_leading_lower_split.
Qed.
End LeadingCaseFacts.

(** ** Bracket spans *)

Lemma skip_to_opening_found (open_sym : string) (pre rest : list string) (i : nat) :
  open_sym ∉ pre ->
  skip_to_opening open_sym (pre ++ open_sym :: rest) i = i + length pre.
Proof.
  revert i. induction pre as [|token pre IH]; intros i Hpre; simpl.
  - rewrite String.eqb_refl. simpl. lia.
  - apply not_elem_of_cons in Hpre as [Hne Hpre].
    apply not_eq_sym, String.eqb_neq in Hne. rewrite Hne. simpl.
    rewrite IH by done. lia.
Qed.

Lemma skip_to_opening_absent (open_sym : string) (tokens : list string) (i : nat) :
  open_sym ∉ tokens -> skip_to_opening open_sym tokens i = i + length tokens.
Proof.
  revert i. induction tokens as [|token tokens IH]; intros i Hpre; simpl.
  - lia.
  - apply not_elem_of_cons in Hpre as [Hne Hpre].
    apply not_eq_sym, String.eqb_neq in Hne. rewrite Hne. simpl.
    rewrite IH by done. lia.
Qed.

Lemma skip_to_closing_balanced (open_sym close_sym : string)
    (interior rest : list string) (depth e nb : nat) :
  open_sym <> close_sym -> 0 < nb ->
  balanced_from open_sym close_sym depth interior = true ->
  skip_to_closing open_sym close_sym (interior ++ rest) e (nb + depth) =
    skip_to_closing open_sym close_sym rest (e + length interior) nb.
Proof.
  intros Hsym Hnb. revert depth e.
  induction interior as [|token interior IH]; intros depth e; simpl.
  - intros ->%Nat.eqb_eq. f_equal; lia.
  - intros Hbal.
    replace (0 <? nb + depth) with true by (symmetry; apply Nat.ltb_lt; lia).
    destruct (String.eqb token open_sym) eqn:Hopen.
    + replace (nb + depth + 1) with (nb + S depth) by lia.
      rewrite IH by done. f_equal; lia.
    + destruct (String.eqb token close_sym) eqn:Hclose.
      * destruct depth as [|depth]; [done|].
        replace (nb + S depth - 1) with (nb + depth) by lia.
        rewrite IH by done. f_equal; lia.
      * rewrite IH by done. f_equal; lia.
Qed.

Lemma skip_to_closing_done (open_sym close_sym : string) (rest : list string) (e : nat) :
  skip_to_closing open_sym close_sym rest e 0 = e.
Proof. by destruct rest. Qed.

Lemma skip_to_closing_close (open_sym close_sym : string) (rest : list string) (e : nat) :
  open_sym <> close_sym ->
  skip_to_closing open_sym close_sym (close_sym :: rest) e 1 = e + 1.
Proof.
  intros Hsym. simpl.
  apply not_eq_sym, String.eqb_neq in Hsym. rewrite Hsym, String.eqb_refl. simpl.
  apply skip_to_closing_done.
Qed.

Lemma list_slice_middle (pre interior post : list string) :
  list_slice (pre ++ interior ++ post) (length pre) (length pre + length interior)
  = interior.
Proof.
  unfold list_slice. rewrite drop_app_length.
  replace (length pre + length interior - length pre) with (length interior) by lia.
  by rewrite take_app_length.
Qed.

(** On a balanced span, [get_declaration_interior] returns the tokens
    strictly between the first opening bracket and the bracket closing it. *)
Lemma get_declaration_interior_balanced (pre interior post : list string) :
  UNIT_OPEN_SYM ∉ pre ->
  balanced_from UNIT_OPEN_SYM UNIT_CLOSE_SYM 0 interior = true ->
  get_declaration_interior
    (pre ++ UNIT_OPEN_SYM :: interior ++ UNIT_CLOSE_SYM :: post) = Some interior.
Proof.
  intros Hpre Hbal. unfold get_declaration_interior.
  rewrite skip_to_opening_found by done. simpl.
  rewrite !length_app. simpl. rewrite length_app. simpl.
  destruct (Nat.leb_spec (length pre + S (length interior + S (length post)))
              (length pre + 1)) as [?|_]; [lia|].
  replace (pre ++ UNIT_OPEN_SYM :: interior ++ UNIT_CLOSE_SYM :: post)
    with ((pre ++ [UNIT_OPEN_SYM]) ++ interior ++ UNIT_CLOSE_SYM :: post)
    by (by rewrite <- app_assoc).
  replace (length pre + 1) with (length (pre ++ [UNIT_OPEN_SYM]))
    by (rewrite length_app; simpl; lia).
  rewrite drop_app_length.
  rewrite (skip_to_closing_balanced _ _ interior _ 0 _ 1) by (done || lia).
  rewrite skip_to_closing_close by done.
  rewrite length_app. simpl.
  destruct (Nat.leb_spec (length pre + S (length interior + S (length post)))
              (length pre + 1 + length interior + 1 - 1)) as [?|_]; [lia|].
  f_equal.
  replace (length pre + 1 + length interior + 1 - 1)
    with (length (pre ++ [UNIT_OPEN_SYM]) + length interior)
    by (rewrite length_app; simpl; lia).
  replace (length pre + 1) with (length (pre ++ [UNIT_OPEN_SYM]))
    by (rewrite length_app; simpl; lia).
  apply list_slice_middle.
Qed.

Lemma skip_to_closing_open (open_sym close_sym : string)
    (rest : list string) (depth e : nat) :
  open_sym <> close_sym ->
  still_open open_sym close_sym depth rest = true ->
  skip_to_closing open_sym close_sym rest e (S depth) = e + length rest.
Proof.
  intros Hsym. revert depth e.
  induction rest as [|token rest IH]; intros depth e; simpl; [lia|].
  destruct (String.eqb token open_sym) eqn:Hopen.
  - intros Hopen'. replace (S (depth + 1)) with (S (S depth)) by lia.
    rewrite IH by done. lia.
  - destruct (String.eqb token close_sym) eqn:Hclose.
    + destruct depth as [|depth]; [done|]. intros Hopen'.
      replace (S depth - 0) with (S depth) by lia.
      rewrite IH by done. lia.
    + intros Hopen'. rewrite IH by done. lia.
Qed.

(** On a span that is never closed, [get_declaration_interior] returns the
    tokens after the opening bracket without the last one; it returns
    [None] only when nothing follows the opening bracket. *)
Lemma get_declaration_interior_unterminated (pre rest : list string) :
  UNIT_OPEN_SYM ∉ pre ->
  still_open UNIT_OPEN_SYM UNIT_CLOSE_SYM 0 rest = true ->
  get_declaration_interior (pre ++ UNIT_OPEN_SYM :: rest)
  = match rest with
    | [] => None
    | _ :: _ => Some (take (length rest - 1) rest)
    end.
Proof.
  intros Hpre Hopen. unfold get_declaration_interior.
  rewrite skip_to_opening_found by done. simpl.
  rewrite length_app. simpl.
  destruct rest as [|token rest].
  - simpl.
    destruct (Nat.leb_spec (length pre + 1) (length pre + 1)); [done | lia].
  - destruct (Nat.leb_spec (length pre + S (length (token :: rest)))
                (length pre + 1)) as [Hle|_]; [simpl in Hle; lia|].
    replace (pre ++ UNIT_OPEN_SYM :: token :: rest)
      with ((pre ++ [UNIT_OPEN_SYM]) ++ token :: rest)
      by (by rewrite <- app_assoc).
    replace (length pre + 1) with (length (pre ++ [UNIT_OPEN_SYM]))
      by (rewrite length_app; simpl; lia).
    rewrite drop_app_length.
    rewrite (skip_to_closing_open _ _ (token :: rest) 0) by done.
    match goal with
    | |- context [?a <=? ?b] => destruct (Nat.leb_spec a b) as [Hle|_]
    end; [rewrite length_app in Hle; simpl in Hle; lia|].
    f_equal. unfold list_slice. rewrite drop_app_length. f_equal. lia.
Qed.

(** Without any opening bracket both functions return [None]. *)
Lemma get_declaration_interior_no_opening (tokens : list string) :
  UNIT_OPEN_SYM ∉ tokens -> get_declaration_interior tokens = None.
Proof.
  intros Hno. unfold get_declaration_interior.
  rewrite skip_to_opening_absent by done. simpl.
  destruct (Nat.leb_spec (length tokens) (length tokens + 1)); [done | lia].
Qed.

Lemma get_annotation_interior_no_opening (tokens : list string) :
  ANNOTATION_OPEN_SYM ∉ tokens -> get_annotation_interior tokens = None.
Proof.
  intros Hno. unfold get_annotation_interior.
  rewrite skip_to_opening_absent by done. simpl.
  destruct (Nat.leb_spec (length tokens) (length tokens + 1)); [done | lia].
Qed.

(** On a balanced span, [get_annotation_interior] does not stop before the
    closing bracket but after it: the closing bracket is part of the slice,
    and a span that ends the line is taken for an unterminated one. *)
Lemma get_annotation_interior_balanced (pre interior post : list string) :
  ANNOTATION_OPEN_SYM ∉ pre ->
  balanced_from ANNOTATION_OPEN_SYM ANNOTATION_CLOSE_SYM 0 interior = true ->
  get_annotation_interior
    (pre ++ ANNOTATION_OPEN_SYM :: interior ++ ANNOTATION_CLOSE_SYM :: post)
  = match post with
    | [] => None
    | _ :: _ => Some (interior ++ [ANNOTATION_CLOSE_SYM])
    end.
Proof.
  intros Hpre Hbal. unfold get_annotation_interior.
  rewrite skip_to_opening_found by done. simpl.
  rewrite !length_app. simpl. rewrite length_app. simpl.
  destruct (Nat.leb_spec (length pre + S (length interior + S (length post)))
              (length pre + 1)) as [?|_]; [lia|].
  replace (pre ++ ANNOTATION_OPEN_SYM :: interior ++ ANNOTATION_CLOSE_SYM :: post)
    with ((pre ++ [ANNOTATION_OPEN_SYM]) ++
          (interior ++ [ANNOTATION_CLOSE_SYM]) ++ post)
    by (by rewrite <- !app_assoc).
  replace (length pre + 1) with (length (pre ++ [ANNOTATION_OPEN_SYM]))
    by (rewrite length_app; simpl; lia).
  rewrite drop_app_length. rewrite <- (app_assoc interior).
  rewrite (skip_to_closing_balanced _ _ interior _ 0 _ 1) by (done || lia).
  change ([ANNOTATION_CLOSE_SYM] ++ post) with (ANNOTATION_CLOSE_SYM :: post).
  rewrite skip_to_closing_close by done.
  rewrite length_app. simpl.
  destruct post as [|token post]; simpl.
  - destruct (Nat.leb_spec (length pre + S (length interior + 1))
                (length pre + 1 + length interior + 1)) as [_|?]; [done | lia].
  - destruct (Nat.leb_spec (length pre + S (length interior + S (S (length post))))
                (length pre + 1 + length interior + 1)) as [?|_]; [lia|].
    f_equal.
    replace (length pre + 1 + length interior + 1)
      with (length (pre ++ [ANNOTATION_OPEN_SYM]) +
            length (interior ++ [ANNOTATION_CLOSE_SYM]))
      by (rewrite !length_app; simpl; lia).
    replace (length pre + 1) with (length (pre ++ [ANNOTATION_OPEN_SYM]))
      by (rewrite length_app; simpl; lia).
    replace (interior ++ ANNOTATION_CLOSE_SYM :: token :: post)
      with ((interior ++ [ANNOTATION_CLOSE_SYM]) ++ token :: post)
      by (by rewrite <- app_assoc).
    apply list_slice_middle.
Qed.

(** C2. The code at the inputs where it leaves the documented behaviour: an
    unterminated declaration span yields the span without its last token
    instead of [None]; an annotation closed by the last token of the line
    yields [None] instead of its interior; an annotation followed by other
    tokens yields its interior together with the closing bracket. *)
Theorem interior_divergence :
  get_declaration_interior ["["; "a"; "b"] = Some ["a"] /\
  get_annotation_interior ["("; "5"; ")"] = None /\
  get_annotation_interior ["("; "5"; ")"; "x"] = Some ["5"; ")"].
Proof. repeat split; reflexivity. Qed.

(** ** check_declaration_validity *)

Lemma list_count_elem (sym : string) (tokens : list string) :
  0 < list_count sym tokens <-> sym ∈ tokens.
Proof.
  induction tokens as [|token tokens IH]; simpl.
  - split; [lia | by intros ?%elem_of_nil].
  - rewrite elem_of_cons. destruct (String.eqb_spec token sym) as [->|Hne].
    + split; [by left | lia].
    + simpl. rewrite IH. split; [by right | by intros [?|?]].
Qed.

Lemma list_count_zero (sym : string) (tokens : list string) :
  list_count sym tokens = 0 <-> sym ∉ tokens.
Proof. rewrite <- list_count_elem. lia. Qed.

Lemma list_index_unique (sym : string) (tokens : list string) :
  list_count sym tokens = 1 ->
  exists i, list_index sym tokens = Ok i /\ tokens !! i = Some sym /\
            forall j, tokens !! j = Some sym -> j = i.
Proof.
  induction tokens as [|token tokens IH]; simpl; [done|].
  destruct (String.eqb_spec token sym) as [->|Hne]; simpl.
  - intros Hcount. exists 0. do 2 (split; [done|]).
    intros [|j]; [done|]. simpl. intros Hj.
    assert (sym ∈ tokens) as Hin by (by eapply list_elem_of_lookup_2).
    apply list_count_elem in Hin. lia.
  - intros (i & -> & Hi & Huniq)%IH. exists (S i). do 2 (split; [done|]).
    intros [|j]; simpl; [congruence|]. intros ?%Huniq. lia.
Qed.

Lemma list_get_lookup (tokens : list string) (i : nat) (token : string) :
  tokens !! i = Some token -> list_get tokens i = Ok token.
Proof. unfold list_get. by intros ->. Qed.

Lemma list_mem_elem (token : string) (names : list string) :
  list_mem token names = true <-> token ∈ names.
Proof.
  unfold list_mem. rewrite existsb_exists. split.
  - intros (name & Hin%list_elem_of_In & ->%String.eqb_eq). done.
  - intros Hin%list_elem_of_In. exists token. by rewrite String.eqb_refl.
Qed.

#[local] Arguments list_mem : simpl never.

(** The name of the marker at [i]: the state of the tokens after a marker
    that occurs once, as the validator finds it. *)
Lemma marker_name_cases (tokens : list string) (i : nat) :
  ((length tokens <=? i + 1) = true /\ no_name_after tokens i) \/
  (exists name, (length tokens <=? i + 1) = false /\ tokens !! S i = Some name /\
     list_get tokens (i + 1) = Ok name /\
     (is_special_sym name = true -> no_name_after tokens i) /\
     (is_special_sym name = false -> ~ no_name_after tokens i)).
Proof.
  unfold no_name_after. replace (i + 1) with (S i) by lia.
  destruct (tokens !! S i) as [name|] eqn:Hname.
  - right. exists name. apply lookup_lt_Some in Hname as Hlt.
    split; [apply Nat.leb_gt; lia|]. split; [done|].
    split; [by apply list_get_lookup|]. split; [done|]. by intros ->.
  - left. apply lookup_ge_None in Hname. split; [apply Nat.leb_le; lia | done].
Qed.

Lemma decides_chain (r k : result unit) (Vr Vk : Prop) :
  decides r Vr -> (~ Vr -> decides k Vk) -> decides (r;; k) (Vr \/ Vk).
Proof.
  intros [[Hr HV]|[-> HV]] Hk.
  - left. split; [|by left]. by destruct r as [|[]].
  - destruct (Hk HV) as [[Hk' HVk]|[Hk' HVk]].
    + left. split; [done | by right].
    + right. split; [done | tauto].
Qed.

Lemma decides_raise_if (cond : bool) (msg : string) (V : Prop) :
  (cond = true <-> V) -> decides (raise_if cond (SyntaxError msg)) V.
Proof.
  intros HV. destruct cond; simpl.
  - left. split; [done | by apply HV].
  - right. split; [done|]. intros ?%HV. done.
Qed.

Lemma decides_casegen_position (tokens : list string) (msg : string) :
  ~ 1 < list_count CASE_GEN_SYM tokens ->
  decides
    (if list_count CASE_GEN_SYM tokens =? 1 then
       i ← list_index CASE_GEN_SYM tokens;
       raise_if (negb (i =? 0)) (SyntaxError msg)
     else Ok tt)
    (exists i, i <> 0 /\ tokens !! i = Some CASE_GEN_SYM).
Proof.
  intros Hcc.
  destruct (list_count CASE_GEN_SYM tokens) as [|[|cc]] eqn:Hcount; [| |lia]; simpl.
  - right. split; [done|]. intros (i & _ & Hi).
    apply list_count_zero in Hcount. apply Hcount. by eapply list_elem_of_lookup_2.
  - destruct (list_index_unique _ _ Hcount) as (i & -> & Hi & Huniq). simpl.
    destruct i as [|i]; simpl.
    + right. split; [done|]. intros (j & Hj & ?%Huniq). done.
    + left. split; [done|]. by exists (S i).
Qed.

Lemma decides_named (tokens : list string) (msg : string) :
  tokens <> [] ->
  ~ 1 < list_count CASE_GEN_SYM tokens ->
  ~ (exists i, i <> 0 /\ tokens !! i = Some CASE_GEN_SYM) ->
  decides
    (if list_count CASE_GEN_SYM tokens =? 0 then
       first ← list_get tokens 0;
       raise_if (is_special_sym first) (SyntaxError msg)
     else if (list_count CASE_GEN_SYM tokens =? 1) && (length tokens <=? 1) then
       Raise (SyntaxError msg)
     else if list_count CASE_GEN_SYM tokens =? 1 then
       second ← list_get tokens 1;
       raise_if (is_special_sym second) (SyntaxError msg)
     else Ok tt)
    (unnamed_unit tokens).
Proof.
  intros Hne Hcc Hpos.
  destruct (list_count CASE_GEN_SYM tokens) as [|[|cc]] eqn:Hcount; [| |lia]; simpl.
  - destruct tokens as [|first rest]; [done|]. simpl.
    assert (String.eqb first CASE_GEN_SYM = false) as Hfirst.
    { apply String.eqb_neq. intros ->.
      apply list_count_zero in Hcount. apply Hcount. by left. }
    rewrite Hfirst. apply decides_raise_if. done.
  - destruct (list_index_unique _ _ Hcount) as (i & _ & Hi & _).
    destruct i as [|i]; [|destruct Hpos; by exists (S i)].
    destruct tokens as [|first rest]; [done|]. simpl in Hi.
    injection Hi as ->. simpl.
    destruct rest as [|second rest]; simpl.
    + by left.
    + apply decides_raise_if. done.
Qed.

Lemma decides_variation_name (tokens : list string) (msg1 msg2 msg3 : string) :
  ~ 1 < list_count VARIATION_SYM tokens ->
  decides
    (if list_count VARIATION_SYM tokens =? 1 then
       i ← list_index VARIATION_SYM tokens;
       (if length tokens <=? i + 1
        then Raise (SyntaxError msg1)
        else
          token ← list_get tokens (i + 1);
          raise_if (is_special_sym token) (SyntaxError msg2));;
       variation_name ← list_get tokens (i + 1);
       raise_if (list_mem variation_name RESERVED_VARIATION_NAMES)
         (SyntaxError msg3)
     else Ok tt)
    (exists i, tokens !! i = Some VARIATION_SYM /\
               (no_name_after tokens i \/ reserved_name_after tokens i)).
Proof.
  intros Hvc.
  destruct (list_count VARIATION_SYM tokens) as [|[|vc]] eqn:Hcount; [| |lia]; simpl.
  - right. split; [done|]. intros (i & Hi & _).
    apply list_count_zero in Hcount. apply Hcount. by eapply list_elem_of_lookup_2.
  - destruct (list_index_unique _ _ Hcount) as (i & -> & Hi & Huniq). simpl.
    destruct (marker_name_cases tokens i)
      as [[-> Hnone]|(name & -> & Hname & -> & Hspecial & Hplain)]; simpl.
    { left. split; [done|]. exists i. split; [done | by left]. }
    destruct (is_special_sym name) eqn:Hsp; simpl.
    { left. split; [done|]. exists i. split; [done|]. left. by apply Hspecial. }
    destruct (list_mem name RESERVED_VARIATION_NAMES) eqn:Hres.
    + left. split; [done|]. exists i. split; [done|]. right.
      exists name. split; [done|]. by apply list_mem_elem.
    + right. split; [done|]. intros (j & ->%Huniq & [Hno|(name' & Hname' & Hin)]).
      * by apply Hplain.
      * rewrite Hname in Hname'. injection Hname' as <-.
        apply list_mem_elem in Hin. congruence.
Qed.

Lemma decides_argument_name (tokens : list string) (msg1 msg2 : string) :
  ~ 1 < list_count ARG_SYM tokens ->
  decides
    (if list_count ARG_SYM tokens =? 1 then
       i ← list_index ARG_SYM tokens;
       if length tokens <=? i + 1
       then Raise (SyntaxError msg1)
       else
         token ← list_get tokens (i + 1);
         raise_if (is_special_sym token) (SyntaxError msg2)
     else Ok tt)
    (exists i, tokens !! i = Some ARG_SYM /\ no_name_after tokens i).
Proof.
  intros Hac.
  destruct (list_count ARG_SYM tokens) as [|[|ac]] eqn:Hcount; [| |lia]; simpl.
  - right. split; [done|]. intros (i & Hi & _).
    apply list_count_zero in Hcount. apply Hcount. by eapply list_elem_of_lookup_2.
  - destruct (list_index_unique _ _ Hcount) as (i & -> & Hi & Huniq). simpl.
    destruct (marker_name_cases tokens i)
      as [[-> Hnone]|(name & -> & Hname & -> & Hspecial & Hplain)]; simpl.
    { left. split; [done|]. by exists i. }
    destruct (is_special_sym name) eqn:Hsp; simpl.
    + left. split; [done|]. exists i. split; [done|]. by apply Hspecial.
    + right. split; [done|]. intros (j & ->%Huniq & Hno). by apply Hplain.
Qed.

(** On a span that is not empty, [check_declaration_validity] raises a
    syntax error exactly on the violations its documentation lists, and
    returns normally otherwise. *)
Lemma check_declaration_validity_decides (tokens : list string) :
  tokens <> [] ->
  decides (check_declaration_validity tokens) (declaration_violation tokens).
Proof.
  intros Hne. unfold check_declaration_validity, declaration_violation. cbv zeta.
  apply decides_chain; [apply decides_raise_if, Nat.ltb_lt|intros Hcc].
  apply decides_chain; [by apply decides_casegen_position|intros Hpos].
  apply decides_chain; [by apply decides_named|intros _].
  apply decides_chain; [apply decides_raise_if, Nat.ltb_lt|intros Hvc].
  apply decides_chain; [by apply decides_variation_name|intros _].
  apply decides_chain; [apply decides_raise_if, Nat.ltb_lt|intros Hac].
  apply decides_chain; [by apply decides_argument_name|intros _].
  apply decides_chain; [apply decides_raise_if|intros _].
  { rewrite Nat.ltb_lt. apply list_count_elem. }
  apply decides_raise_if. rewrite Nat.ltb_lt. apply list_count_elem.
Qed.

(** C5. On the empty span, which is the interior of the declaration [~[]],
    [check_declaration_validity] reads the first token before any length
    check and fails with an [IndexError]: neither the syntax error of an
    unnamed unit nor a normal return. *)
Theorem check_declaration_validity_empty :
  get_declaration_interior ["~"; "["; "]"] = Some [] /\
  check_declaration_validity [] = Raise IndexError /\
  unnamed_unit [].
Proof. repeat split; reflexivity. Qed.

(** ** Variations *)

Section Variations.
Context `{CharTable} `{Regex} {N : Type} `{RuleContent.Methods N}.
Implicit Types (self : UnitDefinition.t N) (variation_name : string).

(** C7. For every variation name that is not a key of the variations of
    the unit, [generate_random], [generate_all] and
    [get_max_nb_generated_examples] each raise a syntax error: none of
    them falls back on the rules of the unit or returns any value. *)
Theorem unknown_variation_raises self variation_name
    (arg_value : option string) (g : Rng) :
  UnitDefinition.variations self !! variation_name = None ->
  is_syntax_error
    (UnitDefinition.generate_random self (Some variation_name) arg_value g) /\
  is_syntax_error
    (UnitDefinition.generate_all self (Some variation_name) arg_value) /\
  is_syntax_error
    (UnitDefinition.get_max_nb_generated_examples self (Some variation_name)).
Proof.
  intros Hunknown.
  unfold UnitDefinition.generate_random, UnitDefinition.generate_all,
    UnitDefinition.get_max_nb_generated_examples,
    UnitDefinition.relevant_rules_of.
  rewrite Hunknown. simpl. done.
Qed.

Lemma add_rule_named self (rule : list N) (variation : option string) :
  named self -> named (UnitDefinition.add_rule rule variation self).1.
Proof.
  intros [Hname Hkeys]. unfold UnitDefinition.add_rule.
  destruct variation as [variation_name|]; [|done].
  destruct (String.eqb_spec variation_name "") as [->|Hne]; [done|].
  split; [done|]. simpl. intros key [registered Hkey].
  destruct (decide (variation_name = key)) as [<-|Hother]; [done|].
  rewrite lookup_insert_ne in Hkey by done. apply Hkeys. by eexists.
Qed.

Lemma add_rules_named self (new_rules : list (list N)) (variation : option string) :
  named self -> named (UnitDefinition.add_rules new_rules variation self).1.
Proof.
  intros [Hname Hkeys]. unfold UnitDefinition.add_rules.
  destruct variation as [variation_name|]; [|done].
  destruct (String.eqb_spec variation_name "") as [->|Hne]; [done|].
  split; [done|]. simpl. intros key [registered Hkey].
  destruct (decide (variation_name = key)) as [<-|Hother]; [done|].
  rewrite lookup_insert_ne in Hkey by done. apply Hkeys. by eexists.
Qed.

(** C9, as the code has it.  [add_rule] and [add_rules] keep the name of
    the unit and keep every key of the variations non-empty; given the
    empty variation name they raise a syntax error and leave the
    variations as they were; given any other name, reserved or not, they
    return normally with the rules registered under it.  The reserved
    names are refused by [check_declaration_validity], not here. *)
Theorem add_rule_invariant self (rule : list N) (new_rules : list (list N))
    (variation : option string) :
  named self ->
  let after_rule := UnitDefinition.add_rule rule variation self in
  let after_rules := UnitDefinition.add_rules new_rules variation self in
  named after_rule.1 /\ named after_rules.1 /\
  UnitDefinition.name after_rule.1 = UnitDefinition.name self /\
  UnitDefinition.name after_rules.1 = UnitDefinition.name self /\
  (variation = Some "" ->
     is_syntax_error after_rule.2 /\ is_syntax_error after_rules.2 /\
     UnitDefinition.variations after_rule.1 = UnitDefinition.variations self /\
     UnitDefinition.variations after_rules.1 = UnitDefinition.variations self) /\
  (forall variation_name,
     variation = Some variation_name -> variation_name <> "" ->
     after_rule.2 = Ok tt /\ after_rules.2 = Ok tt /\
     (exists registered,
        UnitDefinition.variations after_rule.1 !! variation_name
        = Some (registered ++ [rule])) /\
     (exists registered,
        UnitDefinition.variations after_rules.1 !! variation_name
        = Some (registered ++ new_rules))).
Proof.
  intros Hnamed after_rule after_rules.
  split; [by apply add_rule_named|]. split; [by apply add_rules_named|].
  subst after_rule after_rules.
  unfold UnitDefinition.add_rule, UnitDefinition.add_rules.
  destruct variation as [variation_name|]; simpl.
  - destruct (String.eqb_spec variation_name "") as [->|Hne]; simpl.
    + do 2 (split; [done|]). split; [done|]. by intros ? [= <-].
    + do 2 (split; [done|]). split; [by intros [= ->]|].
      intros ? [= <-] _. do 2 (split; [done|]).
      rewrite !lookup_insert_eq.
      destruct (UnitDefinition.variations self !! variation_name)
        as [registered|].
      * split; by exists registered.
      * split; by exists [].
  - do 2 (split; [done|]). split; [done|]. done.
Qed.
End Variations.

(** ** Exhaustive generation *)

Lemma list_bind_assoc {A B C : Type} (f : A -> list B) (g : B -> list C) (l : list A) :
  (l ≫= f) ≫= g = l ≫= (fun x => f x ≫= g).
Proof.
  induction l as [|x l IH]; [done|].
  by rewrite !bind_cons, bind_app, IH.
Qed.

Lemma list_bind_nil_inv {A B : Type} (f : A -> list B) (l : list A) :
  l <> [] -> (forall x, f x <> []) -> l ≫= f <> [].
Proof.
  destruct l as [|x l]; [done|]. intros _ Hf. rewrite bind_cons.
  specialize (Hf x). destruct (f x); done.
Qed.


Section Exhaustive.
Context `{CharTable} `{Regex} {N : Type} `{RuleContent.Methods N}.
Implicit Types (self : UnitDefinition.t N) (rule : list N)
  (relevant_rules : list (list N)).

Lemma Example_concat_init (ex : Example) : Example_concat ex Example_init = ex.
Proof.
  destruct ex as [t e]. unfold Example_concat. simpl.
  by rewrite append_nil_r, app_nil_r.
Qed.

Lemma Example_concat_assoc (ex1 ex2 ex3 : Example) :
  Example_concat (Example_concat ex1 ex2) ex3
  = Example_concat ex1 (Example_concat ex2 ex3).
Proof.
  unfold Example_concat. simpl. by rewrite append_assoc, app_assoc.
Qed.

Lemma bind_Example_init (examples : list Example) :
  (ex ← examples; rest ← [Example_init]; [Example_concat ex rest]) = examples.
Proof.
  induction examples as [|ex examples IH]; [done|].
  rewrite bind_cons, IH, bind_singleton. by rewrite Example_concat_init.
Qed.

Lemma generate_all_sub_units_cons sub_unit_rule rule (examples : list Example) :
  examples <> [] ->
  UnitDefinition.generate_all_sub_units (sub_unit_rule :: rule) examples =
    UnitDefinition.generate_all_sub_units rule
      (ex ← examples;
       possibility ← RuleContent.generate_all sub_unit_rule;
       [Example_concat ex possibility]).
Proof. by destruct examples. Qed.

(** From examples already there, the loop over the contents of a rule
    multiplies them with the product of the contents that remain. *)
Lemma generate_all_sub_units_product rule (examples : list Example) :
  examples <> [] ->
  (forall sub_unit_rule, sub_unit_rule ∈ rule ->
     RuleContent.generate_all sub_unit_rule <> []) ->
  UnitDefinition.generate_all_sub_units rule examples =
    (ex ← examples;
     rest ← cartesian_product (RuleContent.generate_all <$> rule);
     [Example_concat ex rest]).
Proof.
  revert examples.
  induction rule as [|sub_unit_rule rule IH]; intros examples Hex Hrule.
  - simpl. by rewrite bind_Example_init.
  - rewrite generate_all_sub_units_cons by done. rewrite fmap_cons.
    cbn [cartesian_product].
    rewrite IH.
    + rewrite list_bind_assoc. apply list_bind_ext; [|done]. intros ex.
      rewrite !list_bind_assoc. apply list_bind_ext; [|done]. intros possibility.
      rewrite bind_singleton, list_bind_assoc.
      apply list_bind_ext; [|done]. intros rest.
      rewrite bind_singleton. f_equal. apply Example_concat_assoc.
    + apply list_bind_nil_inv; [done|]. intros ex.
      apply list_bind_nil_inv; [|done]. apply Hrule. by left.
    + intros node Hnode. apply Hrule. by right.
Qed.

(** After a content without output the loop starts again from the outputs
    of the next content: the examples of the rule are then those of the
    contents that follow, not the empty product. *)
Lemma generate_all_sub_units_restart sub_unit_rule rule :
  RuleContent.generate_all sub_unit_rule = [] ->
  UnitDefinition.generate_all_sub_units (sub_unit_rule :: rule) []
  = UnitDefinition.generate_all_sub_units rule [].
Proof.
  intros Hnone. simpl. rewrite Hnone. by destruct rule.
Qed.

Lemma generate_all_sub_units_rule_product rule :
  (forall sub_unit_rule, sub_unit_rule ∈ rule ->
     RuleContent.generate_all sub_unit_rule <> []) ->
  UnitDefinition.generate_all_sub_units rule [] = rule_product rule.
Proof.
  destruct rule as [|sub_unit_rule rule]; [done|]. intros Hrule. simpl.
  apply generate_all_sub_units_product.
  - apply Hrule. by left.
  - intros node Hnode. apply Hrule. by right.
Qed.

Lemma generate_all_rules_concat relevant_rules (generated_examples : list Example) :
  UnitDefinition.generate_all_rules relevant_rules generated_examples =
    generated_examples ++
    concat ((fun rule => UnitDefinition.generate_all_sub_units rule [])
              <$> relevant_rules).
Proof.
  revert generated_examples.
  induction relevant_rules as [|rule relevant_rules IH];
    intros generated_examples; simpl.
  - by rewrite app_nil_r.
  - by rewrite IH, app_assoc.
Qed.

Lemma generate_all_rules_product relevant_rules :
  productive relevant_rules ->
  UnitDefinition.generate_all_rules relevant_rules [] =
    concat (rule_product <$> relevant_rules).
Proof.
  intros Hprod. rewrite generate_all_rules_concat. simpl. f_equal.
  apply list_fmap_ext. intros i rule Hrule.
  apply generate_all_sub_units_rule_product.
  intros node Hnode. eapply Hprod; [|done]. by eapply list_elem_of_lookup_2.
Qed.

Lemma generate_all_selected self (variation_name arg_value : option string)
    relevant_rules :
  selected_rules self variation_name = Some relevant_rules ->
  relevant_rules <> [] ->
  UnitDefinition.generate_all self variation_name arg_value =
    (generated_examples ←
       UnitDefinition.replace_arg_examples self arg_value
         (UnitDefinition.generate_all_rules relevant_rules []);
     Ok (UnitDefinition.apply_casegen self generated_examples)).
Proof.
  intros Hsel Hne. unfold UnitDefinition.generate_all, UnitDefinition.relevant_rules_of.
  destruct variation_name as [variation_name|]; simpl in Hsel.
  - rewrite Hsel. simpl. by destruct relevant_rules.
  - injection Hsel as <-. simpl. by destruct (UnitDefinition.rules self).
Qed.

Lemma get_max_selected self (variation_name : option string) relevant_rules :
  selected_rules self variation_name = Some relevant_rules ->
  UnitDefinition.get_max_nb_generated_examples self variation_name =
    Ok (if UnitDefinition.casegen self
        then UnitDefinition.count_rules relevant_rules 0 * 2
        else UnitDefinition.count_rules relevant_rules 0).
Proof.
  intros Hsel.
  unfold UnitDefinition.get_max_nb_generated_examples,
    UnitDefinition.relevant_rules_of.
  destruct variation_name as [variation_name|]; simpl in Hsel.
  - by rewrite Hsel.
  - by injection Hsel as <-.
Qed.

(** On an empty selection [generate_all] raises where the count is zero. *)
Lemma generate_all_no_rules self (variation_name arg_value : option string) :
  selected_rules self variation_name = Some [] ->
  is_syntax_error (UnitDefinition.generate_all self variation_name arg_value) /\
  exists nb_possible_ex,
    UnitDefinition.get_max_nb_generated_examples self variation_name
    = Ok nb_possible_ex /\ nb_possible_ex = 0.
Proof.
  intros Hsel. rewrite (get_max_selected _ _ _ Hsel).
  split; [|exists 0; split; [by destruct (UnitDefinition.casegen self) | done]].
  unfold UnitDefinition.generate_all, UnitDefinition.relevant_rules_of.
  destruct variation_name as [variation_name|]; simpl in Hsel.
  - by rewrite Hsel.
  - injection Hsel as ->. done.
Qed.

Lemma replace_arg_absent self (arg_value : option string) (example_text : string) :
  arg_value = None \/ UnitDefinition.argument_identifier self = None ->
  UnitDefinition.replace_arg self arg_value example_text = Ok example_text.
Proof.
  unfold UnitDefinition.replace_arg. intros [->| ->]; [done|].
  by destruct arg_value.
Qed.

Lemma literal_substitution_absent self (arg_value : option string) :
  arg_value = None \/ UnitDefinition.argument_identifier self = None ->
  literal_substitution self arg_value.
Proof. intros [Hvalue|Harg] arg value Harg' Hvalue'; congruence. Qed.


(** Under a literal substitution the block raises nothing and is the two
    scans. *)
Lemma replace_arg_literal self (arg_value : option string) (example_text : string) :
  literal_substitution self arg_value ->
  UnitDefinition.replace_arg self arg_value example_text
  = Ok (replace_literal self arg_value example_text).
Proof.
  intros Hliteral. unfold UnitDefinition.replace_arg, replace_literal.
  destruct arg_value as [value|]; [|done].
  destruct (UnitDefinition.argument_identifier self) as [arg|] eqn:Harg; [|done].
  destruct (Hliteral arg value Harg eq_refl) as [Hregex Htemplate].
  unfold arg_regex_sub. by rewrite Hregex, Htemplate.
Qed.

Lemma replace_arg_examples_literal self (arg_value : option string)
    (generated_examples : list Example) :
  literal_substitution self arg_value ->
  UnitDefinition.replace_arg_examples self arg_value generated_examples
  = Ok ((fun ex => {| text := replace_literal self arg_value (text ex);
                      entities := entities ex |}) <$> generated_examples).
Proof.
  intros Hliteral.
  induction generated_examples as [|ex generated_examples IH]; [done|].
  cbn [UnitDefinition.replace_arg_examples].
  rewrite replace_arg_literal by done. by rewrite IH.
Qed.




(** *** Counting *)







End Exhaustive.

(** ** Correlated randgens *)

Lemma choose_elem {A : Type} (array : list A) (g : Rng) :
  array <> [] ->
  exists chosen g', choose array g = (Some chosen, g') /\ chosen ∈ array.
Proof.
  intros Hne. destruct array as [|first array]; [done|].
  unfold choose, randint.
  assert (0 + g 0 mod (length (first :: array) - 1 - 0 + 1) < length (first :: array))
    as Hlt.
  { cbn [length].
    pose proof (Nat.mod_upper_bound (g 0) (S (length array) - 1 - 0 + 1)). lia. }
  destruct (lookup_lt_is_Some_2 _ _ Hlt) as [chosen Hchosen].
  exists chosen, (fun n => g (S n)). rewrite Hchosen. split; [done|].
  by eapply list_elem_of_lookup_2.
Qed.


Section Randgens.
Context `{CharTable} `{Regex}.
Implicit Types (rule : list WordGroup.t) (token : WordGroup.t)
  (generated_randgens : Randgens) (g : Rng).






End Randgens.

(** ** Argument substitution *)

Lemma startswith_append (prefix rest : string) : startswith prefix (prefix +:+ rest) = true.
Proof.
  induction prefix as [|c prefix IH]; simpl; [by destruct rest|].
  by rewrite Ascii.eqb_refl, IH.
Qed.

Lemma startswith_head (c d : ascii) (prefix text : string) :
  c <> d -> startswith (String c prefix) (String d text) = false.
Proof. intros Hne. simpl. apply Ascii.eqb_neq in Hne. by rewrite Hne. Qed.

Lemma char_is_false (c : ascii) (d : ascii) :
  char_is c (String d "") = false <-> c <> d.
Proof.
  unfold char_is. rewrite String.eqb_neq. split; [congruence|].
  intros Hne [= ->]. done.
Qed.

Lemma regex_literal_plain (arg : string) :
  regex_literal arg = true ->
  str_contains_char ESCAPE_SYM arg = false /\ str_contains_char ARG_SYM arg = false.
Proof.
  induction arg as [|c arg IH]; simpl; [done|].
  intros [Hc Harg]%andb_true_iff. destruct (IH Harg) as [-> ->].
  rewrite !orb_false_r. apply negb_true_iff in Hc.
  unfold regex_special in Hc. simpl in Hc.
  repeat (apply orb_false_iff in Hc as [? Hc]).
  split; unfold char_is; by rewrite String.eqb_sym.
Qed.

(** Inside an occurrence the scan passes the characters one by one. *)
Lemma replace_scan_skip (lookbehind : bool) (old new passed rest : string) :
  str_contains_char ESCAPE_SYM passed = false ->
  replace_scan lookbehind old new (passed +:+ rest) (String.length passed) false
  = replace_scan lookbehind old new rest 0 false.
Proof.
  induction passed as [|c passed IH]; simpl; [by destruct rest|].
  intros [-> Hpassed]%orb_false_iff. by apply IH.
Qed.

(** Characters that do not start an occurrence are copied. *)
Lemma replace_scan_plain (lookbehind : bool) (first : ascii) (old new plain rest : string) :
  str_contains_char (String first "") plain = false ->
  str_contains_char ESCAPE_SYM plain = false ->
  replace_scan lookbehind (String first old) new (plain +:+ rest) 0 false
  = plain +:+ replace_scan lookbehind (String first old) new rest 0 false.
Proof.
  induction plain as [|c plain IH]; [done|].
  cbn [str_contains_char]. intros [Hc Hplain]%orb_false_iff [Hesc Hplain']%orb_false_iff.
  cbn [String.append replace_scan]. rewrite Hesc.
  apply char_is_false in Hc. rewrite startswith_head by done.
  rewrite andb_false_r. by rewrite IH.
Qed.

Lemma startswith_contains (sym old text : string) :
  startswith old text = true ->
  str_contains_char sym old = true -> str_contains_char sym text = true.
Proof.
  revert text. induction old as [|p old IH]; intros text; [done|].
  destruct text as [|c text]; [done|]. cbn [startswith str_contains_char].
  intros [Hp Hold]%andb_true_iff [Hsym|Hsym]%orb_true_iff.
  - apply Ascii.eqb_eq in Hp as <-. by rewrite Hsym.
  - rewrite (IH _ Hold Hsym). by rewrite orb_true_r.
Qed.

(** A pattern that holds a character that the text lacks has no
    occurrence. *)
Lemma replace_scan_absent (lookbehind : bool) (sym old new text : string)
    (escaped : bool) :
  str_contains_char sym old = true ->
  str_contains_char sym text = false ->
  replace_scan lookbehind old new text 0 escaped = text.
Proof.
  intros Hold. revert escaped.
  induction text as [|c text IH]; intros escaped; [done|].
  intros Htext. cbn [replace_scan].
  destruct (startswith old (String c text)) eqn:Hstart.
  { by rewrite (startswith_contains _ _ _ Hstart Hold) in Htext. }
  rewrite andb_false_r. f_equal. apply IH.
  cbn [str_contains_char] in Htext. by apply orb_false_iff in Htext as [_ ?].
Qed.

(** Without lookbehind the scan does not look at what came before. *)
Lemma replace_scan_escaped (old new text : string) (skip : nat) (escaped escaped' : bool) :
  replace_scan false old new text skip escaped
  = replace_scan false old new text skip escaped'.
Proof.
  revert skip escaped escaped'.
  induction text as [|c text IH]; intros skip escaped escaped'; [done|].
  cbn [replace_scan]. destruct skip as [|skip]; [|apply IH].
  cbn [andb negb]. by destruct (startswith old (String c text)).
Qed.

Lemma startswith_split (prefix text : string) :
  startswith prefix text = true -> exists rest, text = prefix +:+ rest.
Proof.
  revert text. induction prefix as [|p prefix IH]; intros text; [by exists text|].
  destruct text as [|c text]; [done|]. cbn [startswith].
  intros [Hp Hprefix]%andb_true_iff. apply Ascii.eqb_eq in Hp as ->.
  destruct (IH _ Hprefix) as [rest ->]. by exists rest.
Qed.

Lemma append_length (s1 s2 : string) :
  String.length (s1 +:+ s2) = String.length s1 + String.length s2.
Proof. induction s1 as [|c s1 IH]; simpl; [done | by rewrite IH]. Qed.

Lemma append_inj (prefix rest1 rest2 : string) :
  prefix +:+ rest1 = prefix +:+ rest2 -> rest1 = rest2.
Proof. induction prefix as [|c prefix IH]; simpl; [done|]. intros [= ?]. auto. Qed.

Section Substitution.
Context (arg arg_value : string).
Hypothesis arg_literal : regex_literal arg = true.
Hypothesis arg_value_literal : template_literal arg_value = true.

Lemma arg_regex_sub_reference (rest : string) :
  replace_scan true (String "$" arg) arg_value (String "$" (arg +:+ rest)) 0 false
  = arg_value +:+ replace_scan true (String "$" arg) arg_value rest 0 false.
Proof.
  destruct (regex_literal_plain arg arg_literal) as [Hesc _].
  cbn [replace_scan].
  change (String "$" (arg +:+ rest)) with (String "$" arg +:+ rest).
  rewrite startswith_append. cbn [negb andb String.length Nat.sub].
  rewrite Nat.sub_0_r. f_equal. by apply replace_scan_skip.
Qed.

(** Where no occurrence starts, the scan copies the character. *)
Lemma replace_scan_copy (lookbehind : bool) (old new : string) (c : ascii)
    (rest : string) (escaped : bool) :
  negb (lookbehind && escaped) && startswith old (String c rest) = false ->
  replace_scan lookbehind old new (String c rest) 0 escaped
  = String c (replace_scan lookbehind old new rest 0 (char_is c ESCAPE_SYM)).
Proof. intros Hstart. cbn [replace_scan]. by rewrite Hstart. Qed.

(** The two scans of the block, one after the other, do what the
    documentation gives, on every text. *)
Lemma scans_substituted (n : nat) (text : string) :
  String.length text <= n ->
  substituted arg arg_value text
    (replace_scan false (String "092" "$") "$"
       (replace_scan true (String "$" arg) arg_value text 0 false) 0 false).
Proof.
  revert text. induction n as [|n IH]; intros text Hlen.
  { destruct text; [constructor | simpl in Hlen; lia]. }
  destruct text as [|c rest]; [constructor|]. simpl in Hlen.
  destruct (char_is c ESCAPE_SYM) eqn:Hescape.
  - apply char_is_true in Hescape. injection Hescape as Hescape. subst c.
    destruct rest as [|d rest'].
    { apply substituted_other; [done | done | constructor]. }
    simpl in Hlen.
    rewrite (replace_scan_copy true) by done.
    change (char_is "092" ESCAPE_SYM) with true.
    destruct (char_is d ARG_SYM) eqn:Hmarker.
    + apply char_is_true in Hmarker. injection Hmarker as Hmarker. subst d.
      rewrite (replace_scan_copy true) by done.
      change (char_is "$" ESCAPE_SYM) with false.
      assert (forall scanned,
                replace_scan false (String "092" "$") "$"
                  (String "092" (String "$" scanned)) 0 false
                = "$" +:+ replace_scan false (String "092" "$") "$" scanned 0 false)
        as -> by done.
      apply (substituted_escaped arg arg_value rest'), IH. lia.
    + pose proof Hmarker as Hd. apply char_is_false in Hd.
      assert (replace_scan true (String "$" arg) arg_value (String d rest') 0 true
              = replace_scan true (String "$" arg) arg_value (String d rest') 0 false)
        as ->.
      { rewrite !(replace_scan_copy true); [done|..];
          rewrite startswith_head by congruence; by rewrite andb_false_r. }
      assert (startswith (String "092" "$")
                (String "092"
                   (replace_scan true (String "$" arg) arg_value (String d rest') 0
                      false)) = false) as Hstart.
      { rewrite (replace_scan_copy true)
          by (rewrite startswith_head by congruence; by rewrite andb_false_r).
        cbn [startswith]. rewrite Ascii.eqb_refl. cbn [andb].
        rewrite andb_true_r. apply Ascii.eqb_neq. congruence. }
      rewrite (replace_scan_copy false) by (by rewrite Hstart).
      rewrite (replace_scan_escaped _ _ _ 0 _ false).
      apply substituted_other.
      * cbn [startswith String.append]. change ESCAPE_SYM with (String "092" "").
        cbn [String.append startswith]. rewrite Ascii.eqb_refl. cbn [andb].
        rewrite andb_true_r. apply Ascii.eqb_neq. congruence.
      * done.
      * apply IH. simpl. lia.
  - destruct (startswith ("$" +:+ arg) (String c rest)) eqn:Hreference.
    + destruct (startswith_split _ _ Hreference) as [rest' Hrest].
      rewrite Hrest.
      change (("$" +:+ arg) +:+ rest') with (String "$" (arg +:+ rest')).
      rewrite arg_regex_sub_reference.
      apply negb_true_iff in arg_value_literal.
      rewrite (replace_scan_plain false "092" "$" "$" arg_value) by done.
      apply (substituted_reference arg arg_value rest'), IH.
      apply (f_equal String.length) in Hrest.
      rewrite append_length in Hrest. simpl in Hrest. lia.
    + rewrite (replace_scan_copy true)
        by (change (String "$" arg) with ("$" +:+ arg);
            by rewrite Hreference, andb_false_r).
      rewrite Hescape.
      pose proof Hescape as Hc. apply char_is_false in Hc.
      rewrite (replace_scan_copy false)
        by (by rewrite startswith_head by congruence).
      rewrite (replace_scan_escaped _ _ _ 0 _ false).
      apply substituted_other; [|done|apply IH; lia].
      apply startswith_head. congruence.
Qed.

(** What the documentation gives is one text. *)
Lemma substituted_cases (text result : string) :
  substituted arg arg_value text result ->
  match text with
  | "" => result = ""
  | String c rest =>
      (exists rest' result',
         text = ESCAPE_SYM +:+ "$" +:+ rest' /\ result = "$" +:+ result' /\
         substituted arg arg_value rest' result') \/
      (exists rest' result',
         text = "$" +:+ arg +:+ rest' /\ result = arg_value +:+ result' /\
         substituted arg arg_value rest' result') \/
      (startswith (ESCAPE_SYM +:+ "$") text = false /\
       startswith ("$" +:+ arg) text = false /\
       exists result',
         result = String c result' /\ substituted arg arg_value rest result')
  end.
Proof.
  intros Hsub. destruct Hsub as [|rest result Hrest|rest result Hrest|c rest result].
  - done.
  - left. by exists rest, result.
  - right. left. by exists rest, result.
  - right. right. split; [done|]. split; [done|]. by exists result.
Qed.

Lemma substituted_functional (n : nat) (text result1 result2 : string) :
  String.length text <= n ->
  substituted arg arg_value text result1 ->
  substituted arg arg_value text result2 ->
  result1 = result2.
Proof.
  revert text result1 result2.
  induction n as [|n IH]; intros text result1 result2 Hlen H1 H2;
    apply substituted_cases in H1, H2.
  { destruct text; [congruence | simpl in Hlen; lia]. }
  destruct text as [|c rest]; [congruence|]. simpl in Hlen.
  destruct H1 as [(r1 & o1 & Ht1 & -> & Hs1)|[(r1 & o1 & Ht1 & -> & Hs1)|
                  (He1 & Hr1 & o1 & -> & Hs1)]];
    destruct H2 as [(r2 & o2 & Ht2 & -> & Hs2)|[(r2 & o2 & Ht2 & -> & Hs2)|
                    (He2 & Hr2 & o2 & -> & Hs2)]].
  - rewrite Ht1 in Ht2. injection Ht2 as <-. f_equal.
    apply (IH r1); [|done..]. apply (f_equal String.length) in Ht1.
    simpl in Ht1. lia.
  - rewrite Ht1 in Ht2. discriminate Ht2.
  - rewrite Ht1 in He2.
    change (ESCAPE_SYM +:+ "$" +:+ r1) with ((ESCAPE_SYM +:+ "$") +:+ r1) in He2.
    by rewrite startswith_append in He2.
  - rewrite Ht1 in Ht2. discriminate Ht2.
  - rewrite Ht1 in Ht2.
    change ("$" +:+ arg +:+ r1) with (("$" +:+ arg) +:+ r1) in Ht2.
    change ("$" +:+ arg +:+ r2) with (("$" +:+ arg) +:+ r2) in Ht2.
    apply append_inj in Ht2 as <-. f_equal.
    apply (IH r1); [|done..]. apply (f_equal String.length) in Ht1.
    change ("$" +:+ arg +:+ r1) with (String "$" (arg +:+ r1)) in Ht1.
    cbn [String.length] in Ht1. rewrite append_length in Ht1. lia.
  - rewrite Ht1 in Hr2.
    change ("$" +:+ arg +:+ r1) with (("$" +:+ arg) +:+ r1) in Hr2.
    by rewrite startswith_append in Hr2.
  - rewrite Ht2 in He1.
    change (ESCAPE_SYM +:+ "$" +:+ r2) with ((ESCAPE_SYM +:+ "$") +:+ r2) in He1.
    by rewrite startswith_append in He1.
  - rewrite Ht2 in Hr1.
    change ("$" +:+ arg +:+ r2) with (("$" +:+ arg) +:+ r2) in Hr1.
    by rewrite startswith_append in Hr1.
  - f_equal. apply (IH rest); [lia | done..].
Qed.
End Substitution.

Section ArgumentSubstitution.
Context `{CharTable} `{Regex} {N : Type} `{RuleContent.Methods N}.
Implicit Types (self : UnitDefinition.t N).

(** On a selection that is not empty [generate_random] passes the text it
    would return without the value through the substitution. *)
Lemma generate_random_replace_arg self (variation_name arg_value : option string)
    relevant_rules (g : Rng) :
  selected_rules self variation_name = Some relevant_rules ->
  relevant_rules <> [] ->
  UnitDefinition.generate_random self variation_name arg_value g =
    ('(ex, g') ← UnitDefinition.generate_random self variation_name None g;
     example_text ← UnitDefinition.replace_arg self arg_value (text ex);
     Ok ({| text := example_text; entities := entities ex |}, g')).
Proof.
  intros Hsel Hne.
  destruct (choose_elem relevant_rules g Hne) as (rule & g1 & Hchoose & _).
  assert (forall value,
            UnitDefinition.generate_random self variation_name value g
            = let '(example_text, example_entities, _, g2) :=
                UnitDefinition.generate_random_tokens rule "" [] ∅ g1 in
              let '(example_text, g3) :=
                if UnitDefinition.casegen self && true
                then randomly_change_case example_text g2
                else (example_text, g2) in
              example_text ← UnitDefinition.replace_arg self value example_text;
              Ok ({| text := example_text; entities := example_entities |}, g3))
    as Hrandom.
  { intros value. unfold UnitDefinition.generate_random.
    destruct variation_name as [variation_name|]; simpl in Hsel.
    - rewrite Hsel. simpl. by rewrite Hchoose.
    - injection Hsel as <-. simpl. by rewrite Hchoose. }
  rewrite !Hrandom.
  destruct (UnitDefinition.generate_random_tokens rule "" [] ∅ g1)
    as [[[example_text example_entities] m] g2].
  by destruct (if UnitDefinition.casegen self && true
               then randomly_change_case example_text g2
               else (example_text, g2)).
Qed.

(** The argument substitution where the runtime reads the identifier and
    the value literally.  When an argument value without backslash is
    given and the unit declares an identifier without operator of regular
    expressions, the block [# Replace `arg`] returns, on every text, the
    text in which every marker followed by the identifier, with no
    backslash before it, has become the value, and every escaped marker a
    marker: an escaped reference is never substituted and ends as the
    marker followed by the identifier.  [generate_random] passes the text
    it would return without the value through the block, and
    [generate_all] each example before the duplication by case. *)
Theorem argument_substitution self (arg arg_value : string) :
  UnitDefinition.argument_identifier self = Some arg ->
  regex_literal arg = true ->
  template_literal arg_value = true ->
  (forall example_text,
     exists result,
       UnitDefinition.replace_arg self (Some arg_value) example_text = Ok result /\
       substituted arg arg_value example_text result /\
       forall result',
         substituted arg arg_value example_text result' -> result' = result) /\
  (forall variation_name relevant_rules g,
     selected_rules self variation_name = Some relevant_rules ->
     relevant_rules <> [] ->
     UnitDefinition.generate_random self variation_name (Some arg_value) g =
       ('(ex, g') ← UnitDefinition.generate_random self variation_name None g;
        example_text ←
          UnitDefinition.replace_arg self (Some arg_value) (text ex);
        Ok ({| text := example_text; entities := entities ex |}, g'))) /\
  (forall variation_name relevant_rules,
     selected_rules self variation_name = Some relevant_rules ->
     relevant_rules <> [] ->
     UnitDefinition.generate_all self variation_name (Some arg_value) =
       (generated_examples ←
          UnitDefinition.replace_arg_examples self (Some arg_value)
            (UnitDefinition.generate_all_rules relevant_rules []);
        Ok (UnitDefinition.apply_casegen self generated_examples))).
Proof.
  intros Harg Hliteral Hvalue. repeat split.
  - intros example_text. eexists. split; [|split].
    + unfold UnitDefinition.replace_arg, arg_regex_sub.
      rewrite Harg, Hliteral, Hvalue. done.
    + by apply (scans_substituted arg arg_value Hliteral Hvalue
                  (String.length example_text)).
    + intros result' Hresult.
      apply (substituted_functional arg arg_value (String.length example_text)
               example_text); [done | done |].
      by apply (scans_substituted arg arg_value Hliteral Hvalue
                  (String.length example_text)).
  - intros variation_name relevant_rules g Hsel Hne.
    by apply (generate_random_replace_arg _ _ _ relevant_rules).
  - intros variation_name relevant_rules Hsel Hne.
    by apply generate_all_selected.
Qed.
End ArgumentSubstitution.


(** ** The properties on examples *)

Section Examples.
#[local] Existing Instance ascii_table.
#[local] Existing Instance cpython_re.

Lemma with_leading_case_hello :
  with_leading_upper "  hello you" = "  Hello you" /\
  with_leading_lower "  Hello you" = "  hello you" /\
  with_leading_upper "   " = "   " /\
  with_leading_upper "3 apples" = "3 apples".
Proof. repeat split; reflexivity. Qed.



Lemma greet_named : named greet.
Proof.
  split; [done|]. intros variation_name [registered Hkey].
  change (UnitDefinition.variations greet)
    with (∅ : gmap string (list (list WordGroup.t))) in Hkey.
  by rewrite lookup_empty in Hkey.
Qed.

Lemma generate_all_greet :
  UnitDefinition.generate_all greet None None
  = Ok [word_example "x"; word_example "y"] /\
  UnitDefinition.get_max_nb_generated_examples greet None = Ok 2.
Proof. split; reflexivity. Qed.

Lemma unknown_variation_raises_greet :
  UnitDefinition.variations greet !! "formal" = None /\
  is_syntax_error
    (UnitDefinition.generate_random greet (Some "formal") None (fun _ => 0)) /\
  is_syntax_error (UnitDefinition.generate_all greet (Some "formal") None) /\
  is_syntax_error
    (UnitDefinition.get_max_nb_generated_examples greet (Some "formal")).
Proof.
  split; [reflexivity|].
  apply (unknown_variation_raises greet "formal" None (fun _ => 0)).
  reflexivity.
Defined.

Lemma add_rule_invariant_greet :
  named greet /\
  named (UnitDefinition.add_rule [WordGroup.word "z"] (Some "polite") greet).1 /\
  named (UnitDefinition.add_rules [[WordGroup.word "z"]] (Some "polite") greet).1.
Proof.
  split; [exact greet_named|].
  pose proof (add_rule_invariant greet [WordGroup.word "z"] [[WordGroup.word "z"]]
                (Some "polite") greet_named) as (Hrule & Hrules & _).
  by split.
Defined.

(** The empty variation name is refused, yet the rule has joined the rules
    of the unit by then. *)
Lemma add_rule_empty_name :
  let after := UnitDefinition.add_rule [WordGroup.word "z"] (Some "") greet in
  is_syntax_error after.2 /\
  UnitDefinition.rules after.1 = UnitDefinition.rules greet ++ [[WordGroup.word "z"]].
Proof. split; [exact I | reflexivity]. Qed.

(** C9 as stated fails: [add_rule] registers a rule under the reserved
    name [rules] and returns normally; the unit it leaves has a reserved
    variation name among its keys. *)
Lemma add_rule_reserved_name :
  let after := UnitDefinition.add_rule [WordGroup.word "z"] (Some "rules") greet in
  named_unreserved greet /\
  after.2 = Ok tt /\
  UnitDefinition.variations after.1 !! "rules" = Some [[WordGroup.word "z"]] /\
  ~ named_unreserved after.1.
Proof.
  split; [|split; [reflexivity|split; [reflexivity|]]].
  - split; [done|]. intros variation_name [registered Hkey].
    change (UnitDefinition.variations greet)
      with (∅ : gmap string (list (list WordGroup.t))) in Hkey.
    by rewrite lookup_empty in Hkey.
  - intros [_ Hkeys].
    destruct (Hkeys "rules") as [_ Hreserved]; [by eexists|].
    apply Hreserved. apply list_elem_of_further, list_elem_of_here.
Qed.






(** The superclass itself counts nothing and generates one empty example:
    the count of a unit made of such contents is zero. *)
Lemma get_max_nb_generated_examples_superclass :
  forall content : RuleContent.t,
    let self := UnitDefinition.init "unit" (Some [[content]]) None false in
    UnitDefinition.generate_all self None None = Ok [Example_init] /\
    UnitDefinition.get_max_nb_generated_examples self None = Ok 0.
Proof. intros content. split; reflexivity. Qed.


Lemma argument_substitution_hello :
  UnitDefinition.argument_identifier hello = Some "x" /\
  regex_literal "x" = true /\ template_literal "world" = true /\
  UnitDefinition.replace_arg hello (Some "world") "hello $x" = Ok "hello world" /\
  substituted "x" "world" "hello $x" "hello world" /\
  UnitDefinition.generate_all hello None (Some "world")
  = Ok [word_example "hello world"].
Proof.
  do 3 (split; [reflexivity|]).
  destruct (argument_substitution hello "x" "world" eq_refl eq_refl eq_refl)
    as (Htext & _ & _).
  destruct (Htext "hello $x") as (result & Hreplaced & Hsubstituted & _).
  split; [reflexivity|]. split; [|reflexivity].
  assert (result = "hello world") as <-; [|done].
  assert (UnitDefinition.replace_arg hello (Some "world") "hello $x"
          = Ok "hello world") as Hcomputed by reflexivity.
  congruence.
Qed.

Lemma argument_substitution_escaped :
  UnitDefinition.replace_arg hello (Some "world") "\$x" = Ok "$x" /\
  UnitDefinition.replace_arg hello (Some "world") "\$x and $x"
  = Ok "$x and world".
Proof. split; reflexivity. Qed.

(** C6.  The substitution hands the value to the runtime as a replacement
    template and not as a text: in the unit [hello$x] with the rule
    [hello $x], the value made of [a], a backslash, [n] and [b] does not
    take the place of the reference, a line feed stands where its
    backslash and its [n] should, and with the value made of a backslash
    and [1] both [generate_all] and [generate_random] raise [re.error]
    where the reference should become the value. *)
Theorem argument_substitution_divergence :
  UnitDefinition.argument_identifier hello = Some "x" /\
  UnitDefinition.generate_all hello None None = Ok [word_example "hello $x"] /\
  UnitDefinition.generate_all hello None (Some "a\nb")
  = Ok [word_example ("hello a" +:+ String "010" "b")] /\
  UnitDefinition.generate_all hello None (Some "a\nb")
  <> Ok [word_example "hello a\nb"] /\
  (exists g',
     UnitDefinition.generate_random hello None (Some "a\nb") (fun _ => 0)
     = Ok (word_example ("hello a" +:+ String "010" "b"), g')) /\
  UnitDefinition.generate_all hello None (Some "\1") = Raise ReError /\
  UnitDefinition.generate_random hello None (Some "\1") (fun _ => 0)
  = Raise ReError.
Proof.
  split; [reflexivity|]. split; [reflexivity|]. split; [reflexivity|].
  split; [discriminate|]. split; [by eexists|]. split; reflexivity.
Qed.
End Examples.

(** ** Sub-rules and choices *)

Lemma next_sub_rule_tokens_loop_flatten (tokens current_sub_rule : list string)
    (stop_with_char : option string) (reading_sub_rule : bool) :
  (reading_sub_rule = false -> current_sub_rule = []) ->
  concat (next_sub_rule_tokens_loop tokens current_sub_rule stop_with_char
            reading_sub_rule)
  ++ unfinished_sub_rule tokens current_sub_rule stop_with_char reading_sub_rule
  = current_sub_rule ++ tokens.
Proof.
  revert current_sub_rule stop_with_char reading_sub_rule.
  induction tokens as [|token rest IH];
    intros current_sub_rule stop_with_char reading_sub_rule Hidle; simpl.
  - by rewrite app_nil_r.
  - destruct reading_sub_rule.
    + case_bool_decide.
      * simpl. rewrite <- !app_assoc. by rewrite IH.
      * rewrite IH by done. by rewrite <- app_assoc.
    + rewrite (Hidle eq_refl). simpl.
      destruct (is_start_unit_sym token); [by rewrite IH|].
      destruct (String.eqb token UNIT_OPEN_SYM); [by rewrite IH|].
      destruct (String.eqb token CHOICE_OPEN_SYM); [by rewrite IH|].
      simpl. by rewrite IH.
Qed.

Lemma segmenter_state_step (current_sub_rule : list string)
    (stop_with_char : option string) (token : string) :
  segmenter_state current_sub_rule stop_with_char true ->
  Some token <> stop_with_char ->
  segmenter_state (current_sub_rule ++ [token]) stop_with_char true.
Proof.
  intros (first & close_sym & body & -> & -> & Hclose & Hbody) Hstop.
  exists first, close_sym, (body ++ [token]). do 3 (split; [done|]).
  rewrite elem_of_app, list_elem_of_singleton. intros [Hin| ->]; done.
Qed.

Lemma segmenter_state_open (token close_sym : string) :
  closing_of token = Some close_sym ->
  segmenter_state ([] ++ [token]) (Some close_sym) true.
Proof.
  intros Hclose. exists token, close_sym, []. do 3 (split; [done|]).
  by intros ?%elem_of_nil.
Qed.

Lemma closing_of_start (token : string) :
  is_start_unit_sym token = true -> closing_of token = Some UNIT_CLOSE_SYM.
Proof. unfold closing_of. by intros ->. Qed.

Lemma closing_of_choice (token : string) :
  is_start_unit_sym token = false -> String.eqb token CHOICE_OPEN_SYM = true ->
  closing_of token = Some CHOICE_CLOSE_SYM.
Proof. unfold closing_of. by intros -> ->. Qed.

Lemma closing_of_plain (token : string) :
  is_start_unit_sym token = false -> String.eqb token CHOICE_OPEN_SYM = false ->
  closing_of token = None.
Proof. unfold closing_of. by intros -> ->. Qed.

Lemma is_start_unit_sym_open (token : string) :
  is_start_unit_sym token = false -> String.eqb token UNIT_OPEN_SYM = false.
Proof. unfold is_start_unit_sym. by intros [[[-> _]%orb_false_iff _]%orb_false_iff _]%orb_false_iff. Qed.

Lemma unfinished_sub_rule_state (tokens current_sub_rule : list string)
    (stop_with_char : option string) (reading_sub_rule : bool) :
  segmenter_state current_sub_rule stop_with_char reading_sub_rule ->
  exists stop_with_char' reading_sub_rule',
    segmenter_state
      (unfinished_sub_rule tokens current_sub_rule stop_with_char reading_sub_rule)
      stop_with_char' reading_sub_rule'.
Proof.
  revert current_sub_rule stop_with_char reading_sub_rule.
  induction tokens as [|token rest IH];
    intros current_sub_rule stop_with_char reading_sub_rule Hstate; simpl.
  - by exists stop_with_char, reading_sub_rule.
  - destruct reading_sub_rule.
    + case_bool_decide as Hstop.
      * by apply IH.
      * apply IH. by apply segmenter_state_step.
    + simpl in Hstate. subst current_sub_rule.
      destruct (is_start_unit_sym token) eqn:Hstart.
      { apply IH. by apply segmenter_state_open, closing_of_start. }
      rewrite (is_start_unit_sym_open _ Hstart).
      destruct (String.eqb token CHOICE_OPEN_SYM) eqn:Hchoice.
      * apply IH. by apply segmenter_state_open, closing_of_choice.
      * by apply IH.
Qed.

(** X1. The sub-rules that [next_sub_rule_tokens] yields, put one after the
    other, are the tokens up to the sub-rule that is unfinished when the
    tokens end, which is never yielded: nothing else is lost, added or
    reordered.  The unfinished sub-rule is empty, or starts with an opening
    token and lacks the token that closes it. *)
Theorem next_sub_rule_tokens_flatten (tokens : list string) :
  let unfinished := unfinished_sub_rule tokens [] None false in
  concat (next_sub_rule_tokens tokens) ++ unfinished = tokens /\
  (unfinished = [] \/
   exists first close_sym body,
     unfinished = first :: body /\ closing_of first = Some close_sym /\
     close_sym ∉ body).
Proof.
  intros unfinished. split.
  - apply (next_sub_rule_tokens_loop_flatten tokens [] None false). done.
  - destruct (unfinished_sub_rule_state tokens [] None false eq_refl)
      as (stop' & [|] & Hstate).
    + right. destruct Hstate as (first & close_sym & body & ? & _ & ? & ?).
      by exists first, close_sym, body.
    + by left.
Qed.

Lemma next_sub_rule_tokens_loop_shaped (tokens current_sub_rule : list string)
    (stop_with_char : option string) (reading_sub_rule : bool) :
  segmenter_state current_sub_rule stop_with_char reading_sub_rule ->
  Forall sub_rule_shaped
    (next_sub_rule_tokens_loop tokens current_sub_rule stop_with_char
       reading_sub_rule).
Proof.
  revert current_sub_rule stop_with_char reading_sub_rule.
  induction tokens as [|token rest IH];
    intros current_sub_rule stop_with_char reading_sub_rule Hstate; simpl.
  - constructor.
  - destruct reading_sub_rule.
    + case_bool_decide as Hstop.
      * constructor; [|by apply IH].
        destruct Hstate as (first & close_sym & body & -> & -> & Hclose & Hbody).
        injection Hstop as ->. simpl. rewrite Hclose. by exists body.
      * apply IH. by apply segmenter_state_step.
    + simpl in Hstate. subst current_sub_rule.
      destruct (is_start_unit_sym token) eqn:Hstart.
      { apply IH. by apply segmenter_state_open, closing_of_start. }
      rewrite (is_start_unit_sym_open _ Hstart).
      destruct (String.eqb token CHOICE_OPEN_SYM) eqn:Hchoice.
      * apply IH. by apply segmenter_state_open, closing_of_choice.
      * constructor; [|by apply IH]. simpl.
        by rewrite closing_of_plain.
Qed.

Lemma sub_rule_shaped_kinds (sub_rule_tokens : list string) :
  sub_rule_shaped sub_rule_tokens -> exists kind, sub_rule_kinds sub_rule_tokens = [kind].
Proof.
  destruct sub_rule_tokens as [|first others]; [done|]. simpl.
  unfold sub_rule_kinds, is_sub_rule_word, is_sub_rule_word_group,
    is_sub_rule_choice, is_sub_rule_alias_ref, is_sub_rule_slot_ref,
    is_sub_rule_intent_ref, closing_of, is_start_unit_sym. simpl.
  destruct (String.eqb_spec first UNIT_OPEN_SYM) as [->|Hopen]; simpl.
  { intros (body & -> & _). rewrite length_app. simpl.
    replace (length body + 1 =? 0) with false by (symmetry; apply Nat.eqb_neq; lia).
    by eexists. }
  destruct (String.eqb_spec first ALIAS_SYM) as [->|Halias]; simpl.
  { intros (body & -> & _). rewrite length_app. simpl.
    replace (length body + 1 =? 0) with false by (symmetry; apply Nat.eqb_neq; lia).
    by eexists. }
  destruct (String.eqb_spec first SLOT_SYM) as [->|Hslot]; simpl.
  { intros (body & -> & _). rewrite length_app. simpl.
    replace (length body + 1 =? 0) with false by (symmetry; apply Nat.eqb_neq; lia).
    by eexists. }
  destruct (String.eqb_spec first INTENT_SYM) as [->|Hintent]; simpl.
  { intros (body & -> & _). rewrite length_app. simpl.
    replace (length body + 1 =? 0) with false by (symmetry; apply Nat.eqb_neq; lia).
    by eexists. }
  destruct (String.eqb_spec first CHOICE_OPEN_SYM) as [->|Hchoice]; simpl.
  { intros (body & -> & _). rewrite length_app. simpl.
    replace (length body + 1 =? 0) with false by (symmetry; apply Nat.eqb_neq; lia).
    by eexists. }
  intros ->. simpl. by eexists.
Qed.

(** X2. Every sub-rule that [next_sub_rule_tokens] yields is one plain token
    or goes from an opening token to the first token that closes it, and
    exactly one of the six classifiers [is_sub_rule_word],
    [is_sub_rule_word_group], [is_sub_rule_choice], [is_sub_rule_alias_ref],
    [is_sub_rule_slot_ref] and [is_sub_rule_intent_ref] accepts it. *)
Theorem next_sub_rule_tokens_classified (tokens sub_rule_tokens : list string) :
  sub_rule_tokens ∈ next_sub_rule_tokens tokens ->
  sub_rule_shaped sub_rule_tokens /\
  exists kind, sub_rule_kinds sub_rule_tokens = [kind].
Proof.
  intros Hin.
  pose proof (next_sub_rule_tokens_loop_shaped tokens [] None false eq_refl) as Hall.
  rewrite Forall_forall in Hall. specialize (Hall _ Hin).
  split; [done | by apply sub_rule_shaped_kinds].
Qed.

Lemma next_choice_tokens_loop_cons (tokens current_choice : list string) :
  exists choice choices,
    next_choice_tokens_loop tokens current_choice = choice :: choices.
Proof.
  revert current_choice.
  induction tokens as [|token rest IH]; intros current_choice; simpl; [by eexists _, _|].
  destruct (String.eqb token CASE_GEN_SYM); [apply IH|].
  destruct (String.eqb token RAND_GEN_SYM); [by eexists _, _|].
  destruct (String.eqb token CHOICE_SEP); [by eexists _, _ | apply IH].
Qed.

Lemma join_choices_cons (choice next : list string) (choices : list (list string)) :
  join_choices (choice :: next :: choices)
  = choice ++ CHOICE_SEP :: join_choices (next :: choices).
Proof. reflexivity. Qed.

Lemma next_choice_tokens_loop_join (tokens current_choice : list string) :
  join_choices (next_choice_tokens_loop tokens current_choice)
  = current_choice ++ filter (fun token => not_casegen token) (before_randgen tokens).
Proof.
  revert current_choice.
  induction tokens as [|token rest IH]; intros current_choice; simpl.
  - by rewrite app_nil_r.
  - unfold not_casegen at 1.
    destruct (String.eqb_spec token CASE_GEN_SYM) as [->|Hcase]; simpl.
    { rewrite IH. rewrite filter_cons_False; [done|]. by rewrite Is_true_false. }
    destruct (String.eqb token RAND_GEN_SYM); simpl; [by rewrite app_nil_r|].
    rewrite filter_cons_True
      by (unfold not_casegen; apply Is_true_true, negb_true_iff, String.eqb_neq; done).
    destruct (String.eqb_spec token CHOICE_SEP) as [->|Hsep].
    + destruct (next_choice_tokens_loop_cons rest []) as (choice & choices & Hloop).
      pose proof (IH []) as IHnil. rewrite Hloop in *.
      rewrite join_choices_cons. by rewrite IHnil.
    + rewrite IH. by rewrite <- app_assoc.
Qed.

(** X3. [next_choice_tokens] splits and loses nothing but what it is meant
    to drop: the choices it yields, put back one after the other with the
    separator between them, are the tokens before the first
    random-generation marker without the casegen markers. *)
Theorem next_choice_tokens_join (choice_interior_tokens : list string) :
  join_choices (next_choice_tokens choice_interior_tokens)
  = filter (fun token => not_casegen token) (before_randgen choice_interior_tokens).
Proof. apply (next_choice_tokens_loop_join choice_interior_tokens []). Qed.

Lemma next_choice_tokens_loop_clean (tokens current_choice : list string) :
  Forall (fun token => token ∉ [CASE_GEN_SYM; RAND_GEN_SYM; CHOICE_SEP]) current_choice ->
  Forall (Forall (fun token => token ∉ [CASE_GEN_SYM; RAND_GEN_SYM; CHOICE_SEP]))
    (next_choice_tokens_loop tokens current_choice) /\
  length (next_choice_tokens_loop tokens current_choice)
  = 1 + list_count CHOICE_SEP (before_randgen tokens).
Proof.
  revert current_choice.
  induction tokens as [|token rest IH]; intros current_choice Hclean; simpl.
  - split; [by repeat constructor | done].
  - destruct (String.eqb_spec token CASE_GEN_SYM) as [->|Hcase]; simpl.
    { by apply IH. }
    destruct (String.eqb_spec token RAND_GEN_SYM) as [->|Hrand]; simpl.
    { split; [by repeat constructor | done]. }
    destruct (String.eqb_spec token CHOICE_SEP) as [->|Hsep]; simpl.
    + destruct (IH []) as [Hall Hlen]; [constructor|].
      split; [by constructor | by rewrite Hlen].
    + apply IH. apply Forall_app. split; [done|].
      constructor; [|constructor].
      rewrite !elem_of_cons, elem_of_nil. intros [?|[?|[?|[]]]]; done.
Qed.

(** X4. [next_choice_tokens] always yields at least one choice, one more
    than there are separators before the first random-generation marker,
    and no choice holds a separator, a casegen marker or a
    random-generation marker. *)
Theorem next_choice_tokens_choices (choice_interior_tokens : list string) :
  length (next_choice_tokens choice_interior_tokens)
  = 1 + list_count CHOICE_SEP (before_randgen choice_interior_tokens) /\
  Forall (Forall (fun token => token ∉ [CASE_GEN_SYM; RAND_GEN_SYM; CHOICE_SEP]))
    (next_choice_tokens choice_interior_tokens).
Proof.
  destruct (next_choice_tokens_loop_clean choice_interior_tokens [])
    as [Hall Hlen]; [constructor | done].
Qed.

Lemma find_modifiers_choice_loop_randgen (remaining : list string)
    (modifiers : ChoiceModifiersRepr) :
  choice_casegen (find_modifiers_choice_loop remaining modifiers)
  = choice_casegen modifiers /\
  (choice_randgen (find_modifiers_choice_loop remaining modifiers) = true <->
   choice_randgen modifiers = true \/ RAND_GEN_SYM ∈ remaining).
Proof.
  revert modifiers.
  induction remaining as [|token rest IH]; intros modifiers; simpl.
  - split; [done|]. rewrite elem_of_nil. tauto.
  - rewrite elem_of_cons.
    destruct (String.eqb_spec token RAND_GEN_SYM) as [->|Hrand].
    + destruct (IH {| choice_casegen := choice_casegen modifiers;
                      choice_randgen := true |}) as [-> ->]. simpl.
      split; [done|]. tauto.
    + destruct (IH modifiers) as [-> ->]. split; [done|].
      split; [tauto|]. intros [?|[?|?]]; [tauto | congruence | tauto].
Qed.

(** X5. On a choice interior that is not empty, [find_modifiers_choice]
    reports the casegen exactly when the first token is the casegen marker
    and the randgen exactly when a random-generation marker occurs, which
    is when [next_choice_tokens] stops before the end of the tokens; on the
    empty interior it raises an [IndexError]. *)
Theorem find_modifiers_choice_markers (tokens_inside_choice : list string) :
  match tokens_inside_choice with
  | [] => find_modifiers_choice tokens_inside_choice = Raise IndexError
  | first :: _ =>
      exists modifiers,
        find_modifiers_choice tokens_inside_choice = Ok modifiers /\
        choice_casegen modifiers = String.eqb first CASE_GEN_SYM /\
        (choice_randgen modifiers = true <-> RAND_GEN_SYM ∈ tokens_inside_choice) /\
        (choice_randgen modifiers = true <->
         before_randgen tokens_inside_choice <> tokens_inside_choice)
  end.
Proof.
  destruct tokens_inside_choice as [|first rest]; [done|].
  assert (RAND_GEN_SYM ∈ first :: rest <->
          before_randgen (first :: rest) <> first :: rest) as Hbefore.
  { generalize (first :: rest). intros tokens.
    induction tokens as [|token tokens IH]; simpl.
    - rewrite elem_of_nil. tauto.
    - rewrite elem_of_cons.
      destruct (String.eqb_spec token RAND_GEN_SYM) as [->|Hrand].
      + split; [done | by left].
      + rewrite IH. split.
        * intros [?|Hne]; [congruence|]. congruence.
        * intros Hne. right. congruence. }
  assert (find_modifiers_choice (first :: rest)
          = Ok (find_modifiers_choice_loop
                  (if String.eqb first CASE_GEN_SYM then rest else first :: rest)
                  {| choice_casegen := String.eqb first CASE_GEN_SYM;
                     choice_randgen := false |})) as ->.
  { unfold find_modifiers_choice. simpl.
    by destruct (String.eqb first CASE_GEN_SYM). }
  eexists. split; [done|].
  match goal with
  | |- context [find_modifiers_choice_loop ?l ?m] =>
      destruct (find_modifiers_choice_loop_randgen l m) as [-> Hrand]
  end.
  simpl in Hrand. split; [done|].
  match goal with
  | |- (?r = true <-> _) /\ _ =>
      assert (r = true <-> RAND_GEN_SYM ∈ first :: rest) as Hiff
  end.
  { rewrite Hrand, elem_of_cons.
    destruct (String.eqb_spec first CASE_GEN_SYM) as [->|Hcase].
    - split; [intros [?|?]; [done | by right]|].
      intros [?|?]; [done | by right].
    - rewrite elem_of_cons. split; [intros [?|?]; done | by right]. }
  split; [done|]. by rewrite Hiff.
Qed.

Lemma prefix_of_sublist {A : Type} (l k : list A) :
  l `prefix_of` k -> l `sublist_of` k.
Proof. intros [rest ->]. by apply sublist_inserts_r. Qed.

Lemma find_words_loop_before (tokens words : list string) :
  find_words_loop tokens words
  = words ++ filter (fun token => not_casegen token) (before_modifier tokens).
Proof.
  revert words.
  induction tokens as [|token rest IH]; intros words; simpl.
  - by rewrite app_nil_r.
  - unfold not_casegen at 1.
    destruct (String.eqb_spec token CASE_GEN_SYM) as [->|Hcase]; simpl.
    { rewrite IH. rewrite filter_cons_False; [done|]. by rewrite Is_true_false. }
    destruct (String.eqb token RAND_GEN_SYM || String.eqb token VARIATION_SYM
              || String.eqb token ARG_SYM); simpl; [by rewrite app_nil_r|].
    rewrite filter_cons_True
      by (unfold not_casegen; apply Is_true_true, negb_true_iff, String.eqb_neq; done).
    rewrite IH. by rewrite <- app_assoc.
Qed.

Lemma before_modifier_plain (tokens : list string) :
  Forall (fun token => token ∉ [RAND_GEN_SYM; VARIATION_SYM; ARG_SYM]) tokens ->
  before_modifier tokens = tokens.
Proof.
  induction 1 as [|token tokens Htoken _ IH]; [done|]. simpl.
  rewrite !elem_of_cons, elem_of_nil in Htoken.
  destruct (String.eqb_spec token RAND_GEN_SYM); [tauto|].
  destruct (String.eqb_spec token VARIATION_SYM); [tauto|].
  destruct (String.eqb_spec token ARG_SYM); [tauto|]. simpl. by rewrite IH.
Qed.

Lemma before_modifier_spec (tokens : list string) :
  before_modifier tokens `prefix_of` tokens /\
  Forall (fun token => token ∉ [RAND_GEN_SYM; VARIATION_SYM; ARG_SYM])
    (before_modifier tokens).
Proof.
  induction tokens as [|token tokens [IHprefix IHall]]; simpl.
  - split; [done | constructor].
  - destruct (String.eqb_spec token RAND_GEN_SYM); simpl;
      [split; [apply prefix_nil | constructor]|].
    destruct (String.eqb_spec token VARIATION_SYM); simpl;
      [split; [apply prefix_nil | constructor]|].
    destruct (String.eqb_spec token ARG_SYM); simpl;
      [split; [apply prefix_nil | constructor]|].
    split; [by apply prefix_cons|]. constructor; [|done].
    rewrite !elem_of_cons, elem_of_nil. tauto.
Qed.

(** X6. [find_words] returns the tokens that come before the first
    random-generation, variation or argument marker, without the casegen
    markers and in their order: none of the four markers is among the
    words, and a token list without any of them is returned as it is. *)
Theorem find_words_markers (tokens_inside_word_group : list string) :
  let words := find_words tokens_inside_word_group in
  words = filter (fun token => not_casegen token)
            (before_modifier tokens_inside_word_group) /\
  words `sublist_of` tokens_inside_word_group /\
  Forall (fun word =>
            word ∉ [CASE_GEN_SYM; RAND_GEN_SYM; VARIATION_SYM; ARG_SYM]) words /\
  (Forall (fun token =>
             token ∉ [CASE_GEN_SYM; RAND_GEN_SYM; VARIATION_SYM; ARG_SYM])
     tokens_inside_word_group ->
   words = tokens_inside_word_group).
Proof.
  intros words. subst words. unfold find_words.
  rewrite find_words_loop_before. simpl.
  destruct (before_modifier_spec tokens_inside_word_group) as [Hprefix Hall].
  split; [done|]. split; [|split].
  - etrans; [apply sublist_filter|]. by apply prefix_of_sublist.
  - apply Forall_forall. intros word [Hcase Hin]%list_elem_of_filter.
    rewrite Forall_forall in Hall. specialize (Hall _ Hin).
    rewrite !elem_of_cons, elem_of_nil in *.
    unfold not_casegen in Hcase. apply Is_true_true, negb_true_iff, String.eqb_neq in Hcase.
    tauto.
  - intros Hplain. rewrite before_modifier_plain.
    + clear Hprefix Hall.
      induction Hplain as [|token tokens Htoken _ IH]; [done|].
      rewrite filter_cons_True; [by rewrite IH|].
      unfold not_casegen. apply Is_true_true, negb_true_iff, String.eqb_neq.
      intros ->. apply Htoken. by left.
    + eapply Forall_impl; [done|]. intros token Htoken Hin. apply Htoken.
      by right.
Qed.

(** ** Names and modifiers of declarations *)

Lemma check_declaration_validity_ok (tokens : list string) :
  check_declaration_validity tokens = Ok tt ->
  tokens <> [] /\ ~ declaration_violation tokens.
Proof.
  intros Hok. assert (tokens <> []) as Hne by (by intros ->).
  split; [done|].
  destruct (check_declaration_validity_decides tokens Hne) as [[Herr _]|[_ Hno]];
    [by rewrite Hok in Herr | done].
Qed.

(** X7. On a declaration interior that [check_declaration_validity] accepts,
    [find_name] returns normally, and the name it returns is a token of the
    interior that is not a special symbol: the first token, or the second
    when the first is the casegen marker. *)
Theorem find_name_valid (tokens_inside_unit : list string) :
  check_declaration_validity tokens_inside_unit = Ok tt ->
  exists name,
    find_name tokens_inside_unit = Ok name /\
    is_special_sym name = false /\
    name ∈ tokens_inside_unit /\
    tokens_inside_unit !!
      (if bool_decide (head tokens_inside_unit = Some CASE_GEN_SYM) then 1 else 0)
    = Some name.
Proof.
  intros [Hne Hno]%check_declaration_validity_ok.
  assert (~ unnamed_unit tokens_inside_unit) as Hnamed
    by (intros ?; apply Hno; by do 2 right; left).
  destruct tokens_inside_unit as [|first rest]; [done|].
  unfold find_name. simpl in *.
  destruct (String.eqb_spec first CASE_GEN_SYM) as [->|Hcase].
  - destruct rest as [|second rest]; [done|].
    exists second. split; [done|].
    split; [by destruct (is_special_sym second)|].
    split; [by right; left|]. by rewrite bool_decide_true.
  - exists first. split; [done|].
    split; [by destruct (is_special_sym first)|]. split; [by left|].
    rewrite bool_decide_false; [done|]. congruence.
Qed.

Lemma find_name_unnamed :
  find_name [] = Raise IndexError /\ find_name [CASE_GEN_SYM] = Raise IndexError.
Proof. split; reflexivity. Qed.

Lemma is_value_marker (token : string) :
  is_value token = false <-> token = VARIATION_SYM \/ token = ARG_SYM.
Proof.
  unfold is_value. rewrite andb_false_iff, !negb_false_iff, !String.eqb_eq. tauto.
Qed.

Lemma list_count_cons_ne (sym token : string) (tokens : list string) :
  token <> sym -> list_count sym (token :: tokens) = list_count sym tokens.
Proof. intros Hne. simpl. apply String.eqb_neq in Hne. by rewrite Hne. Qed.

Lemma list_count_cons_eq (sym : string) (tokens : list string) :
  list_count sym (sym :: tokens) = S (list_count sym tokens).
Proof. simpl. by rewrite String.eqb_refl. Qed.

Lemma find_modifiers_decl_loop_read (n : nat) (remaining : list string)
    (modifiers : UnitDeclarationModifiersRepr) :
  length remaining <= n ->
  markers_named remaining = true ->
  list_count VARIATION_SYM remaining <= 1 ->
  list_count ARG_SYM remaining <= 1 ->
  decl_modifiers_read remaining modifiers
    (find_modifiers_decl_loop remaining modifiers false false).
Proof.
  revert remaining modifiers.
  induction n as [|n IH]; intros remaining modifiers Hlen Hnamed Hvar Harg.
  { destruct remaining; [|simpl in Hlen; lia].
    repeat split; try done; by intros i Hi. }
  destruct remaining as [|token rest].
  { repeat split; try done; by intros i Hi. }
  cbn [markers_named] in Hnamed. apply andb_true_iff in Hnamed as [Htoken Hrest].
  destruct (String.eqb_spec token VARIATION_SYM) as [->|Hnotvar].
  - (* the variation marker and its name *)
    destruct rest as [|name rest]; [done|]. simpl in Htoken.
    cbn [markers_named] in Hrest. apply andb_true_iff in Hrest as [_ Hrest].
    assert (is_value name = true) as Hvalue by done.
    assert (name <> VARIATION_SYM /\ name <> ARG_SYM) as [Hn1 Hn2].
    { unfold is_value in Hvalue.
      apply andb_true_iff in Hvalue as [?%negb_true_iff%String.eqb_neq
                                          ?%negb_true_iff%String.eqb_neq]. done. }
    rewrite list_count_cons_eq, list_count_cons_ne in Hvar by done.
    rewrite !list_count_cons_ne in Harg by done.
    assert (VARIATION_SYM ∉ rest) as Hnovar by (apply list_count_zero; lia).
    cbn [find_modifiers_decl_loop]. rewrite String.eqb_refl.
    apply String.eqb_neq in Hn1 as Hn1', Hn2 as Hn2'. rewrite Hn1', Hn2'.
    destruct (IH rest
                {| decl_casegen := decl_casegen modifiers;
                   decl_variation_name := Some name;
                   decl_argument_name := decl_argument_name modifiers |})
      as (Hcase & _ & Hkeep & Hargs & Hnoarg);
      [simpl in Hlen; lia | done | lia | done |].
    split; [done|]. split; [|split; [|split]].
    + intros [|[|i]] Hi; simpl in Hi.
      * by rewrite Hkeep.
      * congruence.
      * destruct Hnovar. by eapply list_elem_of_lookup_2.
    + intros Hno. destruct Hno. by left.
    + intros [|[|i]] Hi; simpl in Hi; [done | congruence |]. by apply Hargs.
    + intros Hno. rewrite Hnoarg; [done|]. intros Hin. apply Hno. by do 2 right.
  - destruct (String.eqb_spec token ARG_SYM) as [->|Hnotarg].
    + (* the argument marker and its name *)
      destruct rest as [|name rest]; [done|]. simpl in Htoken.
      cbn [markers_named] in Hrest. apply andb_true_iff in Hrest as [_ Hrest].
      assert (is_value name = true) as Hvalue by done.
      assert (name <> VARIATION_SYM /\ name <> ARG_SYM) as [Hn1 Hn2].
      { unfold is_value in Hvalue.
        apply andb_true_iff in Hvalue as [?%negb_true_iff%String.eqb_neq
                                            ?%negb_true_iff%String.eqb_neq]. done. }
      rewrite list_count_cons_eq, list_count_cons_ne in Harg by done.
      rewrite !list_count_cons_ne in Hvar by done.
      assert (ARG_SYM ∉ rest) as Hnoarg by (apply list_count_zero; lia).
      cbn [find_modifiers_decl_loop].
      apply String.eqb_neq in Hnotvar as Hnotvar'. rewrite Hnotvar', String.eqb_refl.
      apply String.eqb_neq in Hn1 as Hn1', Hn2 as Hn2'. rewrite Hn1', Hn2'.
      cbn [decl_casegen decl_variation_name decl_argument_name].
      destruct (IH rest
                  {| decl_casegen := decl_casegen modifiers;
                     decl_variation_name := decl_variation_name modifiers;
                     decl_argument_name := Some name |})
        as (Hcase & Hvars & Hnovar & _ & Hkeep);
        [simpl in Hlen; lia | done | done | lia |].
      split; [done|]. split; [|split; [|split]].
      * intros [|[|i]] Hi; simpl in Hi; [done | congruence |]. by apply Hvars.
      * intros Hno. rewrite Hnovar; [done|]. intros Hin. apply Hno. by do 2 right.
      * intros [|[|i]] Hi; simpl in Hi.
        -- by rewrite Hkeep.
        -- congruence.
        -- destruct Hnoarg. by eapply list_elem_of_lookup_2.
      * intros Hno. destruct Hno. by left.
    + (* any other token *)
      rewrite !list_count_cons_ne in Hvar, Harg by done.
      cbn [find_modifiers_decl_loop].
      apply String.eqb_neq in Hnotvar as Hnotvar', Hnotarg as Hnotarg'.
      rewrite Hnotvar', Hnotarg'.
      destruct (IH rest modifiers) as (Hcase & Hvars & Hnovar & Hargs & Hnoarg);
        [simpl in Hlen; lia | done | done | done |].
      split; [done|]. split; [|split; [|split]].
      * intros [|i] Hi; simpl in Hi; [congruence|]. by apply Hvars.
      * intros Hno. apply Hnovar. intros Hin. apply Hno. by right.
      * intros [|i] Hi; simpl in Hi; [congruence|]. by apply Hargs.
      * intros Hno. apply Hnoarg. intros Hin. apply Hno. by right.
Qed.

Lemma is_special_sym_value (token : string) :
  is_special_sym token = false -> is_value token = true.
Proof.
  intros Hplain. unfold is_value.
  destruct (String.eqb_spec token VARIATION_SYM) as [->|_]; [done|].
  destruct (String.eqb_spec token ARG_SYM) as [->|_]; done.
Qed.

Lemma markers_named_lookup (tokens : list string) :
  (forall i, tokens !! i = Some VARIATION_SYM \/ tokens !! i = Some ARG_SYM ->
     exists name, tokens !! S i = Some name /\ is_special_sym name = false) ->
  markers_named tokens = true.
Proof.
  induction tokens as [|token rest IH]; intros Hnamed; [done|].
  cbn [markers_named]. apply andb_true_iff. split.
  - destruct (is_value token) eqn:Hvalue; [done|]. simpl.
    apply is_value_marker in Hvalue.
    destruct (Hnamed 0) as (name & Hname & Hplain).
    { simpl. destruct Hvalue as [-> | ->]; [by left | by right]. }
    destruct rest as [|next rest]; [done|]. simpl in Hname.
    injection Hname as ->. by apply is_special_sym_value.
  - apply IH. intros i Hi. apply (Hnamed (S i)). done.
Qed.

(** X8. On a declaration interior that [check_declaration_validity] accepts,
    [find_modifiers_decl] returns normally with the casegen set exactly
    when the first token is the casegen marker, the variation name equal to
    the token after the variation marker and the argument name equal to the
    token after the argument marker, each absent when its marker is; the
    names it reads are not special symbols and the variation name is not
    reserved. *)
Theorem find_modifiers_decl_valid (tokens_inside_decl : list string) :
  check_declaration_validity tokens_inside_decl = Ok tt ->
  exists modifiers,
    find_modifiers_decl tokens_inside_decl = Ok modifiers /\
    decl_casegen modifiers
    = bool_decide (head tokens_inside_decl = Some CASE_GEN_SYM) /\
    (forall i, tokens_inside_decl !! i = Some VARIATION_SYM ->
       decl_variation_name modifiers = tokens_inside_decl !! S i) /\
    (VARIATION_SYM ∉ tokens_inside_decl -> decl_variation_name modifiers = None) /\
    (forall i, tokens_inside_decl !! i = Some ARG_SYM ->
       decl_argument_name modifiers = tokens_inside_decl !! S i) /\
    (ARG_SYM ∉ tokens_inside_decl -> decl_argument_name modifiers = None) /\
    (forall variation_name,
       decl_variation_name modifiers = Some variation_name ->
       is_special_sym variation_name = false /\
       variation_name ∉ RESERVED_VARIATION_NAMES) /\
    (forall argument_name,
       decl_argument_name modifiers = Some argument_name ->
       is_special_sym argument_name = false).
Proof.
  intros [Hne Hno]%check_declaration_validity_ok.
  unfold declaration_violation in Hno.
  assert (list_count VARIATION_SYM tokens_inside_decl <= 1) as Hvar by (apply Nat.nlt_ge; tauto).
  assert (list_count ARG_SYM tokens_inside_decl <= 1) as Harg by (apply Nat.nlt_ge; tauto).
  assert (forall i, tokens_inside_decl !! i = Some VARIATION_SYM ->
            exists name, tokens_inside_decl !! S i = Some name /\
                         is_special_sym name = false /\
                         name ∉ RESERVED_VARIATION_NAMES) as Hvarname.
  { intros i Hi.
    destruct (tokens_inside_decl !! S i) as [name|] eqn:Hname.
    - exists name. split; [done|]. split.
      + destruct (is_special_sym name) eqn:Hspecial; [|done].
        destruct Hno. do 4 right. left. exists i. split; [done|]. left.
        unfold no_name_after. by rewrite Hname.
      + intros Hres. apply Hno. do 4 right. left. exists i. split; [done|].
        right. by exists name.
    - destruct Hno. do 4 right. left. exists i. split; [done|]. left.
      unfold no_name_after. by rewrite Hname. }
  assert (forall i, tokens_inside_decl !! i = Some ARG_SYM ->
            exists name, tokens_inside_decl !! S i = Some name /\
                         is_special_sym name = false) as Hargname.
  { intros i Hi.
    destruct (tokens_inside_decl !! S i) as [name|] eqn:Hname.
    - exists name. split; [done|].
      destruct (is_special_sym name) eqn:Hspecial; [|done].
      destruct Hno. do 6 right. left. exists i. split; [done|].
      unfold no_name_after. by rewrite Hname.
    - destruct Hno. do 6 right. left. exists i. split; [done|].
      unfold no_name_after. by rewrite Hname. }
  assert (markers_named tokens_inside_decl = true) as Hnamed.
  { apply markers_named_lookup. intros i [Hi|Hi].
    - destruct (Hvarname i Hi) as (name & ? & ? & _). by exists name.
    - by apply Hargname. }
  destruct tokens_inside_decl as [|first rest]; [done|].
  assert (find_modifiers_decl (first :: rest)
          = Ok (find_modifiers_decl_loop
                  (if String.eqb first CASE_GEN_SYM then rest else first :: rest)
                  {| decl_casegen := String.eqb first CASE_GEN_SYM;
                     decl_variation_name := None; decl_argument_name := None |}
                  false false)) as ->.
  { unfold find_modifiers_decl. simpl.
    by destruct (String.eqb first CASE_GEN_SYM). }
  cbn [head].
  destruct (String.eqb_spec first CASE_GEN_SYM) as [->|Hcase].
  - (* the loop starts after the casegen marker *)
    cbn [markers_named] in Hnamed. apply andb_true_iff in Hnamed as [_ Hnamed].
    rewrite !list_count_cons_ne in Hvar, Harg by done.
    eexists. split; [done|].
    destruct (find_modifiers_decl_loop_read (length rest) rest
                {| decl_casegen := true; decl_variation_name := None;
                   decl_argument_name := None |})
      as (Hcasegen & Hvars & Hnovar & Hargs & Hnoarg); [done..|].
    split; [by rewrite Hcasegen, bool_decide_true|].
    split; [intros [|i] Hi; [done | by apply Hvars]|].
    split; [intros Hnone; apply Hnovar; intros Hin; apply Hnone; by right|].
    split; [intros [|i] Hi; [done | by apply Hargs]|].
    split; [intros Hnone; apply Hnoarg; intros Hin; apply Hnone; by right|].
    split.
    + intros variation_name Hread.
      destruct (decide (VARIATION_SYM ∈ rest)) as [Hin|Hout].
      * apply list_elem_of_lookup_1 in Hin as [i Hi].
        destruct (Hvarname (S i) Hi) as (name & Hname & Hplain & Hres).
        rewrite (Hvars i Hi) in Hread. simpl in Hname.
        rewrite Hname in Hread. by injection Hread as <-.
      * by rewrite (Hnovar Hout) in Hread.
    + intros argument_name Hread.
      destruct (decide (ARG_SYM ∈ rest)) as [Hin|Hout].
      * apply list_elem_of_lookup_1 in Hin as [i Hi].
        destruct (Hargname (S i) Hi) as (name & Hname & Hplain).
        rewrite (Hargs i Hi) in Hread. simpl in Hname.
        rewrite Hname in Hread. by injection Hread as <-.
      * by rewrite (Hnoarg Hout) in Hread.
  - eexists. split; [done|].
    destruct (find_modifiers_decl_loop_read (length (first :: rest)) (first :: rest)
                {| decl_casegen := false; decl_variation_name := None;
                   decl_argument_name := None |})
      as (Hcasegen & Hvars & Hnovar & Hargs & Hnoarg); [done..|].
    split; [rewrite Hcasegen, bool_decide_false; [done | congruence]|].
    do 4 (split; [done|]).
    split.
    + intros variation_name Hread.
      destruct (decide (VARIATION_SYM ∈ first :: rest)) as [Hin|Hout].
      * apply list_elem_of_lookup_1 in Hin as [i Hi].
        destruct (Hvarname i Hi) as (name & Hname & Hplain & Hres).
        rewrite (Hvars i Hi), Hname in Hread. by injection Hread as <-.
      * by rewrite (Hnovar Hout) in Hread.
    + intros argument_name Hread.
      destruct (decide (ARG_SYM ∈ first :: rest)) as [Hin|Hout].
      * apply list_elem_of_lookup_1 in Hin as [i Hi].
        destruct (Hargname i Hi) as (name & Hname & Hplain).
        rewrite (Hargs i Hi), Hname in Hread. by injection Hread as <-.
      * by rewrite (Hnoarg Hout) in Hread.
Qed.

(** ** Comments *)

Lemma str_prefix_refl (text : string) : str_prefix text text.
Proof. exists "". by rewrite append_nil_r. Qed.

Lemma str_prefix_trans (a b c : string) :
  str_prefix a b -> str_prefix b c -> str_prefix a c.
Proof. intros [r ->] [s ->]. exists (r +:+ s). by rewrite append_assoc. Qed.

Lemma str_prefix_cons (c : ascii) (start text : string) :
  str_prefix (String c start) text <->
  exists text', text = String c text' /\ str_prefix start text'.
Proof.
  split.
  - intros [rest ->]. exists (start +:+ rest). split; [done | by exists rest].
  - intros (text' & -> & [rest ->]). by exists rest.
Qed.

Lemma str_take_prefix (i : nat) (text : string) : str_prefix (str_take i text) text.
Proof.
  revert i. induction text as [|c text IH]; intros [|i]; simpl;
    try (by eexists).
  apply str_prefix_cons. eexists. split; [done | apply IH].
Qed.

Lemma str_take_take_prefix (i j : nat) (text : string) :
  i <= j -> str_prefix (str_take i text) (str_take j text).
Proof.
  revert i j. induction text as [|c text IH]; intros [|i] [|j] Hle; simpl;
    try (by eexists); [lia|].
  apply str_prefix_cons. eexists. split; [done|]. apply IH. lia.
Qed.

Lemma startswith_prefix (marker start text : string) :
  str_prefix start text -> startswith marker start = true ->
  startswith marker text = true.
Proof.
  revert start text. induction marker as [|m marker IH]; intros start text; [done|].
  destruct start as [|c start]; [done|].
  intros (text' & -> & Hprefix)%str_prefix_cons. simpl.
  intros [-> Hrest]%andb_true_iff. simpl. by eapply IH.
Qed.

Lemma search_unescaped_prefix (marker start text : string) (i : nat) (escaped : bool) :
  str_prefix start text ->
  search_unescaped marker text i escaped = None ->
  search_unescaped marker start i escaped = None.
Proof.
  revert text i escaped.
  induction start as [|c start IH]; intros text i escaped; [done|].
  intros (text' & -> & Hprefix)%str_prefix_cons. simpl.
  destruct (negb escaped && startswith marker (String c text')) eqn:Hfound; [done|].
  intros Hrest.
  destruct (negb escaped && startswith marker (String c start)) eqn:Hstart.
  - apply andb_true_iff in Hstart as [Hesc Hstart].
    rewrite Hesc in Hfound. simpl in Hfound.
    rewrite (startswith_prefix marker (String c start) (String c text')) in Hfound;
      [done | | done].
    apply str_prefix_cons. by eexists.
  - by eapply IH.
Qed.

Lemma search_unescaped_first (marker text : string) (i start : nat) (escaped : bool) :
  search_unescaped marker text i escaped = Some start ->
  exists k, start = i + k /\
            search_unescaped marker (str_take k text) i escaped = None.
Proof.
  revert i escaped. induction text as [|c text IH]; intros i escaped; [done|].
  simpl.
  destruct (negb escaped && startswith marker (String c text)) eqn:Hfound.
  - intros [= <-]. exists 0. split; [lia | done].
  - intros (k & -> & Hnone)%IH. exists (S k). split; [lia|]. simpl.
    destruct (negb escaped && startswith marker (String c (str_take k text)))
      eqn:Hstart; [|done].
    apply andb_true_iff in Hstart as [Hesc Hstart].
    rewrite Hesc in Hfound. simpl in Hfound.
    rewrite (startswith_prefix marker (String c (str_take k text)) (String c text))
      in Hfound; [done | | done].
    apply str_prefix_cons. eexists. split; [done | apply str_take_prefix].
Qed.

Section CommentFacts.
Context `{CharTable}.

Lemma rstrip_cons (c : ascii) (text : string) :
  rstrip (String c text)
  = if String.eqb (rstrip text) "" && isspace c then "" else String c (rstrip text).
Proof. simpl. destruct (rstrip text); simpl; [by destruct (isspace c) | done]. Qed.

Lemma rstrip_prefix (text : string) : str_prefix (rstrip text) text.
Proof.
  induction text as [|c text IH]; [by exists ""|]. rewrite rstrip_cons.
  destruct (String.eqb (rstrip text) "" && isspace c); [by eexists|].
  apply str_prefix_cons. by eexists.
Qed.

Lemma rstrip_idempotent (text : string) : rstrip (rstrip text) = rstrip text.
Proof.
  induction text as [|c text IH]; [done|]. rewrite rstrip_cons.
  destruct (String.eqb_spec (rstrip text) "") as [Hempty|Hkept]; cbn [andb].
  - destruct (isspace c) eqn:Hc; [done|]. rewrite rstrip_cons, IH, Hempty, Hc. done.
  - rewrite rstrip_cons, IH. apply String.eqb_neq in Hkept. by rewrite Hkept.
Qed.

(** What [rstrip] removes is made of spaces, and what it keeps does not end
    with a space. *)
Lemma rstrip_spaces (text : string) :
  exists spaces, text = rstrip text +:+ spaces /\ all_spaces spaces = true.
Proof.
  induction text as [|c text (spaces & Htext & Hspaces)]; [by exists ""|].
  rewrite rstrip_cons.
  destruct (String.eqb_spec (rstrip text) "") as [Hempty|Hkept]; simpl.
  - destruct (isspace c) eqn:Hc.
    + exists (String c text). split; [done|]. simpl. rewrite Hc. simpl.
      rewrite Htext, Hempty. done.
    + exists spaces. split; [|done]. simpl. by rewrite <- Htext.
  - exists spaces. split; [|done]. simpl. by rewrite <- Htext.
Qed.

Lemma rstrip_no_trailing_space (text kept : string) (c : ascii) :
  rstrip text = kept +:+ String c "" -> isspace c = false.
Proof.
  revert kept. induction text as [|d text IH]; intros kept.
  - simpl. by destruct kept.
  - rewrite rstrip_cons.
    destruct (String.eqb_spec (rstrip text) "") as [Hempty|Hkept]; simpl.
    + destruct (isspace d) eqn:Hd; [by destruct kept|]. rewrite Hempty.
      destruct kept as [|e kept]; simpl; [by intros [= <-]|].
      intros [= _ Hrest]. by destruct kept.
    + destruct kept as [|e kept]; simpl.
      * intros [= _ Hrest]. done.
      * intros [= _ Hrest]. by eapply IH.
Qed.

Lemma strip_comments_clean (text : string) :
  search_unescaped COMMENT_MARKER text 0 false = None ->
  search_unescaped COMMENT_SYM_DEPRECATED text 0 false = None ->
  rstrip text = text ->
  strip_comments (Some text) = Some text.
Proof.
  intros Hcomment Hdeprecated Hstripped. unfold strip_comments.
  destruct text as [|c text]; [done|].
  by rewrite Hcomment, Hdeprecated, Hstripped.
Qed.

(** X9. [strip_comments] returns a start of the text that holds no comment
    marker without a backslash before it, neither [//] nor [;], and that
    does not end with a space; stripping what it returns again changes
    nothing. *)
Theorem strip_comments_idempotent (text : string) :
  exists stripped,
    strip_comments (Some text) = Some stripped /\
    str_prefix stripped text /\
    search_unescaped COMMENT_MARKER stripped 0 false = None /\
    search_unescaped COMMENT_SYM_DEPRECATED stripped 0 false = None /\
    (forall kept c, stripped = kept +:+ String c "" -> isspace c = false) /\
    strip_comments (Some stripped) = Some stripped.
Proof.
  assert (forall cut,
            str_prefix cut text ->
            search_unescaped COMMENT_MARKER cut 0 false = None ->
            search_unescaped COMMENT_SYM_DEPRECATED cut 0 false = None ->
            let stripped := rstrip cut in
            str_prefix stripped text /\
            search_unescaped COMMENT_MARKER stripped 0 false = None /\
            search_unescaped COMMENT_SYM_DEPRECATED stripped 0 false = None /\
            (forall kept c, stripped = kept +:+ String c "" -> isspace c = false) /\
            strip_comments (Some stripped) = Some stripped) as Hcut.
  { intros cut Hprefix Hcomment Hdeprecated stripped.
    pose proof (rstrip_prefix cut) as Hkept.
    assert (search_unescaped COMMENT_MARKER stripped 0 false = None) as Hc
      by (by eapply search_unescaped_prefix).
    assert (search_unescaped COMMENT_SYM_DEPRECATED stripped 0 false = None) as Hd
      by (by eapply search_unescaped_prefix).
    split; [by eapply str_prefix_trans|]. do 2 (split; [done|]).
    split; [intros kept c; apply rstrip_no_trailing_space|].
    apply strip_comments_clean; [done | done | apply rstrip_idempotent]. }
  destruct text as [|c0 text0].
  { exists "". split; [done|]. split; [apply str_prefix_refl|].
    do 2 (split; [done|]). split; [|done]. intros kept c. by destruct kept. }
  set (text := String c0 text0) in *.
  unfold strip_comments. fold text.
  destruct (search_unescaped COMMENT_MARKER text 0 false) as [start|] eqn:Hcomment;
    destruct (search_unescaped COMMENT_SYM_DEPRECATED text 0 false)
      as [start_deprecated|] eqn:Hdeprecated.
  - apply search_unescaped_first in Hcomment as (k & -> & Hcomment).
    apply search_unescaped_first in Hdeprecated as (kd & -> & Hdeprecated).
    simpl. destruct (Nat.leb_spec k kd) as [Hle|Hlt].
    + eexists. split; [done|]. apply Hcut; [apply str_take_prefix | done |].
      eapply search_unescaped_prefix; [|done]. by apply str_take_take_prefix.
    + eexists. split; [done|]. apply Hcut; [apply str_take_prefix | | done].
      eapply search_unescaped_prefix; [|done]. apply str_take_take_prefix. lia.
  - apply search_unescaped_first in Hcomment as (k & -> & Hcomment). simpl.
    eexists. split; [done|]. apply Hcut; [apply str_take_prefix | done |].
    eapply search_unescaped_prefix; [|done]. apply str_take_prefix.
  - apply search_unescaped_first in Hdeprecated as (kd & -> & Hdeprecated). simpl.
    eexists. split; [done|]. apply Hcut; [apply str_take_prefix | | done].
    eapply search_unescaped_prefix; [|done]. apply str_take_prefix.
  - eexists. split; [done|]. apply Hcut; [apply str_prefix_refl | done | done].
Qed.
End CommentFacts.

(** ** Symbols and kinds of text *)

(** X10. The symbol tables agree: [get_unit_type_from_sym] names a unit
    type exactly on the symbols that [is_unit_type_sym] accepts; these are
    special symbols for [is_special_sym]; and [is_start_unit_sym] accepts
    them and the opening bracket, nothing else. *)
Theorem unit_type_symbols (sym : string) :
  (is_unit_type_sym sym = true <-> is_Some (get_unit_type_from_sym sym)) /\
  (is_unit_type_sym sym = true -> is_special_sym sym = true) /\
  (is_start_unit_sym sym = true <->
   sym = UNIT_OPEN_SYM \/ is_unit_type_sym sym = true) /\
  (is_start_unit_sym sym = true -> is_special_sym sym = true).
Proof.
  unfold is_unit_type_sym, get_unit_type_from_sym, is_start_unit_sym.
  destruct (String.eqb_spec sym ALIAS_SYM) as [->|Halias].
  { repeat split; try done; try (by eexists); by right. }
  destruct (String.eqb_spec sym SLOT_SYM) as [->|Hslot].
  { repeat split; try done; try (by eexists); by right. }
  destruct (String.eqb_spec sym INTENT_SYM) as [->|Hintent].
  { repeat split; try done; try (by eexists); by right. }
  destruct (String.eqb_spec sym UNIT_OPEN_SYM) as [->|Hopen].
  { repeat split; try done; try (by intros [? [=]]). by left. }
  simpl. split; [split; [done | by intros [? [=]]]|]. split; [done|].
  split; [|done]. split; [done | by intros [?|?]].
Qed.

Lemma startswith_char (c d : ascii) (text : string) :
  startswith (String c "") (String d text) = Ascii.eqb c d.
Proof. simpl. by rewrite andb_true_r. Qed.

Lemma eqb_char (c d : ascii) :
  String.eqb (String c "") (String d "") = Ascii.eqb c d.
Proof. simpl. by destruct (Ascii.eqb c d). Qed.

(** X11. [get_unit_type] returns a type exactly on the texts that
    [is_unit_start] or [is_choice] accepts, never on both at once, never
    the type of a word, and raises on everything else, words included; the
    type it returns for a text that starts with a unit symbol is the one
    that [get_unit_type_from_sym] gives for this symbol. *)
Theorem get_unit_type_kinds `{CharTable} (unit_text : string) :
  match get_unit_type unit_text with
  | inl _ =>
      is_unit_start unit_text = false /\ is_choice unit_text = false
  | inr SubRuleType.word => False
  | inr SubRuleType.word_group =>
      first_char unit_text = UNIT_OPEN_SYM /\
      is_unit_start unit_text = true /\ is_choice unit_text = false /\
      is_word unit_text = false
  | inr SubRuleType.alias =>
      get_unit_type_from_sym (first_char unit_text) = Some alias /\
      is_unit_start unit_text = true /\ is_choice unit_text = false /\
      is_word unit_text = false
  | inr SubRuleType.slot =>
      get_unit_type_from_sym (first_char unit_text) = Some slot /\
      is_unit_start unit_text = true /\ is_choice unit_text = false /\
      is_word unit_text = false
  | inr SubRuleType.intent =>
      get_unit_type_from_sym (first_char unit_text) = Some intent /\
      is_unit_start unit_text = true /\ is_choice unit_text = false /\
      is_word unit_text = false
  | inr SubRuleType.choice =>
      is_choice unit_text = true /\ is_unit_start unit_text = false /\
      is_word unit_text = false
  end.
Proof.
  destruct unit_text as [|c text]; [done|].
  unfold get_unit_type, is_unit_start, is_choice, is_word, is_start_unit_sym,
    get_unit_type_from_sym, first_char,
    UNIT_OPEN_SYM, ALIAS_SYM, SLOT_SYM, INTENT_SYM, CHOICE_OPEN_SYM.
  rewrite !startswith_char, !eqb_char.
  rewrite !(Ascii.eqb_sym c).
  cbn [String.length Nat.ltb Nat.leb andb orb].
  destruct (Ascii.eqb_spec "["%char c) as [<-|Hopen].
  { cbn. rewrite !orb_true_r. done. }
  destruct (Ascii.eqb_spec "~"%char c) as [<-|Halias].
  { cbn. rewrite !orb_true_r. done. }
  destruct (Ascii.eqb_spec "@"%char c) as [<-|Hslot].
  { cbn. rewrite !orb_true_r. done. }
  destruct (Ascii.eqb_spec "%"%char c) as [<-|Hintent].
  { cbn. rewrite !orb_true_r. done. }
  destruct (Ascii.eqb_spec "{"%char c) as [<-|Hchoice].
  { cbn. rewrite !orb_true_r. done. }
  done.
Qed.

(** ** Alternative slot values *)

Lemma list_index_absent (sym : string) (tokens : list string) :
  sym ∉ tokens -> list_index sym tokens = Raise ValueError.
Proof.
  induction tokens as [|token tokens IH]; [done|].
  intros [Hne Hrest]%not_elem_of_cons. simpl.
  apply not_eq_sym, String.eqb_neq in Hne. rewrite Hne. by rewrite IH.
Qed.

Lemma list_index_first (sym : string) (pre rest : list string) :
  sym ∉ pre -> list_index sym (pre ++ sym :: rest) = Ok (length pre).
Proof.
  induction pre as [|token pre IH]; simpl.
  - by rewrite String.eqb_refl.
  - intros [Hne Hpre]%not_elem_of_cons.
    apply not_eq_sym, String.eqb_neq in Hne. rewrite Hne. by rewrite IH.
Qed.

(** X12. [find_alt_slot_and_index] returns [None] when the tokens hold no
    equal sign.  Otherwise it returns the index of the first equal sign
    with the token after it, or, when this token is a space, the token
    after the space, the empty string standing for a missing one; but when
    the equal sign is the last token it raises an [IndexError]. *)
Theorem find_alt_slot_and_index_cases (pre rest : list string) :
  ALT_SLOT_VALUE_NAME_SYM ∉ pre ->
  find_alt_slot_and_index pre = Ok None /\
  find_alt_slot_and_index (pre ++ ALT_SLOT_VALUE_NAME_SYM :: rest)
  = match rest with
    | [] => Raise IndexError
    | value :: after =>
        if String.eqb value " "
        then Ok (Some (length pre, default "" (head after)))
        else Ok (Some (length pre, value))
    end.
Proof.
  intros Hpre. unfold find_alt_slot_and_index. split.
  - by rewrite list_index_absent.
  - rewrite list_index_first by done. unfold list_get.
    rewrite !lookup_app_r by lia.
    replace (length pre + 1 - length pre) with 1 by lia.
    replace (length pre + 2 - length pre) with 2 by lia.
    destruct rest as [|value after]; [done|]. simpl.
    destruct (String.eqb value " "); [|done]. by destruct after.
Qed.

(** X21. [get_top_level_line_type] decides the empty and the comment
    classes on the stripped line alone, before it looks at the line: the
    line is empty exactly when the stripped line is, and a comment
    exactly when the stripped line is not empty and starts with a comment
    marker.  A line that is neither is the declaration of an alias, of a
    slot or of an intent exactly when [get_unit_type] gives its text this
    very type, which is when [get_unit_type_from_sym] gives the unit type
    for its first character; it is an inclusion exactly when it starts
    with the inclusion symbol; and it has no type in every other case, so
    for a line that starts a word group or a choice. *)
Theorem get_top_level_line_type_kinds (line stripped_line : string) :
  let line_type := get_top_level_line_type line stripped_line in
  let content :=
    stripped_line <> "" /\
    startswith COMMENT_MARKER stripped_line = false /\
    startswith COMMENT_SYM_DEPRECATED stripped_line = false in
  (line_type = Some LineType.empty <-> stripped_line = "") /\
  (line_type = Some LineType.comment <->
   stripped_line <> "" /\
   (startswith COMMENT_MARKER stripped_line = true \/
    startswith COMMENT_SYM_DEPRECATED stripped_line = true)) /\
  (line_type = Some LineType.alias_declaration <->
   content /\ get_unit_type line = inr SubRuleType.alias) /\
  (line_type = Some LineType.slot_declaration <->
   content /\ get_unit_type line = inr SubRuleType.slot) /\
  (line_type = Some LineType.intent_declaration <->
   content /\ get_unit_type line = inr SubRuleType.intent) /\
  (line_type = Some LineType.include_file <->
   content /\ startswith INCLUDE_FILE_SYM line = true) /\
  (line_type = None <->
   content /\ is_unit_type_sym (first_char line) = false /\
   startswith INCLUDE_FILE_SYM line = false) /\
  (content ->
   (get_unit_type line = inr SubRuleType.alias <->
    get_unit_type_from_sym (first_char line) = Some alias) /\
   (get_unit_type line = inr SubRuleType.slot <->
    get_unit_type_from_sym (first_char line) = Some slot) /\
   (get_unit_type line = inr SubRuleType.intent <->
    get_unit_type_from_sym (first_char line) = Some intent)).
Proof.
  intros line_type content. subst line_type content.
  unfold get_top_level_line_type.
  destruct (String.eqb_spec stripped_line "") as [->|Hne].
  { repeat split; intros; cbn in *; try done; intuition congruence. }
  destruct (startswith COMMENT_MARKER stripped_line) eqn:Hmarker.
  { repeat split; intros; cbn in *; try done; intuition congruence. }
  destruct (startswith COMMENT_SYM_DEPRECATED stripped_line) eqn:Hdeprecated.
  { repeat split; intros; cbn in *; try done; intuition congruence. }
  destruct line as [|c text].
  { repeat split; intros; cbn in *; try done; intuition congruence. }
  unfold get_unit_type, is_unit_type_sym, get_unit_type_from_sym, first_char,
    UNIT_OPEN_SYM, ALIAS_SYM, SLOT_SYM, INTENT_SYM, CHOICE_OPEN_SYM,
    INCLUDE_FILE_SYM.
  rewrite !startswith_char, !eqb_char.
  rewrite !(Ascii.eqb_sym c).
  destruct (Ascii.eqb_spec "~"%char c) as [<-|Halias].
  { repeat split; intros; cbn in *; try done; intuition congruence. }
  destruct (Ascii.eqb_spec "@"%char c) as [<-|Hslot].
  { repeat split; intros; cbn in *; try done; intuition congruence. }
  destruct (Ascii.eqb_spec "%"%char c) as [<-|Hintent].
  { repeat split; intros; cbn in *; try done; intuition congruence. }
  destruct (Ascii.eqb_spec "|"%char c) as [<-|Hinclude].
  { repeat split; intros; cbn in *; try done; intuition congruence. }
  destruct (Ascii.eqb_spec "["%char c) as [<-|Hopen].
  { repeat split; intros; cbn in *; try done; intuition congruence. }
  destruct (Ascii.eqb_spec "{"%char c) as [<-|Hchoice].
  { repeat split; intros; cbn in *; try done; intuition congruence. }
  repeat split; intros; cbn in *; try done; intuition congruence.
Qed.

(** ** Random and exhaustive generation *)

Lemma elem_of_concat {A : Type} (x : A) (ls : list (list A)) :
  (exists l, x ∈ l /\ l ∈ ls) -> x ∈ concat ls.
Proof.
  intros (l & Hx & Hl). induction Hl as [l ls|l k ls _ IH]; simpl.
  - apply elem_of_app. by left.
  - apply elem_of_app. right. by apply IH.
Qed.

Section RandomExhaustive.
Context `{CharTable} `{Regex} {N : Type} `{RuleContent.Methods N}.
Implicit Types (self : UnitDefinition.t N) (rule : list N).

Lemma Example_concat_init_l (ex : Example) : Example_concat Example_init ex = ex.
Proof. by destruct ex. Qed.

Lemma generate_random_tokens_product rule (example_text : string)
    (example_entities : list Entity) (generated_randgens : Randgens) (g : Rng) :
  random_in_all ->
  exists rest,
    rest ∈ cartesian_product (RuleContent.generate_all <$> rule) /\
    let '(generated_text, generated_entities, _, _) :=
      UnitDefinition.generate_random_tokens rule example_text example_entities
        generated_randgens g in
    {| text := generated_text; entities := generated_entities |}
    = Example_concat {| text := example_text; entities := example_entities |} rest.
Proof.
  intros Hsound.
  revert example_text example_entities generated_randgens g.
  induction rule as [|token rule IH];
    intros example_text example_entities generated_randgens g.
  - exists Example_init. split; [by left|]. simpl.
    by rewrite Example_concat_init.
  - cbn [UnitDefinition.generate_random_tokens].
    pose proof (Hsound token generated_randgens g) as Hin.
    destruct (RuleContent.generate_random token generated_randgens g)
      as [[generated_token m] g1]. simpl in Hin.
    destruct (IH (example_text +:+ text generated_token)
                 (example_entities ++ entities generated_token) m g1)
      as (rest & Hrest & Hloop).
    exists (Example_concat generated_token rest). split.
    + rewrite fmap_cons. cbn [cartesian_product].
      apply list_elem_of_bind. exists generated_token. split; [|done].
      apply list_elem_of_bind. exists rest. split; [by left | done].
    + destruct (UnitDefinition.generate_random_tokens rule _ _ m g1)
        as [[[generated_text generated_entities] m'] g2].
      rewrite Hloop. by rewrite <- Example_concat_assoc.
Qed.

Lemma random_in_all_productive (relevant_rules : list (list N)) :
  random_in_all -> productive relevant_rules.
Proof.
  intros Hsound rule token _ _ Hnone.
  pose proof (Hsound token ∅ (fun _ => 0)) as Hin.
  rewrite Hnone in Hin. by apply elem_of_nil in Hin.
Qed.

(** X13. When the contents generate at random only what is among their
    exhaustive outputs, the casegen of the unit is off, no selected rule
    is without content and the substitution is one that the runtime reads
    literally, every example that [generate_random] returns for a
    non-empty selection is one of the examples that [generate_all] returns
    for the same selection and argument value. *)
Theorem generate_random_in_generate_all self
    (variation_name arg_value : option string) (relevant_rules : list (list N))
    (g : Rng) :
  random_in_all ->
  literal_substitution self arg_value ->
  UnitDefinition.casegen self = false ->
  selected_rules self variation_name = Some relevant_rules ->
  relevant_rules <> [] ->
  Forall (fun rule => rule <> []) relevant_rules ->
  exists ex g' generated_examples,
    UnitDefinition.generate_random self variation_name arg_value g = Ok (ex, g') /\
    UnitDefinition.generate_all self variation_name arg_value
    = Ok generated_examples /\
    ex ∈ generated_examples.
Proof.
  intros Hsound Hliteral Hcase Hsel Hne Hrules.
  rewrite (generate_all_selected _ _ _ _ Hsel Hne).
  rewrite generate_all_rules_product by (by apply random_in_all_productive).
  rewrite replace_arg_examples_literal by done. cbn [mbind result_bind].
  unfold UnitDefinition.apply_casegen. rewrite Hcase. cbn [andb].
  destruct (choose_elem relevant_rules g Hne) as (rule & g1 & Hchoose & Hrule).
  assert (UnitDefinition.generate_random self variation_name arg_value g
          = let '(example_text, example_entities, _, g2) :=
              UnitDefinition.generate_random_tokens rule "" [] ∅ g1 in
            Ok ({| text := replace_literal self arg_value example_text;
                   entities := example_entities |}, g2)) as ->.
  { unfold UnitDefinition.generate_random.
    destruct variation_name as [variation_name|]; simpl in Hsel.
    - rewrite Hsel. simpl. rewrite Hchoose, Hcase. simpl.
      destruct (UnitDefinition.generate_random_tokens rule "" [] ∅ g1)
        as [[[? ?] ?] ?].
      by rewrite replace_arg_literal.
    - injection Hsel as <-. simpl. rewrite Hchoose, Hcase. simpl.
      destruct (UnitDefinition.generate_random_tokens rule "" [] ∅ g1)
        as [[[? ?] ?] ?].
      by rewrite replace_arg_literal. }
  destruct (generate_random_tokens_product rule "" [] ∅ g1 Hsound)
    as (rest & Hrest & Hloop).
  destruct (UnitDefinition.generate_random_tokens rule "" [] ∅ g1)
    as [[[example_text example_entities] m] g2].
  change {| text := ""; entities := [] |} with Example_init in Hloop.
  rewrite Example_concat_init_l in Hloop.
  do 3 eexists. do 2 (split; [done|]).
  apply list_elem_of_fmap.
  exists {| text := example_text; entities := example_entities |}.
  split; [done|]. rewrite Hloop.
  apply elem_of_concat. exists (rule_product rule). split.
  - rewrite Forall_forall in Hrules. specialize (Hrules rule Hrule).
    by destruct rule.
  - by apply list_elem_of_fmap_2.
Qed.
End RandomExhaustive.

(** ** Variations and the rules of the unit *)

Lemma sublist_concat {A : Type} (ls1 ls2 : list (list A)) :
  ls1 `sublist_of` ls2 -> concat ls1 `sublist_of` concat ls2.
Proof.
  induction 1 as [|l ls1 ls2 _ IH|l ls1 ls2 _ IH]; simpl.
  - done.
  - by apply sublist_app.
  - by apply sublist_inserts_l.
Qed.

Lemma sublist_bind {A B : Type} (f : A -> list B) (l1 l2 : list A) :
  l1 `sublist_of` l2 -> l1 ≫= f `sublist_of` l2 ≫= f.
Proof.
  induction 1 as [|x l1 l2 _ IH|x l1 l2 _ IH]; rewrite ?bind_cons.
  - done.
  - by apply sublist_app.
  - by apply sublist_inserts_l.
Qed.

Section Registered.
Context `{CharTable} `{Regex} {N : Type} `{RuleContent.Methods N}.
Implicit Types (self : UnitDefinition.t N) (rule : list N).

Lemma count_rules_acc (relevant_rules : list (list N)) (nb_possible_ex : nat) :
  UnitDefinition.count_rules relevant_rules nb_possible_ex
  = nb_possible_ex + UnitDefinition.count_rules relevant_rules 0.
Proof.
  revert nb_possible_ex.
  induction relevant_rules as [|rule relevant_rules IH]; intros nb_possible_ex;
    cbn [UnitDefinition.count_rules]; [lia|].
  rewrite (IH (nb_possible_ex + _)), (IH (0 + _)). lia.
Qed.

Lemma count_rules_app (rules1 rules2 : list (list N)) :
  UnitDefinition.count_rules (rules1 ++ rules2) 0
  = UnitDefinition.count_rules rules1 0 + UnitDefinition.count_rules rules2 0.
Proof.
  induction rules1 as [|rule rules1 IH]; [done|].
  rewrite <- app_comm_cons. cbn [UnitDefinition.count_rules].
  rewrite (count_rules_acc (rules1 ++ rules2)), (count_rules_acc rules1), IH. lia.
Qed.

Lemma count_rules_sublist (rules1 rules2 : list (list N)) :
  rules1 `sublist_of` rules2 ->
  UnitDefinition.count_rules rules1 0 <= UnitDefinition.count_rules rules2 0.
Proof.
  induction 1 as [|rule rules1 rules2 _ IH|rule rules1 rules2 _ IH];
    cbn [UnitDefinition.count_rules]; [done| |].
  - rewrite (count_rules_acc rules1), (count_rules_acc rules2). lia.
  - rewrite (count_rules_acc rules2). lia.
Qed.

(** X14. A unit as [__init__] builds it registers no variation, and
    [add_rule] and [add_rules] keep that the rules registered under every
    variation are rules of the unit, in the order of the unit; this also
    holds of the unit that they leave when they raise. *)
Theorem add_rule_registered_in_rules :
  (forall (name : string) (rules : option (list (list N))) (arg : option string)
          (casegen : bool),
     registered_in_rules (UnitDefinition.init name rules arg casegen)) /\
  (forall self rule (new_rules : list (list N)) (variation_name : option string),
     registered_in_rules self ->
     registered_in_rules (UnitDefinition.add_rule rule variation_name self).1 /\
     registered_in_rules (UnitDefinition.add_rules new_rules variation_name self).1).
Proof.
  split; [by intros name rules arg casegen v registered Hv|].
  assert (forall self (added : list (list N)) (v : string),
            registered_in_rules self ->
            registered_in_rules
              {| UnitDefinition.type := UnitDefinition.type self;
                 UnitDefinition.name := UnitDefinition.name self;
                 UnitDefinition.rules := UnitDefinition.rules self ++ added;
                 UnitDefinition.argument_identifier :=
                   UnitDefinition.argument_identifier self;
                 UnitDefinition.variations :=
                   <[v := match UnitDefinition.variations self !! v with
                          | None => added
                          | Some registered => registered ++ added
                          end]> (UnitDefinition.variations self);
                 UnitDefinition.casegen := UnitDefinition.casegen self |}) as Hadd.
  { intros self added v Hself w registered. cbn.
    destruct (decide (v = w)) as [<-|Hne].
    - rewrite lookup_insert_eq. intros [= <-].
      destruct (UnitDefinition.variations self !! v) as [registered|] eqn:Hv.
      + apply sublist_app; [by eapply Hself | done].
      + by apply sublist_inserts_l.
    - rewrite lookup_insert_ne by done. intros Hw.
      apply sublist_inserts_r. by eapply Hself. }
  assert (forall self (added : list (list N)),
            registered_in_rules self ->
            registered_in_rules
              {| UnitDefinition.type := UnitDefinition.type self;
                 UnitDefinition.name := UnitDefinition.name self;
                 UnitDefinition.rules := UnitDefinition.rules self ++ added;
                 UnitDefinition.argument_identifier :=
                   UnitDefinition.argument_identifier self;
                 UnitDefinition.variations := UnitDefinition.variations self;
                 UnitDefinition.casegen := UnitDefinition.casegen self |}) as Hkeep.
  { intros self added Hself w registered Hw. cbn in *.
    apply sublist_inserts_r. by eapply Hself. }
  intros self rule new_rules variation_name Hself.
  unfold UnitDefinition.add_rule, UnitDefinition.add_rules.
  destruct variation_name as [v|]; [|split; by apply Hkeep].
  destruct (String.eqb v ""); [split; by apply Hkeep|].
  split; cbn; by apply Hadd.
Qed.

(** X15. In a unit where the rules registered under the variations are rules
    of the unit in its order, and with a substitution that the runtime
    reads literally, the examples that [generate_all] returns for a
    variation are a subsequence of those it returns for the whole unit
    with the same argument value, and the count of the variation is at most
    the count of the unit. *)
Theorem variation_within_unit self (variation_name : string)
    (arg_value : option string) (examples_of_variation : list Example) :
  registered_in_rules self ->
  literal_substitution self arg_value ->
  UnitDefinition.generate_all self (Some variation_name) arg_value
  = Ok examples_of_variation ->
  exists examples_of_unit nb_of_variation nb_of_unit,
    UnitDefinition.generate_all self None arg_value = Ok examples_of_unit /\
    examples_of_variation `sublist_of` examples_of_unit /\
    UnitDefinition.get_max_nb_generated_examples self (Some variation_name)
    = Ok nb_of_variation /\
    UnitDefinition.get_max_nb_generated_examples self None = Ok nb_of_unit /\
    nb_of_variation <= nb_of_unit.
Proof.
  intros Hself Hliteral Hall.
  destruct (UnitDefinition.variations self !! variation_name)
    as [registered|] eqn:Hv.
  2: { unfold UnitDefinition.generate_all, UnitDefinition.relevant_rules_of in Hall.
       by rewrite Hv in Hall. }
  pose proof (Hself _ _ Hv) as Hsub.
  assert (registered <> []) as Hne.
  { intros ->.
    destruct (generate_all_no_rules self (Some variation_name) arg_value Hv)
      as [Hraise _].
    by rewrite Hall in Hraise. }
  assert (UnitDefinition.rules self <> []) as Hrules.
  { intros Hnil. rewrite Hnil in Hsub. apply sublist_nil_r in Hsub. done. }
  rewrite (generate_all_selected self (Some variation_name) arg_value registered Hv Hne)
    in Hall.
  rewrite replace_arg_examples_literal in Hall by done.
  injection Hall as <-.
  rewrite (generate_all_selected self None arg_value (UnitDefinition.rules self))
    by done.
  rewrite replace_arg_examples_literal by done. cbn [mbind result_bind].
  rewrite (get_max_selected self (Some variation_name) registered Hv).
  rewrite (get_max_selected self None (UnitDefinition.rules self)) by done.
  do 3 eexists. split; [done|]. split; [|split; [done|split; [done|]]].
  - rewrite !generate_all_rules_concat. cbn [app].
    assert (forall examples1 examples2 : list Example,
              examples1 `sublist_of` examples2 ->
              UnitDefinition.apply_casegen self examples1
              `sublist_of` UnitDefinition.apply_casegen self examples2) as Hcase.
    { intros examples1 examples2 Hexamples. unfold UnitDefinition.apply_casegen.
      destruct (_ && _); [by apply sublist_bind | done]. }
    apply Hcase, fmap_sublist, sublist_concat, fmap_sublist, Hsub.
  - pose proof (count_rules_sublist _ _ Hsub).
    destruct (UnitDefinition.casegen self); lia.
Qed.

(** X16. On a selection without rules (a unit that was given no rule, or a
    variation registered with none) [generate_random] returns the empty
    example and leaves the random generator as it was, whereas
    [generate_all] raises a syntax error and the count is zero. *)
Theorem generate_on_no_rules self (variation_name arg_value : option string)
    (g : Rng) :
  selected_rules self variation_name = Some [] ->
  UnitDefinition.generate_random self variation_name arg_value g
  = Ok (Example_init, g) /\
  is_syntax_error (UnitDefinition.generate_all self variation_name arg_value) /\
  UnitDefinition.get_max_nb_generated_examples self variation_name = Ok 0.
Proof.
  intros Hsel.
  destruct (generate_all_no_rules self variation_name arg_value Hsel)
    as (Hall & nb & Hnb & ->).
  split; [|done].
  unfold UnitDefinition.generate_random.
  destruct variation_name as [variation_name|]; simpl in Hsel.
  - by rewrite Hsel.
  - injection Hsel as ->. done.
Qed.

(** X17. Adding a rule to a unit adds the count of the rule to the count of
    the unit (twice with casegen) and, in a unit without casegen and with a
    substitution that the runtime reads literally, adds the examples of the
    rule after those that [generate_all] returned before, which it returns
    unchanged; a unit without rules, for which [generate_all] raised,
    returns the examples of the rule. *)
Theorem add_rule_generation self rule (variation_name arg_value : option string) :
  let self' := (UnitDefinition.add_rule rule variation_name self).1 in
  (exists nb_possible_ex,
     UnitDefinition.get_max_nb_generated_examples self None = Ok nb_possible_ex /\
     UnitDefinition.get_max_nb_generated_examples self' None
     = Ok (nb_possible_ex +
           (if UnitDefinition.casegen self then 2 else 1)
           * UnitDefinition.count_sub_units rule 0)) /\
  (UnitDefinition.casegen self = false ->
   literal_substitution self arg_value ->
   UnitDefinition.generate_all self' None arg_value
   = Ok (match UnitDefinition.generate_all self None arg_value with
         | Ok generated_examples => generated_examples
         | Raise _ => []
         end ++
         ((fun ex => {| text := replace_literal self arg_value (text ex);
                        entities := entities ex |})
            <$> UnitDefinition.generate_all_sub_units rule []))).
Proof.
  intros self'.
  assert (UnitDefinition.rules self' = UnitDefinition.rules self ++ [rule]) as Hrules.
  { unfold self', UnitDefinition.add_rule.
    destruct variation_name as [v|]; [|done]. by destruct (String.eqb v ""). }
  assert (UnitDefinition.casegen self' = UnitDefinition.casegen self) as Hcasegen.
  { unfold self', UnitDefinition.add_rule.
    destruct variation_name as [v|]; [|done]. by destruct (String.eqb v ""). }
  assert (UnitDefinition.argument_identifier self'
          = UnitDefinition.argument_identifier self) as Harg.
  { unfold self', UnitDefinition.add_rule.
    destruct variation_name as [v|]; [|done]. by destruct (String.eqb v ""). }
  split.
  - eexists. split; [by apply (get_max_selected self None)|].
    rewrite (get_max_selected self' None _ eq_refl), Hrules, Hcasegen.
    rewrite count_rules_app. cbn [UnitDefinition.count_rules].
    f_equal. destruct (UnitDefinition.casegen self); lia.
  - intros Hcase Hliteral.
    assert (literal_substitution self' arg_value) as Hliteral'.
    { intros arg value Hidentifier Hvalue. apply Hliteral; [|done].
      by rewrite <- Harg. }
    rewrite (generate_all_selected self' None arg_value _ eq_refl)
      by (rewrite Hrules; by destruct (UnitDefinition.rules self)).
    rewrite replace_arg_examples_literal by done. cbn [mbind result_bind].
    unfold UnitDefinition.apply_casegen at 1. rewrite Hcasegen, Hcase. cbn [andb].
    rewrite Hrules, generate_all_rules_concat. cbn [app].
    rewrite (fmap_app _ (UnitDefinition.rules self) [rule]), concat_app, fmap_app.
    cbn [fmap list_fmap concat]. rewrite app_nil_r.
    assert (forall text, replace_literal self' arg_value text
                         = replace_literal self arg_value text) as Hreplace.
    { intros text. unfold replace_literal. by rewrite Harg. }
    f_equal. f_equal.
    + destruct (UnitDefinition.rules self) as [|first others] eqn:Hself.
      * unfold UnitDefinition.generate_all. simpl. by rewrite Hself.
      * rewrite (generate_all_selected self None arg_value (first :: others))
          by (simpl; by f_equal).
        rewrite replace_arg_examples_literal by done. cbn [mbind result_bind].
        unfold UnitDefinition.apply_casegen. rewrite Hcase. cbn [andb].
        rewrite generate_all_rules_concat. cbn [app].
        apply list_fmap_ext. intros i ex _. by rewrite Hreplace.
    + apply list_fmap_ext. intros i ex _. by rewrite Hreplace.
Qed.
End Registered.

(** ** What the escaping and the substitution leave alone *)

Lemma escapement_removed_length (n : nat) (text : string) :
  String.length text <= n ->
  String.length (escapement_removed text) <= String.length text /\
  (String.length (escapement_removed text) = String.length text ->
   escapement_removed text = text).
Proof.
  revert text. induction n as [|n IH]; intros text Hlen.
  - destruct text; [done | simpl in Hlen; lia].
  - destruct text as [|c rest]; [done|].
    cbn [escapement_removed]. destruct (char_is c ESCAPE_SYM) eqn:Hc.
    + destruct rest as [|d rest']; [simpl; split; [lia | done]|].
      simpl in Hlen. destruct (IH rest' ltac:(lia)) as [Hle Heq].
      apply char_is_true in Hc. injection Hc as Hc. subst c.
      destruct (char_is d ARG_SYM) eqn:Hd.
      * apply char_is_true in Hd. injection Hd as Hd. subst d.
        change (ESCAPE_SYM +:+ ARG_SYM +:+ escapement_removed rest')
          with (String "092" (String "$" (escapement_removed rest'))).
        cbn [String.length]. split; [lia|]. intros Hsame.
        rewrite Heq; [done | lia].
      * cbn [String.length]. split; [lia|]. intros Hsame. lia.
    + simpl in Hlen. destruct (IH rest ltac:(lia)) as [Hle Heq].
      cbn [String.length]. split; [lia|]. intros Hsame.
      rewrite Heq; [done | lia].
Qed.

(** X18. [remove_escapement] only takes characters away: its result is never
    longer than the text, and it has the length of the text only when it is
    the text itself. *)
Theorem remove_escapement_shrinks (text : string) :
  String.length (remove_escapement text) <= String.length text /\
  (String.length (remove_escapement text) = String.length text ->
   remove_escapement text = text).
Proof.
  unfold remove_escapement.
  destruct (str_contains_char ESCAPE_SYM text); simpl; [|done].
  destruct (remove_escapement_loop_removed text) as [-> _].
  by apply (escapement_removed_length (String.length text)).
Qed.

Section Stable.
Context `{CharTable} `{Regex} {N : Type} `{RuleContent.Methods N}.
Implicit Types (self : UnitDefinition.t N).

(** X19. Where the runtime reads the identifier and the value literally,
    the substitution of the argument returns a text without argument
    marker as it is, whatever the value: in [generate_all] and in
    [generate_random], only the texts that hold a [$] depend on the value
    given for the argument. *)
Theorem replace_arg_no_marker self (arg_value : option string)
    (example_text : string) :
  literal_substitution self arg_value ->
  str_contains_char ARG_SYM example_text = false ->
  UnitDefinition.replace_arg self arg_value example_text = Ok example_text.
Proof.
  intros Hliteral Htext. rewrite replace_arg_literal by done. f_equal.
  unfold replace_literal.
  destruct arg_value as [arg_value|]; [|done].
  destruct (UnitDefinition.argument_identifier self) as [arg|]; [|done].
  unfold str_replace.
  rewrite (replace_scan_absent true ARG_SYM) by done.
  by rewrite (replace_scan_absent false ARG_SYM).
Qed.

Lemma may_change_leading_case_spaces (pre rest : string) :
  all_spaces pre = true ->
  may_change_leading_case (pre +:+ rest) = false ->
  may_change_leading_case rest = false.
Proof.
  induction pre as [|d pre IH]; [by destruct rest|].
  cbn [all_spaces String.append may_change_leading_case].
  intros [Hd Hpre]%andb_true_iff. rewrite Hd.
  destruct (isalpha d); [done|]. by apply IH.
Qed.

Lemma with_leading_case_stable (text : string) :
  case_stable ->
  may_change_leading_case text = false ->
  with_leading_upper text = text /\ with_leading_lower text = text.
Proof.
  intros Hstable Htext.
  destruct (leading_spaces_split text) as (pre & rest & -> & Hpre & Hrest).
  apply may_change_leading_case_spaces in Htext; [|done].
  destruct rest as [|c post].
  - rewrite append_nil_r.
    by rewrite with_leading_upper_spaces, with_leading_lower_spaces.
  - rewrite with_leading_upper_split, with_leading_lower_split by done.
    cbn [may_change_leading_case] in Htext. rewrite Hrest in Htext.
    destruct (isalpha c) eqn:Halpha; [done|].
    destruct (Hstable c Halpha) as [-> ->]. done.
Qed.

(** X20. With case mappings that leave the characters that are not letters
    alone, the casegen changes nothing where [may_change_leading_case] is
    false: [generate_all] keeps each such example once, as it is, and
    [randomly_change_case] returns the text; the count of
    [get_max_nb_generated_examples] is doubled all the same. *)
Theorem casegen_stable self (generated_examples : list Example)
    (example_text : string) (g : Rng) :
  case_stable ->
  (Forall (fun ex => may_change_leading_case (text ex) = false) generated_examples ->
   UnitDefinition.apply_casegen self generated_examples = generated_examples) /\
  (may_change_leading_case example_text = false ->
   (randomly_change_case example_text g).1 = example_text).
Proof.
  intros Hstable. split.
  - intros Hexamples. unfold UnitDefinition.apply_casegen.
    destruct (_ && _); [|done].
    induction Hexamples as [|ex examples Hex _ IH]; [done|].
    rewrite bind_cons, IH.
    destruct (with_leading_case_stable _ Hstable Hex) as [-> ->].
    by rewrite bool_decide_eq_false_2 by (by intros []).
  - intros Htext. unfold randomly_change_case, randint.
    destruct (with_leading_case_stable _ Hstable Htext) as [Hupper Hlower].
    by destruct (50 <=? _).
Qed.
End Stable.

(** ** The further properties on examples *)

Section MoreExamples.
#[local] Existing Instance ascii_table.
#[local] Existing Instance cpython_re.

Lemma next_sub_rule_tokens_classified_greet :
  next_sub_rule_tokens ["hi"; " "; "~"; "["; "greet"; "]"; "!"]
  = [["hi"]; [" "]; ["~"; "["; "greet"; "]"]; ["!"]] /\
  sub_rule_shaped ["~"; "["; "greet"; "]"] /\
  exists kind, sub_rule_kinds ["~"; "["; "greet"; "]"] = [kind].
Proof.
  split; [reflexivity|].
  apply (next_sub_rule_tokens_classified
           ["hi"; " "; "~"; "["; "greet"; "]"; "!"] ["~"; "["; "greet"; "]"]).
  vm_compute. do 2 apply list_elem_of_further. apply list_elem_of_here.
Defined.

Lemma find_name_valid_greet :
  check_declaration_validity greet_declaration = Ok tt /\
  exists name,
    find_name greet_declaration = Ok name /\
    is_special_sym name = false /\
    name ∈ greet_declaration /\
    greet_declaration !!
      (if bool_decide (head greet_declaration = Some CASE_GEN_SYM) then 1 else 0)
    = Some name.
Proof.
  split; [reflexivity|].
  apply (find_name_valid greet_declaration). reflexivity.
Defined.

Lemma find_modifiers_decl_valid_greet :
  check_declaration_validity greet_declaration = Ok tt /\
  find_modifiers_decl greet_declaration
  = Ok {| decl_casegen := true; decl_variation_name := Some "polite";
          decl_argument_name := Some "name" |} /\
  exists modifiers,
    find_modifiers_decl greet_declaration = Ok modifiers /\
    decl_casegen modifiers = true /\
    decl_variation_name modifiers = greet_declaration !! 3 /\
    decl_argument_name modifiers = greet_declaration !! 5.
Proof.
  split; [reflexivity|]. split; [reflexivity|].
  destruct (find_modifiers_decl_valid greet_declaration eq_refl)
    as (modifiers & Hfound & Hcasegen & Hvariation & _ & Hargument & _).
  exists modifiers. split; [exact Hfound|]. split; [exact Hcasegen|].
  split; [exact (Hvariation 2 eq_refl) | exact (Hargument 4 eq_refl)].
Defined.

Lemma find_alt_slot_and_index_cases_value :
  (ALT_SLOT_VALUE_NAME_SYM ∉ ["city"; " "]) /\
  find_alt_slot_and_index ["city"; " "] = Ok None /\
  find_alt_slot_and_index ["city"; " "; "="; " "; "town"] = Ok (Some (2, "town")).
Proof.
  assert (ALT_SLOT_VALUE_NAME_SYM ∉ ["city"; " "]) as Habsent.
  { apply not_elem_of_cons. split; [discriminate|].
    apply not_elem_of_cons. split; [discriminate|]. apply not_elem_of_nil. }
  split; [exact Habsent|].
  exact (find_alt_slot_and_index_cases ["city"; " "] [" "; "town"] Habsent).
Defined.

Lemma WordGroup_random_in_all : @random_in_all WordGroup.t _.
Proof.
  intros token generated_randgens g. simpl.
  unfold WordGroup.generate_random, WordGroup.decide_randgen, WordGroup.generate_all.
  destruct (RuleContent.randgen (WordGroup.content token)) as [randgen|];
    [|apply list_elem_of_here].
  destruct (generated_randgens !! randgen) as [[|]|]; simpl.
  - apply list_elem_of_further, list_elem_of_here.
  - apply list_elem_of_here.
  - destruct (_ <? _).
    + apply list_elem_of_further, list_elem_of_here.
    + apply list_elem_of_here.
Qed.

Lemma generate_random_in_generate_all_greet :
  exists ex g' generated_examples,
    UnitDefinition.generate_random greet None None (fun _ => 1) = Ok (ex, g') /\
    UnitDefinition.generate_all greet None None = Ok generated_examples /\
    ex ∈ generated_examples.
Proof.
  apply (generate_random_in_generate_all greet None None
           (UnitDefinition.rules greet) (fun _ => 1) WordGroup_random_in_all).
  - apply literal_substitution_absent. by left.
  - reflexivity.
  - reflexivity.
  - discriminate.
  - repeat constructor; discriminate.
Defined.

Lemma add_rule_registered_in_rules_greet :
  registered_in_rules
    (UnitDefinition.add_rule [WordGroup.word "z"] (Some "polite") greet).1 /\
  registered_in_rules
    (UnitDefinition.add_rules [[WordGroup.word "z"]] (Some "polite") greet).1.
Proof.
  destruct (add_rule_registered_in_rules (N := WordGroup.t)) as [Hinit Hadd].
  apply Hadd.
  exact (Hinit "greet" (Some [[WordGroup.word "x"]; [WordGroup.word "y"]])
           None false).
Defined.

Lemma polite_greet_registered : registered_in_rules polite_greet.
Proof.
  intros variation_name registered Hkey.
  change (UnitDefinition.variations polite_greet)
    with (<["polite" := [[WordGroup.word "z"]]]>
            (∅ : gmap string (list (list WordGroup.t)))) in Hkey.
  destruct (decide (variation_name = "polite")) as [->|Hne].
  - rewrite lookup_insert_eq in Hkey. injection Hkey as <-.
    do 2 apply sublist_cons. done.
  - rewrite lookup_insert_ne, lookup_empty in Hkey by done. done.
Qed.

Lemma variation_within_unit_polite :
  UnitDefinition.generate_all polite_greet (Some "polite") None
  = Ok [word_example "z"] /\
  exists examples_of_unit nb_of_variation nb_of_unit,
    UnitDefinition.generate_all polite_greet None None = Ok examples_of_unit /\
    [word_example "z"] `sublist_of` examples_of_unit /\
    UnitDefinition.get_max_nb_generated_examples polite_greet (Some "polite")
    = Ok nb_of_variation /\
    UnitDefinition.get_max_nb_generated_examples polite_greet None = Ok nb_of_unit /\
    nb_of_variation <= nb_of_unit.
Proof.
  split; [reflexivity|].
  apply (variation_within_unit polite_greet "polite" None [word_example "z"]
           polite_greet_registered).
  - apply literal_substitution_absent. by left.
  - reflexivity.
Defined.

Lemma generate_on_no_rules_silent :
  selected_rules silent None = Some [] /\
  UnitDefinition.generate_random silent None None (fun _ => 1)
  = Ok (Example_init, fun _ => 1) /\
  is_syntax_error (UnitDefinition.generate_all silent None None) /\
  UnitDefinition.get_max_nb_generated_examples silent None = Ok 0.
Proof.
  split; [reflexivity|].
  exact (generate_on_no_rules silent None None (fun _ => 1) eq_refl).
Defined.

Lemma replace_arg_no_marker_hello :
  regex_literal "x" = true /\ template_literal "world" = true /\
  str_contains_char ARG_SYM "hello you" = false /\
  UnitDefinition.replace_arg hello (Some "world") "hello you" = Ok "hello you".
Proof.
  do 3 (split; [reflexivity|]).
  apply (replace_arg_no_marker hello (Some "world") "hello you").
  - intros arg value Harg Hvalue. injection Harg as <-. injection Hvalue as <-.
    split; reflexivity.
  - reflexivity.
Defined.

Lemma ascii_case_stable : case_stable.
Proof.
  intros c Halpha. simpl in *.
  apply orb_false_iff in Halpha as [-> ->]. done.
Qed.

Lemma casegen_stable_digit :
  UnitDefinition.apply_casegen digit [word_example "3"] = [word_example "3"] /\
  (randomly_change_case "3 apples" (fun _ => 1)).1 = "3 apples".
Proof.
  destruct (casegen_stable digit [word_example "3"] "3 apples" (fun _ => 1)
              ascii_case_stable) as [Hall Hrandom].
  split.
  - apply Hall. repeat constructor.
  - apply Hrandom. reflexivity.
Defined.
End MoreExamples.
